(** * quantlib_examples: the notebooks' own pricing formulas

    The notebooks of this repository delegate curves, schedules, day
    counts and pricing engines to QuantLib, NumPy and SciPy.  What the
    repository itself contributes is a handful of closed-form formulas
    and one helper class:

    - [CMS.ipynb]: the hand-computed CMS rate under the linear terminal
      swap rate model ([G], [annuity], [gamma], [a], [var], [cms_rate]);
    - [Swaption.ipynb]: [swaption_formula] (shifted lognormal and
      Bachelier);
    - [CMS_spread_options.ipynb]: [psi], [get_drift], [get_fv] and the
      trapezoid integration over [v_grid];
    - [build_fx_quotes.ipynb]: the class [xccy_swap], the loop that
      builds the FX forward quotes and the loop that solves for the
      cross-currency spreads;
    - [bootstrap_fx_discount_curve.ipynb]: the forward points;
    - [forward_curves.ipynb]: the dates at which the curve is sampled.

    Numbers.  A Python [float] is idealised as a real number: rounding,
    overflow, [inf] and [nan] are not represented.  [np.exp], [np.log]
    and [np.sqrt] are [exp], [ln] and [sqrt]; [x ** y] with a float
    exponent is [Rpower]; a statement that depends on their values
    keeps to positive arguments, where Python and the reals agree.
    On floats [x ** 2] raises [OverflowError] when the square leaves
    their range: a statement that a function raises nothing, or
    nothing but the exceptions it lists, keeps to the magnitudes at
    which this cannot happen ([pow_safe], [in_float_range]).
    [norm.pdf] and [norm.cdf] are the standard normal density and its
    integral over [(-oo, x]], constructed below.

    Exceptions.  Where Python raises, the embedding returns [Raise]: a
    missing attribute is [AttributeError], a missing dictionary key
    [KeyError], an index past the end [IndexError], a true division of
    Python floats by zero [ZeroDivisionError].  A division with a NumPy
    scalar operand does not raise in Python (a zero divisor gives [inf]
    or [nan] and a warning); it is written with the total division of
    the reals, whose value means nothing at a zero divisor.

    External objects.  A QuantLib date is its serial number; a day
    counter, a yield curve and a swap are records holding the methods
    the notebooks call on them.  A call into QuantLib or SciPy is taken
    to return, with two exceptions that are represented: [root_scalar]
    may raise, and [ql.Date(serial)] raises outside the serial numbers
    QuantLib supports.  What QuantLib raises on other arguments it
    rejects (a string that is no tenor, a schedule of no length) is not
    represented. *)

From Stdlib Require Import Reals Lra Lia List String Ascii ZArith Bool.
Import ListNotations.

Open Scope R_scope.

(** * Part I: the embedding *)

(** ** Python values and exceptions *)

Module Py.

Inductive exn : Type :=
| ZeroDivisionError
| AttributeError
| KeyError
| TypeError
| IndexError
| ValueError
| RuntimeError.

Inductive result (A : Type) : Type :=
| Ok (v : A)
| Raise (e : exn).

Arguments Ok {A} v.
Arguments Raise {A} e.

Definition bind {A B : Type} (m : result A) (k : A -> result B) : result B :=
  match m with
  | Ok v => k v
  | Raise e => Raise e
  end.

(** A list comprehension whose element expression may raise. *)
Fixpoint mapM {A B : Type} (f : A -> result B) (l : list A) : result (list B) :=
  match l with
  | [] => Ok []
  | x :: t =>
      bind (f x) (fun y => bind (mapM f t) (fun ys => Ok (y :: ys)))
  end.

(** [x / y] on Python floats: a zero divisor raises. *)
Definition truediv (x y : R) : result R :=
  if Req_dec_T y 0 then Raise ZeroDivisionError else Ok (x / y).

(** The builtin [sum] over a list of floats. *)
Definition sum (l : list R) : R := fold_right Rplus 0 l.

(** The builtin [enumerate], counting from [start]. *)
Definition enumerate {A : Type} (start : nat) (l : list A) : list (nat * A) :=
  combine (seq start (List.length l)) l.

(** [l[i]]: an index past the end raises [IndexError]. *)
Definition getindex {A : Type} (l : list A) (i : nat) : result A :=
  match nth_error l i with
  | Some v => Ok v
  | None => Raise IndexError
  end.

(** [d[k]] on a dictionary literal with string keys, given by its
    items: a missing key raises [KeyError]. *)
Fixpoint getitem {A : Type} (d : list (string * A)) (k : string) : result A :=
  match d with
  | [] => Raise KeyError
  | (k', v) :: t => if String.eqb k k' then Ok v else getitem t k
  end.

(** [str.lower] on ASCII text. *)
Definition lower_ascii (c : ascii) : ascii :=
  let n := nat_of_ascii c in
  if ((65 <=? n) && (n <=? 90))%nat then ascii_of_nat (n + 32) else c.

Fixpoint lower (s : string) : string :=
  match s with
  | EmptyString => EmptyString
  | String c t => String (lower_ascii c) (lower t)
  end.

(** [x ** y] on floats, for a positive base [x]. *)
Definition float_pow (x y : R) : R := Rpower x y.

(** [x ** 2] on a Python float raises [OverflowError] when the square
    exceeds the largest float, about [1.8e308]; it cannot for
    [|x| <= 1e154]. *)
Definition pow_safe : R := 10 ^ 154.

End Py.

Import Py.

Declare Scope py_scope.
Delimit Scope py_scope with py.
Notation "x <- m ;; k" := (bind m (fun x => k))
  (at level 61, m at next level, right associativity) : py_scope.
Open Scope py_scope.

(** ** The QuantLib objects the notebooks use *)

Module QL.

(** [ql.Date], by serial number. *)
Definition Date : Type := Z.

(** [ql.Date(serial)]: QuantLib holds the dates from 1 January 1901,
    of serial number 367, to 31 December 2199, of serial number
    109574, and raises [RuntimeError] on any other serial number. *)
Definition Date_of_serial (serial : Z) : result Date :=
  if ((367 <=? serial) && (serial <=? 109574))%Z then Ok serial else Raise RuntimeError.

(** A day counter: its [yearFraction] method. *)
Record DayCounter : Type := { yearFraction : Date -> Date -> R }.

(** A yield term structure handle: its [discount] method. *)
Record YieldTermStructure : Type := { discount : Date -> R }.

(** A vanilla swap: the three methods the notebooks read. *)
Record VanillaSwap : Type := {
  fixedSchedule : list Date;
  fixedDayCount : DayCounter;
  fairRate : R
}.

End QL.

Import QL.

(** ** The standard normal density and distribution function

    [norm.pdf] is explicit.  [norm.cdf] is built from the Riemann
    integral of the density: [gauss_int x] integrates from [0] to [x],
    [left_mass] is the least upper bound of the integrals over
    [[y, 0]], and [norm_cdf x] is their sum.  The lemmas of this
    module are what the construction needs and what the pricing
    formulas use of it: the derivative of [norm_cdf] is [norm_pdf], it
    is not negative, and it is dominated by a multiple of [exp]. *)

Module Normal.

(** Derivation rules in the form the proofs below apply them. *)
Section Derivatives.

Lemma D_eq (f : R -> R) (x l l' : R) :
  derivable_pt_lim f x l' -> l' = l -> derivable_pt_lim f x l.
Proof. intros H <-. exact H. Qed.

Lemma D_const (c x : R) : derivable_pt_lim (fun _ => c) x 0.
Proof. apply derivable_pt_lim_const. Qed.

Lemma D_id (x : R) : derivable_pt_lim (fun y => y) x 1.
Proof. apply derivable_pt_lim_id. Qed.

Lemma D_plus (f g : R -> R) (x lf lg : R) :
  derivable_pt_lim f x lf -> derivable_pt_lim g x lg ->
  derivable_pt_lim (fun y => f y + g y) x (lf + lg).
Proof. apply derivable_pt_lim_plus. Qed.

Lemma D_minus (f g : R -> R) (x lf lg : R) :
  derivable_pt_lim f x lf -> derivable_pt_lim g x lg ->
  derivable_pt_lim (fun y => f y - g y) x (lf - lg).
Proof. apply derivable_pt_lim_minus. Qed.

Lemma D_opp (f : R -> R) (x lf : R) :
  derivable_pt_lim f x lf -> derivable_pt_lim (fun y => - f y) x (- lf).
Proof. apply derivable_pt_lim_opp. Qed.

Lemma D_mult (f g : R -> R) (x lf lg : R) :
  derivable_pt_lim f x lf -> derivable_pt_lim g x lg ->
  derivable_pt_lim (fun y => f y * g y) x (lf * g x + f x * lg).
Proof. apply derivable_pt_lim_mult. Qed.

Lemma D_div (f g : R -> R) (x lf lg : R) :
  derivable_pt_lim f x lf -> derivable_pt_lim g x lg -> g x <> 0 ->
  derivable_pt_lim (fun y => f y / g y) x ((lf * g x - lg * f x) / (g x)²).
Proof. apply derivable_pt_lim_div. Qed.

Lemma D_comp (f g : R -> R) (x lf lg : R) :
  derivable_pt_lim f x lf -> derivable_pt_lim g (f x) lg ->
  derivable_pt_lim (fun y => g (f y)) x (lg * lf).
Proof. apply derivable_pt_lim_comp. Qed.

End Derivatives.

(** [scipy.stats.norm.pdf]: [exp(-x**2/2) / sqrt(2*pi)]. *)
Definition norm_pdf (x : R) : R := exp (- x ^ 2 / 2) / sqrt (2 * PI).

Lemma sqrt_2PI_pos : 0 < sqrt (2 * PI).
Proof. apply sqrt_lt_R0. pose proof PI_RGT_0. lra. Qed.

Lemma norm_pdf_pos (x : R) : 0 < norm_pdf x.
Proof. unfold norm_pdf. apply Rdiv_lt_0_compat; [apply exp_pos | apply sqrt_2PI_pos]. Qed.

Lemma norm_pdf_even (x : R) : norm_pdf (- x) = norm_pdf x.
Proof. unfold norm_pdf. f_equal. f_equal. field. Qed.

Lemma D_norm_pdf (x : R) : derivable_pt_lim norm_pdf x (- x * norm_pdf x).
Proof.
  unfold norm_pdf.
  eapply D_eq.
  - apply (D_div (fun y => exp (- y ^ 2 / 2)) (fun _ => sqrt (2 * PI))).
    + apply (D_comp (fun y => - y ^ 2 / 2) exp).
      * apply (D_div (fun y => - y ^ 2) (fun _ => 2)).
        -- apply D_opp. apply (derivable_pt_lim_pow x 2).
        -- apply D_const.
        -- lra.
      * apply derivable_pt_lim_exp.
    + apply D_const.
    + pose proof sqrt_2PI_pos. lra.
  - pose proof sqrt_2PI_pos. simpl. unfold Rsqr. field. lra.
Qed.

Lemma norm_pdf_continuity_pt (x : R) : continuity_pt norm_pdf x.
Proof.
  apply derivable_continuous_pt. exists (- x * norm_pdf x). apply D_norm_pdf.
Qed.

Lemma norm_pdf_integrable (a b : R) : Riemann_integrable norm_pdf a b.
Proof.
  destruct (Rle_dec a b) as [Hab | Hba].
  - apply continuity_implies_RiemannInt; [exact Hab |].
    intros x _. apply norm_pdf_continuity_pt.
  - apply RiemannInt_P1. apply continuity_implies_RiemannInt; [lra |].
    intros x _. apply norm_pdf_continuity_pt.
Qed.

(** [gauss_int x] is the integral of the density from [0] to [x]. *)
Definition gauss_int (x : R) : R := RiemannInt (norm_pdf_integrable 0 x).

Lemma gauss_int_chasles (a y : R) :
  gauss_int y = gauss_int a + RiemannInt (norm_pdf_integrable a y).
Proof.
  unfold gauss_int. symmetry. apply RiemannInt_P26.
Qed.

Lemma D_local (f g : R -> R) (x l d : R) :
  0 < d -> (forall y, Rabs (y - x) < d -> f y = g y) ->
  derivable_pt_lim g x l -> derivable_pt_lim f x l.
Proof.
  intros Hd Hloc Hg eps Heps.
  destruct (Hg eps Heps) as [delta Hdelta].
  assert (Hm : 0 < Rmin d delta) by (apply Rmin_pos; [exact Hd | apply cond_pos]).
  exists (mkposreal _ Hm). intros h Hh Hsmall. simpl in Hsmall.
  rewrite (Hloc (x + h)), (Hloc x).
  - apply Hdelta; [exact Hh |].
    eapply Rlt_le_trans; [exact Hsmall | apply Rmin_r].
  - replace (x - x) with 0 by ring. rewrite Rabs_R0. exact Hd.
  - replace (x + h - x) with h by ring.
    eapply Rlt_le_trans; [exact Hsmall | apply Rmin_l].
Qed.

Lemma D_gauss_int (x : R) : derivable_pt_lim gauss_int x (norm_pdf x).
Proof.
  assert (h : x - 1 <= x + 1) by lra.
  assert (C0 : forall y, x - 1 <= y <= x + 1 -> continuity_pt norm_pdf y)
    by (intros y _; apply norm_pdf_continuity_pt).
  apply (D_local _ (fun y => gauss_int (x - 1) + primitive h (FTC_P1 h C0) y) x _ 1).
  - lra.
  - intros y Hy. rewrite (gauss_int_chasles (x - 1) y). f_equal.
    assert (Hy' : x - 1 <= y <= x + 1).
    { apply Rabs_def2 in Hy. lra. }
    unfold primitive.
    destruct (Rle_dec (x - 1) y) as [r | n]; [| lra].
    destruct (Rle_dec y (x + 1)) as [r0 | n]; [| lra].
    apply RiemannInt_P5.
  - eapply D_eq.
    + apply (D_plus (fun _ => gauss_int (x - 1)) (primitive h (FTC_P1 h C0))).
      * apply D_const.
      * apply RiemannInt_P28. lra.
    + ring.
Qed.

(** Monotonicity from the sign of the derivative. *)
Lemma incr_of_D (f f' : R -> R) :
  (forall x, derivable_pt_lim f x (f' x)) -> (forall x, 0 <= f' x) ->
  forall a b, a <= b -> f a <= f b.
Proof.
  intros HD Hpos a b Hab.
  destruct (Rle_lt_or_eq_dec a b Hab) as [Hlt | ->]; [| lra].
  destruct (MVT_cor2 f f' a b Hlt (fun c _ => HD c)) as [c [Hc _]].
  specialize (Hpos c). nra.
Qed.

Lemma strict_incr_of_D_above (f f' : R -> R) (lo : R) :
  (forall x, lo < x -> derivable_pt_lim f x (f' x)) ->
  (forall x, lo < x -> 0 < f' x) ->
  forall a b, lo < a -> a < b -> f a < f b.
Proof.
  intros HD Hpos a b Ha Hab.
  destruct (MVT_cor2 f f' a b Hab) as [c [Hc Hin]].
  - intros c Hc. apply HD. lra.
  - assert (0 < f' c) by (apply Hpos; lra). nra.
Qed.

(** The density is dominated by a multiple of the exponential. *)
Definition tail_const : R := exp (1 / 2) / sqrt (2 * PI).

Lemma tail_const_pos : 0 < tail_const.
Proof. apply Rdiv_lt_0_compat; [apply exp_pos | apply sqrt_2PI_pos]. Qed.

Lemma exp_le (x y : R) : x <= y -> exp x <= exp y.
Proof.
  intros [H | ->]; [left; now apply exp_increasing | right; reflexivity].
Qed.

Lemma norm_pdf_le_exp (t : R) : norm_pdf t <= tail_const * exp t.
Proof.
  unfold norm_pdf, tail_const.
  replace (exp (1 / 2) / sqrt (2 * PI) * exp t) with (exp (1 / 2 + t) / sqrt (2 * PI))
    by (rewrite exp_plus; field; pose proof sqrt_2PI_pos; lra).
  apply Rmult_le_compat_r.
  - left. apply Rinv_0_lt_compat, sqrt_2PI_pos.
  - apply exp_le. pose proof (pow2_ge_0 (t + 1)) as Hsq. nra.
Qed.

Lemma gauss_int_incr (a b : R) : a <= b -> gauss_int a <= gauss_int b.
Proof.
  apply (incr_of_D gauss_int norm_pdf D_gauss_int).
  intros x. left. apply norm_pdf_pos.
Qed.

Lemma gauss_int_tail (y x : R) :
  y <= x -> gauss_int x - gauss_int y <= tail_const * exp x - tail_const * exp y.
Proof.
  intros Hyx.
  assert (HD : forall t, derivable_pt_lim (fun t => tail_const * exp t - gauss_int t) t
                           (tail_const * exp t - norm_pdf t)).
  { intros t. eapply D_eq.
    - apply (D_minus (fun t => tail_const * exp t) gauss_int); [| apply D_gauss_int].
      apply (D_mult (fun _ => tail_const) exp); [apply D_const | apply derivable_pt_lim_exp].
    - ring. }
  assert (Hpos : forall t, 0 <= tail_const * exp t - norm_pdf t).
  { intros t. pose proof (norm_pdf_le_exp t). lra. }
  pose proof (incr_of_D _ _ HD Hpos y x Hyx) as H. cbv beta in H. lra.
Qed.

Lemma gauss_int_0 : gauss_int 0 = 0.
Proof. unfold gauss_int. apply RiemannInt_P9. Qed.

(** The values [- gauss_int y]; their least upper bound is the mass of
    the density on the negative half line. *)
Definition left_mass_set (r : R) : Prop := exists y, r = - gauss_int y.

Lemma gauss_int_diff_le (y x : R) : gauss_int x - gauss_int y <= tail_const * exp x.
Proof.
  destruct (Rle_dec y x) as [Hyx | Hxy].
  - pose proof (gauss_int_tail y x Hyx). pose proof (exp_pos y).
    pose proof tail_const_pos. nra.
  - assert (gauss_int x <= gauss_int y) by (apply gauss_int_incr; lra).
    pose proof (exp_pos x). pose proof tail_const_pos. nra.
Qed.

Lemma left_mass_bound : bound left_mass_set.
Proof.
  exists tail_const. intros r [y ->].
  pose proof (gauss_int_diff_le y 0) as H. rewrite gauss_int_0, exp_0 in H. lra.
Qed.

Lemma left_mass_inhabited : exists r, left_mass_set r.
Proof. exists (- gauss_int 0), 0. reflexivity. Qed.

Definition left_mass : R :=
  proj1_sig (completeness left_mass_set left_mass_bound left_mass_inhabited).

Lemma left_mass_lub : is_lub left_mass_set left_mass.
Proof.
  unfold left_mass.
  apply (proj2_sig (completeness left_mass_set left_mass_bound left_mass_inhabited)).
Qed.

(** [scipy.stats.norm.cdf]: the integral of the density over
    [(-oo, x]], that is the integral from [0] to [x] plus the mass of
    the negative half line. *)
Definition norm_cdf (x : R) : R := gauss_int x + left_mass.

Lemma D_norm_cdf (x : R) : derivable_pt_lim norm_cdf x (norm_pdf x).
Proof.
  unfold norm_cdf. eapply D_eq.
  - apply (D_plus gauss_int (fun _ => left_mass)); [apply D_gauss_int | apply D_const].
  - ring.
Qed.

Lemma norm_cdf_nonneg (x : R) : 0 <= norm_cdf x.
Proof.
  unfold norm_cdf. destruct left_mass_lub as [Hub _].
  assert (- gauss_int x <= left_mass) by (apply Hub; now exists x). lra.
Qed.

Lemma norm_cdf_le_exp (x : R) : norm_cdf x <= tail_const * exp x.
Proof.
  unfold norm_cdf. destruct left_mass_lub as [_ Hleast].
  assert (left_mass <= tail_const * exp x - gauss_int x); [| lra].
  apply Hleast. intros r [y ->].
  pose proof (gauss_int_diff_le y x). lra.
Qed.

(** The two facts that characterise [norm_cdf] as the integral of the
    density over [(-oo, x]]: its increment over an interval is the
    integral of the density there, and it vanishes at [-oo]. *)
Lemma norm_cdf_interval (y x : R) :
  norm_cdf x - norm_cdf y = RiemannInt (norm_pdf_integrable y x).
Proof. unfold norm_cdf. rewrite (gauss_int_chasles y x). ring. Qed.

Lemma norm_cdf_vanishes_left (eps : R) :
  0 < eps -> exists m, forall x, x < m -> norm_cdf x < eps.
Proof.
  intros Heps. pose proof tail_const_pos as Hc.
  exists (ln (eps / tail_const)). intros x Hx.
  eapply Rle_lt_trans; [apply norm_cdf_le_exp |].
  assert (Hq : 0 < eps / tail_const) by (apply Rdiv_lt_0_compat; assumption).
  assert (He : exp x < eps / tail_const).
  { rewrite <- (exp_ln _ Hq). apply exp_increasing. exact Hx. }
  apply Rmult_lt_reg_r with (/ tail_const); [apply Rinv_0_lt_compat; exact Hc |].
  replace (tail_const * exp x * / tail_const) with (exp x) by (field; lra).
  exact He.
Qed.

Lemma norm_cdf_incr (a b : R) : a <= b -> norm_cdf a <= norm_cdf b.
Proof.
  apply (incr_of_D norm_cdf norm_pdf D_norm_cdf).
  intros x. left. apply norm_pdf_pos.
Qed.

Lemma norm_cdf_strict_incr (a b : R) : a < b -> norm_cdf a < norm_cdf b.
Proof.
  intros Hab.
  destruct (MVT_cor2 norm_cdf norm_pdf a b Hab (fun c _ => D_norm_cdf c)) as [c [Hc _]].
  pose proof (norm_pdf_pos c). nra.
Qed.

End Normal.

Import Normal.

(** ** The total mass of the normal density

    The integral of the density over the whole line is one.  With
    [F t] the integral of [exp(-x^2)] over [[0, t]] and [J t] the
    integral of [exp(-t^2 (1+x^2)) / (1+x^2)] over [[0, 1]], the sum
    [F t ^ 2 + J t] has derivative zero and equals [J 0 = PI / 4],
    while [0 <= J t <= exp(-t^2)].  Hence [left_mass = 1/2], and
    [norm_cdf] is symmetric and bounded by one. *)

Module GaussMass.

(** Two functions with the same derivative everywhere and the same
    value at [0] are equal. *)
Lemma eq_of_D (f g f' : R -> R) :
  (forall x, derivable_pt_lim f x (f' x)) -> (forall x, derivable_pt_lim g x (f' x)) ->
  f 0 = g 0 -> forall x, f x = g x.
Proof.
  intros Hf Hg H0 x.
  assert (Hd : forall y, derivable_pt_lim (fun z => f z - g z) y ((fun _ => 0) y)).
  { intros y. eapply D_eq; [apply (D_minus f g); [apply Hf | apply Hg] | cbv beta; ring]. }
  assert (Hd' : forall y, derivable_pt_lim (fun z => g z - f z) y ((fun _ => 0) y)).
  { intros y. eapply D_eq; [apply (D_minus g f); [apply Hg | apply Hf] | cbv beta; ring]. }
  assert (Hnn : forall y : R, 0 <= (fun _ : R => 0) y) by (intros y; cbv beta; lra).
  destruct (Rle_dec 0 x) as [Hx | Hx].
  - pose proof (incr_of_D _ _ Hd Hnn 0 x Hx) as H1.
    pose proof (incr_of_D _ _ Hd' Hnn 0 x Hx) as H2. cbv beta in H1, H2. lra.
  - assert (Hx' : x <= 0) by lra.
    pose proof (incr_of_D _ _ Hd Hnn x 0 Hx') as H1.
    pose proof (incr_of_D _ _ Hd' Hnn x 0 Hx') as H2. cbv beta in H1, H2. lra.
Qed.

(** The primitive of a continuous function that vanishes at [0]. *)
Lemma cont_integrable (f : R -> R) (Hf : continuity f) (a b : R) : Riemann_integrable f a b.
Proof.
  destruct (Rle_dec a b) as [Hab | Hba].
  - apply continuity_implies_RiemannInt; [exact Hab | intros x _; apply Hf].
  - apply RiemannInt_P1. apply continuity_implies_RiemannInt; [lra | intros x _; apply Hf].
Qed.

Definition prim (f : R -> R) (Hf : continuity f) (x : R) : R :=
  RiemannInt (cont_integrable f Hf 0 x).

Lemma prim_0 (f : R -> R) (Hf : continuity f) : prim f Hf 0 = 0.
Proof. unfold prim. apply RiemannInt_P9. Qed.

Lemma D_prim (f : R -> R) (Hf : continuity f) (x : R) :
  derivable_pt_lim (prim f Hf) x (f x).
Proof.
  assert (h : x - 1 <= x + 1) by lra.
  assert (C0 : forall y, x - 1 <= y <= x + 1 -> continuity_pt f y) by (intros y _; apply Hf).
  apply (D_local _ (fun y => prim f Hf (x - 1) + primitive h (FTC_P1 h C0) y) x _ 1).
  - lra.
  - intros y Hy.
    assert (Hy' : x - 1 <= y <= x + 1) by (apply Rabs_def2 in Hy; lra).
    unfold prim.
    rewrite <- (RiemannInt_P26 (cont_integrable f Hf 0 (x - 1))
                  (cont_integrable f Hf (x - 1) y) (cont_integrable f Hf 0 y)).
    f_equal. unfold primitive.
    destruct (Rle_dec (x - 1) y) as [r | n]; [| lra].
    destruct (Rle_dec y (x + 1)) as [r0 | n]; [| lra].
    apply RiemannInt_P5.
  - eapply D_eq.
    + apply (D_plus (fun _ => prim f Hf (x - 1)) (primitive h (FTC_P1 h C0))).
      * apply D_const.
      * apply RiemannInt_P28. lra.
    + ring.
Qed.

Lemma prim_ext (f g : R -> R) (Hf : continuity f) (Hg : continuity g) :
  (forall x, f x = g x) -> forall y, prim f Hf y = prim g Hg y.
Proof.
  intros E. apply (eq_of_D _ _ f).
  - apply D_prim.
  - intros x. rewrite E. apply D_prim.
  - now rewrite !prim_0.
Qed.

Lemma prim_scal (c : R) (f g : R -> R) (Hf : continuity f) (Hg : continuity g) :
  (forall x, g x = c * f x) -> forall y, prim g Hg y = c * prim f Hf y.
Proof.
  intros E. apply (eq_of_D _ _ g).
  - apply D_prim.
  - intros x. eapply D_eq.
    + apply (D_mult (fun _ => c) (prim f Hf)); [apply D_const | apply D_prim].
    + cbv beta. rewrite E. ring.
  - rewrite !prim_0. ring.
Qed.

(** The mean value over [[0, 1]]. *)
Lemma prim_mean (f : R -> R) (Hf : continuity f) :
  exists c, 0 < c < 1 /\ prim f Hf 1 = f c.
Proof.
  destruct (MVT_cor2 (prim f Hf) f 0 1 Rlt_0_1 (fun c _ => D_prim f Hf c)) as [c [Hc Hin]].
  exists c. split; [exact Hin |]. rewrite prim_0 in Hc. lra.
Qed.

(** Differentiation under the integral sign over [[0, 1]], for an
    integrand whose derivative in the parameter is Lipschitz near
    [t0], uniformly on [[0, 1]]. *)
Lemma D_under_prim (g g1 : R -> R -> R)
    (Hg : forall t, continuity (g t)) (Hg1 : forall t, continuity (g1 t)) (t0 M : R) :
  (forall t x, derivable_pt_lim (fun s => g s x) t (g1 t x)) ->
  0 < M ->
  (forall s x, Rabs (s - t0) < 1 -> 0 <= x <= 1 ->
               Rabs (g1 s x - g1 t0 x) <= M * Rabs (s - t0)) ->
  derivable_pt_lim (fun t => prim (g t) (Hg t) 1) t0 (prim (g1 t0) (Hg1 t0) 1).
Proof.
  intros HD HM Hlip eps Heps.
  assert (Hd : 0 < Rmin 1 (eps / (2 * M))).
  { apply Rmin_pos; [lra | apply Rdiv_lt_0_compat; lra]. }
  exists (mkposreal _ Hd). intros h Hh Hsmall. simpl in Hsmall.
  assert (Hh1 : Rabs h < 1) by (eapply Rlt_le_trans; [exact Hsmall | apply Rmin_l]).
  assert (Hh2 : Rabs h < eps / (2 * M)) by (eapply Rlt_le_trans; [exact Hsmall | apply Rmin_r]).
  set (Q := fun y => (prim (g (t0 + h)) (Hg (t0 + h)) y - prim (g t0) (Hg t0) y) / h
                     - prim (g1 t0) (Hg1 t0) y).
  set (phi := fun y => (g (t0 + h) y - g t0 y) / h - g1 t0 y).
  assert (DQ : forall y, derivable_pt_lim Q y (phi y)).
  { intros y. unfold Q, phi. eapply D_eq.
    - apply (D_minus (fun y => (prim (g (t0 + h)) (Hg (t0 + h)) y - prim (g t0) (Hg t0) y) / h)
                     (prim (g1 t0) (Hg1 t0))); [| apply D_prim].
      apply (D_div (fun y => prim (g (t0 + h)) (Hg (t0 + h)) y - prim (g t0) (Hg t0) y)
                   (fun _ => h)); [| apply D_const | exact Hh].
      apply (D_minus (prim (g (t0 + h)) (Hg (t0 + h))) (prim (g t0) (Hg t0))); apply D_prim.
    - unfold Rsqr. field. exact Hh. }
  destruct (MVT_cor2 Q phi 0 1 Rlt_0_1 (fun c _ => DQ c)) as [c [Hc Hin]].
  assert (HQ0 : Q 0 = 0) by (unfold Q; rewrite !prim_0; field; exact Hh).
  assert (Hphi : Rabs (phi c) <= M * Rabs h).
  { assert (Hxi : exists xi, Rabs (xi - t0) <= Rabs h /\ g (t0 + h) c - g t0 c = g1 xi c * h).
    { destruct (Rdichotomy _ _ Hh) as [Hneg | Hpos].
      - destruct (MVT_cor2 (fun s => g s c) (fun s => g1 s c) (t0 + h) t0) as [xi [Hxi Hr]];
          [lra | intros s _; apply HD |].
        exists xi. split; [| lra].
        rewrite (Rabs_left h Hneg), Rabs_left by lra. lra.
      - destruct (MVT_cor2 (fun s => g s c) (fun s => g1 s c) t0 (t0 + h)) as [xi [Hxi Hr]];
          [lra | intros s _; apply HD |].
        exists xi. split; [| lra].
        rewrite (Rabs_right h), Rabs_right by lra. lra. }
    destruct Hxi as [xi [Hxi1 Hxi2]].
    unfold phi. rewrite Hxi2.
    replace (g1 xi c * h / h - g1 t0 c) with (g1 xi c - g1 t0 c) by (field; exact Hh).
    eapply Rle_trans; [apply Hlip; [lra | lra] |].
    apply Rmult_le_compat_l; lra. }
  replace ((prim (g (t0 + h)) (Hg (t0 + h)) 1 - prim (g t0) (Hg t0) 1) / h
           - prim (g1 t0) (Hg1 t0) 1) with (Q 1) by reflexivity.
  replace (Q 1) with (phi c) by lra.
  eapply Rle_lt_trans; [exact Hphi |].
  assert (M * Rabs h < M * (eps / (2 * M))) by (apply Rmult_lt_compat_l; lra).
  replace (M * (eps / (2 * M))) with (eps / 2) in H by (field; lra). lra.
Qed.


(** [exp(-x^2)] and its integral from [0]. *)
Definition E (x : R) : R := exp (- x ^ 2).

Lemma D_E (x : R) : derivable_pt_lim E x (-2 * x * E x).
Proof.
  unfold E. eapply D_eq.
  - apply (D_comp (fun y => - y ^ 2) exp); [| apply derivable_pt_lim_exp].
    apply D_opp. apply (derivable_pt_lim_pow x 2).
  - simpl. ring.
Qed.

Lemma E_cont : continuity E.
Proof. intros x. apply derivable_continuous_pt. exists (-2 * x * E x). apply D_E. Qed.

Lemma E_pos (x : R) : 0 < E x.
Proof. apply exp_pos. Qed.

Lemma E_le_1 (x : R) : E x <= 1.
Proof. unfold E. rewrite <- exp_0. apply exp_le. pose proof (pow2_ge_0 x). lra. Qed.

Definition F : R -> R := prim E E_cont.

(** The change of variable [x -> t x]. *)
Definition Esc (t x : R) : R := t * E (t * x).

Lemma D_Esc_arg (t x : R) : derivable_pt_lim (fun y => t * y) x t.
Proof.
  eapply D_eq.
  - apply (D_mult (fun _ => t) (fun y => y)); [apply D_const | apply D_id].
  - cbv beta. ring.
Qed.

Lemma Esc_cont (t : R) : continuity (Esc t).
Proof.
  intros x. apply derivable_continuous_pt.
  exists (t * (-2 * (t * x) * E (t * x) * t)). unfold Esc. eapply D_eq.
  - apply (D_mult (fun _ => t) (fun y => E (t * y))); [apply D_const |].
    apply (D_comp (fun y => t * y) E); [apply D_Esc_arg | apply D_E].
  - cbv beta. ring.
Qed.

Lemma prim_Esc (t : R) : prim (Esc t) (Esc_cont t) 1 = F t.
Proof.
  rewrite (eq_of_D (prim (Esc t) (Esc_cont t)) (fun y => F (t * y)) (Esc t)).
  - now rewrite Rmult_1_r.
  - apply D_prim.
  - intros x. unfold Esc. eapply D_eq.
    + apply (D_comp (fun y => t * y) F); [apply D_Esc_arg | apply D_prim].
    + ring.
  - rewrite prim_0, Rmult_0_r. unfold F. now rewrite prim_0.
Qed.

(** The parametric integrand [exp(-t^2 (1+x^2)) / (1+x^2)] and its
    first two derivatives in [t]. *)
Definition g (t x : R) : R := exp (- t ^ 2 * (1 + x ^ 2)) / (1 + x ^ 2).

Definition g1 (t x : R) : R := -2 * t * exp (- t ^ 2 * (1 + x ^ 2)).

Definition g2 (t x : R) : R := (4 * t ^ 2 * (1 + x ^ 2) - 2) * exp (- t ^ 2 * (1 + x ^ 2)).

Lemma D_expo_t (t x : R) :
  derivable_pt_lim (fun s => exp (- s ^ 2 * (1 + x ^ 2))) t
    (-2 * t * (1 + x ^ 2) * exp (- t ^ 2 * (1 + x ^ 2))).
Proof.
  eapply D_eq.
  - apply (D_comp (fun s => - s ^ 2 * (1 + x ^ 2)) exp); [| apply derivable_pt_lim_exp].
    apply (D_mult (fun s => - s ^ 2) (fun _ => 1 + x ^ 2)); [| apply D_const].
    apply D_opp. apply (derivable_pt_lim_pow t 2).
  - simpl. ring.
Qed.

Lemma D_expo_x (t x : R) :
  derivable_pt_lim (fun y => exp (- t ^ 2 * (1 + y ^ 2))) x
    (-2 * t ^ 2 * x * exp (- t ^ 2 * (1 + x ^ 2))).
Proof.
  eapply D_eq.
  - apply (D_comp (fun y => - t ^ 2 * (1 + y ^ 2)) exp); [| apply derivable_pt_lim_exp].
    apply (D_mult (fun _ => - t ^ 2) (fun y => 1 + y ^ 2)); [apply D_const |].
    apply (D_plus (fun _ => 1) (fun y => y ^ 2)); [apply D_const |].
    apply (derivable_pt_lim_pow x 2).
  - simpl. ring.
Qed.

Lemma D_g_t (t x : R) : derivable_pt_lim (fun s => g s x) t (g1 t x).
Proof.
  unfold g, g1. pose proof (pow2_ge_0 x) as Hx. eapply D_eq.
  - apply (D_div (fun s => exp (- s ^ 2 * (1 + x ^ 2))) (fun _ => 1 + x ^ 2));
      [apply D_expo_t | apply D_const | lra].
  - unfold Rsqr. field. lra.
Qed.

Lemma D_g1_t (t x : R) : derivable_pt_lim (fun s => g1 s x) t (g2 t x).
Proof.
  unfold g1, g2. eapply D_eq.
  - apply (D_mult (fun s => -2 * s) (fun s => exp (- s ^ 2 * (1 + x ^ 2)))); [| apply D_expo_t].
    apply (D_mult (fun _ => -2) (fun s => s)); [apply D_const | apply D_id].
  - cbv beta. ring.
Qed.

Lemma g_cont (t : R) : continuity (g t).
Proof.
  intros x. apply derivable_continuous_pt. pose proof (pow2_ge_0 x) as Hx.
  eexists. unfold g.
  apply (D_div (fun y => exp (- t ^ 2 * (1 + y ^ 2))) (fun y => 1 + y ^ 2)); [apply D_expo_x | | lra].
  apply (D_plus (fun _ => 1) (fun y => y ^ 2)); [apply D_const | apply (derivable_pt_lim_pow x 2)].
Qed.

Lemma g1_cont (t : R) : continuity (g1 t).
Proof.
  intros x. apply derivable_continuous_pt. eexists. unfold g1.
  apply (D_mult (fun _ => -2 * t) (fun y => exp (- t ^ 2 * (1 + y ^ 2))));
    [apply D_const | apply D_expo_x].
Qed.

Definition J (t : R) : R := prim (g t) (g_cont t) 1.

Lemma g2_bound (t0 s x : R) :
  Rabs (s - t0) < 1 -> 0 <= x <= 1 -> Rabs (g2 s x) <= 8 * (Rabs t0 + 1) ^ 2 + 2.
Proof.
  intros Hs Hx. unfold g2.
  assert (He : 0 < exp (- s ^ 2 * (1 + x ^ 2)) <= 1).
  { split; [apply exp_pos |].
    apply Rle_trans with (exp 0); [apply exp_le | rewrite exp_0; lra].
    pose proof (pow2_ge_0 s). pose proof (pow2_ge_0 x).
    assert (0 <= s ^ 2 * (1 + x ^ 2)) by (apply Rmult_le_pos; lra).
    replace (- s ^ 2 * (1 + x ^ 2)) with (- (s ^ 2 * (1 + x ^ 2))) by ring. lra. }
  assert (Hs2 : s ^ 2 <= (Rabs t0 + 1) ^ 2).
  { assert (Rabs s <= Rabs t0 + 1).
    { replace s with ((s - t0) + t0) at 1 by ring.
      eapply Rle_trans; [apply Rabs_triang | lra]. }
    rewrite <- (pow2_abs s). pose proof (Rabs_pos s). pose proof (Rabs_pos t0). nra. }
  assert (Hx2 : 0 <= x ^ 2 <= 1) by (split; [apply pow2_ge_0 | nra]).
  rewrite Rabs_mult, (Rabs_pos_eq (exp _)) by lra.
  assert (Hb : Rabs (4 * s ^ 2 * (1 + x ^ 2) - 2) <= 8 * (Rabs t0 + 1) ^ 2 + 2).
  { pose proof (pow2_ge_0 s) as Hs0.
    assert (Hp : 0 <= s ^ 2 * x ^ 2 <= s ^ 2).
    { split; [apply Rmult_le_pos; lra |].
      rewrite <- (Rmult_1_r (s ^ 2)) at 2. apply Rmult_le_compat_l; lra. }
    apply Rabs_le. split; nra. }
  pose proof (Rabs_pos (4 * s ^ 2 * (1 + x ^ 2) - 2)). nra.
Qed.

Lemma g1_lipschitz (t0 s x : R) :
  Rabs (s - t0) < 1 -> 0 <= x <= 1 ->
  Rabs (g1 s x - g1 t0 x) <= (8 * (Rabs t0 + 1) ^ 2 + 2) * Rabs (s - t0).
Proof.
  intros Hs Hx.
  destruct (Rtotal_order s t0) as [Hlt | [-> | Hgt]].
  - destruct (MVT_cor2 (fun s => g1 s x) (fun s => g2 s x) s t0 Hlt) as [xi [Hxi Hr]];
      [intros c _; apply D_g1_t |].
    rewrite Rabs_minus_sym, Hxi, Rabs_mult, (Rabs_minus_sym s t0).
    apply Rmult_le_compat_r; [apply Rabs_pos |].
    apply g2_bound; [| exact Hx]. apply Rabs_def2 in Hs. apply Rabs_def1; lra.
  - replace (g1 t0 x - g1 t0 x) with 0 by ring. rewrite Rabs_R0.
    apply Rmult_le_pos; [pose proof (pow2_ge_0 (Rabs t0 + 1)); lra | apply Rabs_pos].
  - destruct (MVT_cor2 (fun s => g1 s x) (fun s => g2 s x) t0 s Hgt) as [xi [Hxi Hr]];
      [intros c _; apply D_g1_t |].
    rewrite Hxi, Rabs_mult.
    apply Rmult_le_compat_r; [apply Rabs_pos |].
    apply g2_bound; [| exact Hx]. apply Rabs_def2 in Hs. apply Rabs_def1; lra.
Qed.

Lemma D_J (t : R) : derivable_pt_lim J t (-2 * E t * F t).
Proof.
  eapply D_eq.
  - apply (D_under_prim g g1 g_cont g1_cont t (8 * (Rabs t + 1) ^ 2 + 2)).
    + intros s x. apply D_g_t.
    + pose proof (pow2_ge_0 (Rabs t + 1)). lra.
    + intros s x. apply g1_lipschitz.
  - rewrite (prim_scal (-2 * E t) (Esc t) (g1 t) (Esc_cont t) (g1_cont t)).
    + rewrite prim_Esc. reflexivity.
    + intros x. unfold g1, Esc, E.
      replace (- t ^ 2 * (1 + x ^ 2)) with (- t ^ 2 + - (t * x) ^ 2) by ring.
      rewrite exp_plus. ring.
Qed.

Lemma J_0 : J 0 = PI / 4.
Proof.
  unfold J.
  rewrite (eq_of_D (prim (g 0) (g_cont 0)) atan (g 0)).
  - apply atan_1.
  - apply D_prim.
  - intros x. eapply D_eq; [apply derivable_pt_lim_atan |].
    unfold g. replace (- 0 ^ 2 * (1 + x ^ 2)) with 0 by ring. rewrite exp_0.
    unfold Rsqr. pose proof (pow2_ge_0 x). field. nra.
  - rewrite prim_0, atan_0. reflexivity.
Qed.

Lemma F_sq_plus_J (t : R) : F t ^ 2 + J t = PI / 4.
Proof.
  rewrite <- J_0.
  rewrite (eq_of_D (fun t => F t ^ 2 + J t) (fun _ => J 0) (fun _ => 0)).
  - reflexivity.
  - intros x. eapply D_eq.
    + apply (D_plus (fun t => F t ^ 2) J); [| apply D_J].
      apply (D_comp F (fun y => y ^ 2)); [apply D_prim | apply (derivable_pt_lim_pow (F x) 2)].
    + simpl. ring.
  - intros x. apply D_const.
  - unfold F. rewrite prim_0. ring.
Qed.

Lemma J_bounds (t : R) : 0 <= J t <= E t.
Proof.
  unfold J. destruct (prim_mean (g t) (g_cont t)) as [c [Hc ->]].
  unfold g, E. pose proof (pow2_ge_0 c) as Hc2. pose proof (pow2_ge_0 t) as Ht2.
  assert (He : 0 < exp (- t ^ 2 * (1 + c ^ 2))) by apply exp_pos.
  assert (Hle : exp (- t ^ 2 * (1 + c ^ 2)) <= exp (- t ^ 2)) by (apply exp_le; nra).
  assert (Hi : 0 < / (1 + c ^ 2) <= 1).
  { split; [apply Rinv_0_lt_compat; lra |].
    apply Rle_trans with (/ 1); [apply Rinv_le_contravar; lra | rewrite Rinv_1; lra]. }
  unfold Rdiv. split; [nra |]. nra.
Qed.


(** The integral of the density is a rescaling of [F]. *)
Lemma sqrt_2_PI : sqrt 2 * sqrt PI = sqrt (2 * PI).
Proof. symmetry. apply sqrt_mult; [lra | left; apply PI_RGT_0]. Qed.

Lemma sqrt_PI_pos : 0 < sqrt PI.
Proof. apply sqrt_lt_R0, PI_RGT_0. Qed.

Lemma sqrt_2_pos : 0 < sqrt 2.
Proof. apply sqrt_lt_R0. lra. Qed.

Lemma E_scaled (x : R) : E (x / sqrt 2) = exp (- x ^ 2 / 2).
Proof.
  unfold E. f_equal. pose proof sqrt_2_pos as H2.
  assert (Hs : sqrt 2 * sqrt 2 = 2) by (apply sqrt_sqrt; lra).
  replace (- x ^ 2 / 2) with (- x ^ 2 / (sqrt 2 * sqrt 2)) by (rewrite Hs; reflexivity).
  field. lra.
Qed.

Lemma gauss_int_F (x : R) : gauss_int x = F (x / sqrt 2) / sqrt PI.
Proof.
  pose proof sqrt_2_pos as H2. pose proof sqrt_PI_pos as HP.
  apply (eq_of_D gauss_int (fun x => F (x / sqrt 2) / sqrt PI) norm_pdf).
  - apply D_gauss_int.
  - intros y. eapply D_eq.
    + apply (D_div (fun y => F (y / sqrt 2)) (fun _ => sqrt PI)); [| apply D_const | lra].
      apply (D_comp (fun y => y / sqrt 2) F); [| apply D_prim].
      apply (D_div (fun y => y) (fun _ => sqrt 2)); [apply D_id | apply D_const | lra].
    + cbv beta. rewrite E_scaled. unfold norm_pdf. rewrite <- sqrt_2_PI.
      unfold Rsqr. field. lra.
  - rewrite gauss_int_0. unfold F. replace (0 / sqrt 2) with 0 by (field; lra).
    rewrite prim_0. field. lra.
Qed.

Lemma gauss_int_odd (x : R) : gauss_int (- x) = - gauss_int x.
Proof.
  apply (eq_of_D (fun x => gauss_int (- x)) (fun x => - gauss_int x) (fun x => - norm_pdf x)).
  - intros y. eapply D_eq.
    + apply (D_comp (fun y => - y) gauss_int); [apply D_opp, D_id | apply D_gauss_int].
    + rewrite norm_pdf_even. ring.
  - intros y. apply D_opp, D_gauss_int.
  - rewrite Ropp_0, gauss_int_0. ring.
Qed.

Lemma gauss_int_sq (x : R) :
  / 4 - exp (- x ^ 2 / 2) / PI <= gauss_int x ^ 2 <= / 4.
Proof.
  pose proof sqrt_PI_pos as HP. pose proof PI_RGT_0 as Hpi.
  assert (Hs : sqrt PI * sqrt PI = PI) by (apply sqrt_sqrt; lra).
  rewrite gauss_int_F, <- E_scaled.
  pose proof (F_sq_plus_J (x / sqrt 2)) as HFJ.
  pose proof (J_bounds (x / sqrt 2)) as HJ.
  set (f := F (x / sqrt 2)) in *. set (j := J (x / sqrt 2)) in *.
  set (e := E (x / sqrt 2)) in *.
  replace ((f / sqrt PI) ^ 2) with (f ^ 2 / PI) by (rewrite <- Hs at 1; field; lra).
  replace (f ^ 2) with (PI / 4 - j) by lra.
  replace ((PI / 4 - j) / PI) with (/ 4 - j / PI) by (field; lra).
  assert (Hi : 0 < / PI) by (apply Rinv_0_lt_compat; exact Hpi).
  unfold Rdiv. split; nra.
Qed.

Lemma gauss_int_le_half (x : R) : gauss_int x <= / 2.
Proof.
  destruct (Rle_dec 0 x) as [Hx | Hx].
  - assert (H0 : 0 <= gauss_int x) by (rewrite <- gauss_int_0; apply gauss_int_incr; exact Hx).
    pose proof (gauss_int_sq x) as [_ Hsq]. nra.
  - assert (H0 : gauss_int x <= 0) by (rewrite <- gauss_int_0; apply gauss_int_incr; lra).
    lra.
Qed.

Lemma exp_neg_small (d : R) : 0 < d -> exists x, 0 <= x /\ exp (- x ^ 2 / 2) < d.
Proof.
  intros Hd. exists (1 + 2 / d).
  assert (Hq : 0 < 2 / d) by (apply Rdiv_lt_0_compat; lra).
  split; [lra |].
  assert (Hqd : / (2 / d) = d / 2) by (field; lra).
  set (q := 2 / d) in *. clearbody q.
  assert (Hy : q < (1 + q) ^ 2 / 2) by nra.
  replace (- (1 + q) ^ 2 / 2) with (- ((1 + q) ^ 2 / 2)) by field.
  set (y := (1 + q) ^ 2 / 2) in *. clearbody y.
  rewrite exp_Ropp.
  assert (He : y < exp y).
  { assert (Hne : y <> 0) by lra. pose proof (exp_ineq1 _ Hne). lra. }
  apply Rlt_trans with (/ q); [| lra].
  apply Rinv_lt_contravar; [apply Rmult_lt_0_compat; lra | lra].
Qed.

(** The mass of the density on the negative half line is one half. *)
Lemma left_mass_half : left_mass = / 2.
Proof.
  destruct left_mass_lub as [Hub Hleast].
  assert (Hle : left_mass <= / 2).
  { apply Hleast. intros r [y ->]. rewrite <- gauss_int_odd. apply gauss_int_le_half. }
  destruct (Rle_lt_or_eq_dec _ _ Hle) as [Hlt | Heq]; [exfalso | exact Heq].
  assert (Hm0 : 0 <= left_mass).
  { apply Hub. exists 0. rewrite gauss_int_0. ring. }
  pose proof PI_RGT_0 as Hpi.
  assert (Hd : 0 < PI * (/ 4 - left_mass ^ 2)) by (apply Rmult_lt_0_compat; nra).
  destruct (exp_neg_small _ Hd) as [x [Hx He]].
  assert (Hg : gauss_int x <= left_mass).
  { replace (gauss_int x) with (- gauss_int (- x)) by (rewrite gauss_int_odd; ring).
    apply Hub. now exists (- x). }
  assert (H0 : 0 <= gauss_int x) by (rewrite <- gauss_int_0; apply gauss_int_incr; exact Hx).
  pose proof (gauss_int_sq x) as [Hsq _].
  assert (Hq : exp (- x ^ 2 / 2) / PI < / 4 - left_mass ^ 2).
  { apply Rmult_lt_reg_r with PI; [exact Hpi |].
    replace (exp (- x ^ 2 / 2) / PI * PI) with (exp (- x ^ 2 / 2)) by (field; lra). lra. }
  nra.
Qed.

Lemma norm_cdf_eq (x : R) : norm_cdf x = gauss_int x + / 2.
Proof. unfold norm_cdf. now rewrite left_mass_half. Qed.

(** The distribution function is symmetric, and bounded by one. *)
Lemma norm_cdf_sym (x : R) : norm_cdf (- x) = 1 - norm_cdf x.
Proof. rewrite !norm_cdf_eq, gauss_int_odd. lra. Qed.

Lemma norm_cdf_0 : norm_cdf 0 = / 2.
Proof. rewrite norm_cdf_eq, gauss_int_0. lra. Qed.

Lemma norm_cdf_le_1 (x : R) : norm_cdf x <= 1.
Proof. rewrite norm_cdf_eq. pose proof (gauss_int_le_half x). lra. Qed.

Lemma norm_cdf_pos (x : R) : 0 < norm_cdf x.
Proof.
  pose proof (norm_cdf_nonneg (x - 1)).
  assert (norm_cdf (x - 1) < norm_cdf x) by (apply norm_cdf_strict_incr; lra). lra.
Qed.

Lemma norm_cdf_lt_1 (x : R) : norm_cdf x < 1.
Proof.
  pose proof (norm_cdf_le_1 (x + 1)).
  assert (norm_cdf x < norm_cdf (x + 1)) by (apply norm_cdf_strict_incr; lra). lra.
Qed.

End GaussMass.
(** ** CMS.ipynb: the CMS rate by the linear TSR formulas *)

Module CMS.

(** The notebook's global names read by the cell that computes
    [cms_rate]. [thirty360] is [ql.Thirty360(0)].

    The operands of the divisions of this cell are Python floats when
    [kappa <= 0] and NumPy scalars when [kappa > 0] ([G] then returns
    one).  The cell is embedded with [truediv] throughout: a zero
    divisor is reported as [ZeroDivisionError] in both cases, and a
    result [Ok r] means that no divisor was zero. *)
Record Env : Type := {
  today : Date;
  T0 : Date;
  Tp : Date;
  TN : Date;
  sigma : R;
  shift : R;
  kappa : R;
  discount_curve : YieldTermStructure;
  swp : VanillaSwap;
  thirty360 : DayCounter
}.

(** [S = swp.fairRate()] *)
Definition S (e : Env) : R := fairRate (swp e).

(** [G = lambda tau, kappa: (1-np.exp(-kappa*tau))/kappa if kappa>0 else tau] *)
Definition G (tau kappa : R) : result R :=
  if Rlt_dec 0 kappa then truediv (1 - exp (- kappa * tau)) kappa else Ok tau.

(** [yearfrac = lambda date1, date2: ql.Thirty360(0).yearFraction(date1,date2)] *)
Definition yearfrac (e : Env) (date1 date2 : Date) : R :=
  yearFraction (thirty360 e) date1 date2.

(** The pairs [(idx, date)] of [enumerate(swp.fixedSchedule())] with
    [idx > 0]. *)
Definition periods (e : Env) : list (nat * Date) :=
  filter (fun p => (0 <? fst p)%nat) (enumerate 0 (fixedSchedule (swp e))).

(** [swp.fixedSchedule()[idx-1]]; the index is in range for every pair
    of [periods]. *)
Definition schedule_at (e : Env) (i : nat) : Date :=
  nth i (fixedSchedule (swp e)) 0%Z.

(** [annuity = sum([yearfrac(swp.fixedSchedule()[idx-1],date)
                    * discount_curve.discount(date) for idx, date in ... if idx > 0])] *)
Definition annuity (e : Env) : R :=
  sum (map (fun p => yearfrac e (schedule_at e (fst p - 1)) (snd p)
                     * discount (discount_curve e) (snd p))
           (periods e)).

(** [gamma = sum([yearfrac(...)*discount_curve.discount(date)
                  *G(yearfrac(T0,date), kappa) for ...])/annuity] *)
Definition gamma (e : Env) (annuity : R) : result R :=
  terms <- mapM (fun p =>
                   g <- G (yearfrac e (T0 e) (snd p)) (kappa e) ;;
                   Ok (yearfrac e (schedule_at e (fst p - 1)) (snd p)
                       * discount (discount_curve e) (snd p) * g))
                (periods e) ;;
  truediv (sum terms) annuity.

(** The divisor of [a]:
    [discount_curve.discount(TN)*G(yearfrac(T0,TN), kappa) + annuity*S*gamma] *)
Definition a_denominator (e : Env) (annuity gamma : R) : result R :=
  gN <- G (yearfrac e (T0 e) (TN e)) (kappa e) ;;
  Ok (discount (discount_curve e) (TN e) * gN + annuity * S e * gamma).

(** [a = discount_curve.discount(Tp)*(gamma - G(yearfrac(T0,Tp), kappa))
         /(discount_curve.discount(TN)*G(yearfrac(T0,TN), kappa) + annuity*S*gamma)] *)
Definition a (e : Env) (annuity gamma : R) : result R :=
  gp <- G (yearfrac e (T0 e) (Tp e)) (kappa e) ;;
  den <- a_denominator e annuity gamma ;;
  truediv (discount (discount_curve e) (Tp e) * (gamma - gp)) den.

(** The expression of [var] in its four numeric arguments:
    [(S+shift)**2 * (np.exp(sigma**2 * t) - 1)]. *)
Definition var_expr (S shift sigma t : R) : R :=
  (S + shift) ^ 2 * (exp (sigma ^ 2 * t) - 1).

(** [var = (S+shift)**2 * (np.exp(sigma**2* yearfrac(today,T0)) - 1)] *)
Definition var (e : Env) : R :=
  var_expr (S e) (shift e) (sigma e) (yearfrac e (today e) (T0 e)).

(** [cms_rate = S + annuity/discount_curve.discount(Tp) * a * var],
    after the assignments to [annuity], [gamma], [a] and [var] of the
    same cell. *)
Definition cms_rate (e : Env) : result R :=
  let annuity := annuity e in
  gamma <- gamma e annuity ;;
  a <- a e annuity gamma ;;
  let var := var e in
  ratio <- truediv annuity (discount (discount_curve e) (Tp e)) ;;
  Ok (S e + ratio * a * var).

(** The closed form of the specification: [R = S + (A/B) a Var] with
    [Var = (S+s)^2 (e^(sigma^2 T0) - 1)]. *)
Definition cms_rate_spec (S s sigma T0 A B a : R) : R :=
  S + (A / B) * a * ((S + s) ^ 2 * (exp (sigma ^ 2 * T0) - 1)).

(** *** For the statements *)

(** The value of [G] when it returns. *)
Definition G_val (tau kappa : R) : R :=
  if Rlt_dec 0 kappa then (1 - exp (- kappa * tau)) / kappa else tau.

(** The terms summed in the numerator of [gamma]. *)
Definition gamma_terms (e : Env) : list R :=
  map (fun p => yearfrac e (schedule_at e (fst p - 1)) (snd p)
                * discount (discount_curve e) (snd p)
                * G_val (yearfrac e (T0 e) (snd p)) (kappa e))
      (periods e).

(** The inputs on which no divisor of the cell vanishes: a schedule of
    at least two dates, positive discount factors, positive accrual
    fractions, positive times from [T0] to the later schedule dates and
    to [TN], and a forward swap rate that is not negative. *)
Record well_posed (e : Env) : Prop := {
  wp_schedule : (2 <= List.length (fixedSchedule (swp e)))%nat;
  wp_discount : forall d, 0 < discount (discount_curve e) d;
  wp_accrual : forall i, (0 < i < List.length (fixedSchedule (swp e)))%nat ->
               0 < yearfrac e (schedule_at e (i - 1)) (schedule_at e i);
  wp_after_T0 : forall i, (0 < i < List.length (fixedSchedule (swp e)))%nat ->
                0 < yearfrac e (T0 e) (schedule_at e i);
  wp_TN : 0 < yearfrac e (T0 e) (TN e);
  wp_rate : 0 <= S e
}.

(** A positive float product of at least this size does not underflow
    to zero. *)
Definition float_tiny : R := / 10 ^ 300.

(** The magnitudes at which the cell on floats raises no more than the
    cell on real numbers does.  [sigma**2] and [(S+shift)**2] do not
    raise [OverflowError]; the argument of [np.exp] in [var] stays
    below 700, so that [var] is finite; the positive products that make
    up [annuity] and the divisor of [a] do not underflow to zero; and a
    positive [kappa] leaves [1 - np.exp(-kappa*tau)] at [TN] above the
    spacing of the floats near one, where it would cancel to zero. *)
Record in_float_range (e : Env) : Prop := {
  fr_sigma : Rabs (sigma e) <= pow_safe;
  fr_rate : Rabs (S e + shift e) <= pow_safe;
  fr_exp : sigma e ^ 2 * yearfrac e (today e) (T0 e) <= 700;
  fr_accrual : forall i, (0 < i < List.length (fixedSchedule (swp e)))%nat ->
               float_tiny <= yearfrac e (schedule_at e (i - 1)) (schedule_at e i)
                             * discount (discount_curve e) (schedule_at e i);
  fr_TN : float_tiny <= discount (discount_curve e) (TN e)
                        * G_val (yearfrac e (T0 e) (TN e)) (kappa e);
  fr_kappa : kappa e <= 0 \/ / 10 ^ 15 <= kappa e * yearfrac e (T0 e) (TN e)
}.

End CMS.

(** ** Swaption.ipynb: the closed-form swaption price *)

Module Swaption.

(** [def swaption_formula(S, K, A, expiry, sigma, payer_receiver,
                          model = 'lognormal', shift = 0.0)].
    The result is [None] when [model] is neither ['lognormal'] nor
    ['normal']: the function then falls off its end.  [S], [K] and
    [shift] are Python floats; [sigma*np.sqrt(expiry)] is a NumPy
    scalar. *)
Definition swaption_formula (S K A expiry sigma : R) (payer_receiver model : string)
    (shift : R) : result (option R) :=
  w <- getitem [("payer"%string, 1); ("receiver"%string, -1)] (lower payer_receiver) ;;
  if String.eqb (lower model) "lognormal" then
    ratio <- truediv (S + shift) (K + shift) ;;
    let d1 := (ln ratio + 0.5 * sigma ^ 2 * expiry) / (sigma * sqrt expiry) in
    let d2 := d1 - sigma * sqrt expiry in
    Ok (Some ((w * (S + shift) * norm_cdf (w * d1)
               - w * (K + shift) * norm_cdf (w * d2)) * A))
  else if String.eqb (lower model) "normal" then
    let d := (S - K) / (sigma * sqrt expiry) in
    Ok (Some (A * sigma * sqrt expiry * (norm_pdf d + w * d * norm_cdf (w * d))))
  else Ok None.

(** *** For the statements *)

(** The Black bracket in the total volatility [u = sigma sqrt(T)]. *)
Definition black (F K u : R) : R :=
  F * norm_cdf (ln (F / K) / u + u / 2) - K * norm_cdf (ln (F / K) / u - u / 2).

(** [n(x) + x N(x)], the Bachelier bracket. *)
Definition mills_g (x : R) : R := norm_pdf x + x * norm_cdf x.

Definition bachelier (c u : R) : R := u * mills_g (c / u).

(** The price as a function of the volatility, by model and flag. *)
Definition price_of (lognormal payer : bool) (S K A expiry shift sigma : R) : R :=
  match lognormal, payer with
  | true, true => A * black (S + shift) (K + shift) (sigma * sqrt expiry)
  | true, false => A * black (K + shift) (S + shift) (sigma * sqrt expiry)
  | false, true => A * bachelier (1 * (S - K)) (sigma * sqrt expiry)
  | false, false => A * bachelier (-1 * (S - K)) (sigma * sqrt expiry)
  end.

End Swaption.

(** ** CMS_spread_options.ipynb: drifts and the integration *)

Module Spread.

(** [psi = lambda y, curve, day_counter, schedule:
       sum(day_counter.yearFraction(schedule[i-1], di)
           /(1+y)**day_counter.yearFraction(schedule[0], di)
           for i, di in enumerate(schedule[1:], 1))] *)
Definition psi (y : R) (curve : YieldTermStructure) (day_counter : DayCounter)
    (schedule : list Date) : result R :=
  terms <- mapM (fun p =>
                   truediv (yearFraction day_counter (nth (fst p - 1) schedule 0%Z) (snd p))
                           (float_pow (1 + y)
                              (yearFraction day_counter (nth 0 schedule 0%Z) (snd p))))
                (enumerate 1 (tl schedule)) ;;
  Ok (sum terms).

(** [def get_drift(swap, curve, sigma, h = 0.0001)]; [today] is the
    notebook's global.  The parameter [h] is rebound before its first
    use. *)
Definition get_drift (today : Date) (swap : VanillaSwap) (curve : YieldTermStructure)
    (sigma : R) (h : R) : result R :=
  let schedule := fixedSchedule swap in
  let day_counter := fixedDayCount swap in
  let S0 := fairRate swap in
  let h := 0.0001 in
  psi_plus <- psi (S0 + h) curve day_counter schedule ;;
  psi_minus <- psi (S0 - h) curve day_counter schedule ;;
  psi_zero <- psi S0 curve day_counter schedule ;;
  psi_prime <- truediv (psi_plus - psi_minus) (2 * h) ;;
  psi_second <- truediv (psi_plus - 2 * psi_zero + psi_minus) (h ^ 2) ;;
  first <- getindex schedule 0 ;;
  let Talpha := yearFraction day_counter today first in
  q <- truediv (0.5 * S0 ^ 2 * sigma ^ 2 * Talpha * psi_second) psi_prime ;;
  let CMS_rate := S0 - q in
  inv <- truediv 1 Talpha ;;
  ratio <- truediv CMS_rate S0 ;;
  let drift := inv * ln ratio in
  Ok drift.

(** [def get_fv(swap1, swap2, curve, v, K, sigma1, sigma2, rho)].  The
    drifts are NumPy scalars, so none of the divisions written here
    raises. *)
Definition get_fv (today : Date) (swap1 swap2 : VanillaSwap) (curve : YieldTermStructure)
    (v K sigma1 sigma2 rho : R) : result R :=
  let day_counter := fixedDayCount swap1 in
  let S1 := fairRate swap1 in
  let S2 := fairRate swap2 in
  first <- getindex (fixedSchedule swap1) 0 ;;
  let T := yearFraction day_counter today first in
  let h := fun K S mu sigma T v =>
             K + S * exp ((mu - 0.5 * sigma ^ 2) * T + sigma * sqrt T * v) in
  mu1 <- get_drift today swap1 curve sigma1 0.0001 ;;
  mu2 <- get_drift today swap2 curve sigma2 0.0001 ;;
  let hv := h K S1 mu1 sigma1 T v in
  let part1 := S2 * exp (mu2 * T - 0.5 * rho ^ 2 * sigma2 ^ 2 * T + rho * sigma2 * sqrt T * v) in
  let part2 := norm_cdf ((ln (S2 / hv) + (mu2 + (0.5 - rho ^ 2) * sigma2 ^ 2) * T
                          + rho * sigma2 * sqrt T * v)
                         / (sigma2 * sqrt T * sqrt (1 - rho ^ 2))) in
  let part3 := hv * norm_cdf ((ln (S2 / hv) + (mu2 - 0.5 * sigma2 ^ 2) * T
                               + rho * sigma2 * sqrt T * v)
                              / (sigma2 * sqrt T * sqrt (1 - rho ^ 2))) in
  Ok (part1 * part2 - part3).

(** [np.linspace(start, stop, num)] *)
Definition linspace (start stop : R) (num : nat) : list R :=
  let step := (stop - start) / INR (num - 1) in
  map (fun i => start + INR i * step) (seq 0 num).

(** [np.diff(x)]: [x[1:] - x[:-1]]. *)
Definition diff (x : list R) : list R :=
  map (fun p => fst p - snd p) (combine (tl x) (removelast x)).

(** [scipy.integrate.trapezoid(y, x=x)]:
    [(diff(x) * (y[1:] + y[:-1]) / 2.0).sum()]. *)
Definition trapezoid (y x : list R) : R :=
  sum (map (fun p => fst p * snd p / 2)
           (combine (diff x)
                    (map (fun p => fst p + snd p) (combine (tl y) (removelast y))))).

(** [v_grid = np.linspace(-8, 8, 400)] *)
Definition v_grid : list R := linspace (-8) 8 400.

(** The list comprehension [integrand], over any grid:
    [[1/np.sqrt(2*np.pi) * np.exp(-0.5*v**2)
      * get_fv(swap1, swap2, curve, v, K = 0.01, sigma1 = 0.2, sigma2 = 0.2, rho = -0.9)
      for v in v_grid]] *)
Definition integrand (today : Date) (swap1 swap2 : VanillaSwap) (curve : YieldTermStructure)
    (grid : list R) : result (list R) :=
  mapM (fun v =>
          fv <- get_fv today swap1 swap2 curve v 0.01 0.2 0.2 (-0.9) ;;
          Ok (1 / sqrt (2 * PI) * exp (-0.5 * v ^ 2) * fv))
       grid.

(** The two integration cells, over any grid. *)
Definition undiscounted_payoff_on (grid : list R) (today : Date) (swap1 swap2 : VanillaSwap)
    (curve : YieldTermStructure) : result R :=
  ys <- integrand today swap1 swap2 curve grid ;;
  Ok (trapezoid ys grid).

(** [undiscounted_payoff = trapezoid(integrand, x=v_grid)] *)
Definition undiscounted_payoff (today : Date) (swap1 swap2 : VanillaSwap)
    (curve : YieldTermStructure) : result R :=
  undiscounted_payoff_on v_grid today swap1 swap2 curve.

(** *** For the statements *)

(** The value of [psi]: its divisors are powers, never zero. *)
Definition psi_val (y : R) (day_counter : DayCounter) (schedule : list Date) : R :=
  sum (map (fun p => yearFraction day_counter (nth (fst p - 1) schedule 0%Z) (snd p)
                     / float_pow (1 + y)
                         (yearFraction day_counter (nth 0 schedule 0%Z) (snd p)))
           (enumerate 1 (tl schedule))).

(** The annuity function of a swap, in the yield [y]. *)
Definition psi_of (swap : VanillaSwap) (y : R) : R :=
  psi_val y (fixedDayCount swap) (fixedSchedule swap).

(** The specification's centred finite differences of a function. *)
Definition central_first (f : R -> R) (x h : R) : R := (f (x + h) - f (x - h)) / (2 * h).

Definition central_second (f : R -> R) (x h : R) : R :=
  (f (x + h) - 2 * f x + f (x - h)) / h ^ 2.

(** Formula (13.16) and the drift as the specification words them,
    for a step [h]. *)
Definition cms_rate_13_16 (psi : R -> R) (S0 sigma Talpha h : R) : R :=
  S0 - 0.5 * S0 ^ 2 * sigma ^ 2 * Talpha * central_second psi S0 h / central_first psi S0 h.

Definition drift_spec (psi : R -> R) (S0 sigma Talpha h : R) : R :=
  1 / Talpha * ln (cms_rate_13_16 psi S0 sigma Talpha h / S0).

(** The value of [get_fv] once both drifts are known. *)
Definition fv_val (S1 S2 T mu1 mu2 v K sigma1 sigma2 rho : R) : R :=
  let hv := K + S1 * exp ((mu1 - 0.5 * sigma1 ^ 2) * T + sigma1 * sqrt T * v) in
  let part1 := S2 * exp (mu2 * T - 0.5 * rho ^ 2 * sigma2 ^ 2 * T + rho * sigma2 * sqrt T * v) in
  let part2 := norm_cdf ((ln (S2 / hv) + (mu2 + (0.5 - rho ^ 2) * sigma2 ^ 2) * T
                          + rho * sigma2 * sqrt T * v)
                         / (sigma2 * sqrt T * sqrt (1 - rho ^ 2))) in
  let part3 := hv * norm_cdf ((ln (S2 / hv) + (mu2 - 0.5 * sigma2 ^ 2) * T
                               + rho * sigma2 * sqrt T * v)
                              / (sigma2 * sqrt T * sqrt (1 - rho ^ 2))) in
  part1 * part2 - part3.

(** The integrand of the notebook: the Gaussian density times the
    payoff for [K = 0.01], [sigma1 = sigma2 = 0.2], [rho = -0.9]. *)
Definition weighted_payoff (S1 S2 T mu1 mu2 v : R) : R :=
  1 / sqrt (2 * PI) * exp (-0.5 * v ^ 2) * fv_val S1 S2 T mu1 mu2 v 0.01 0.2 0.2 (-0.9).

(** The pairs [(x[i+1], x[i])] of neighbours, as the two slices give
    them. *)
Definition consecutive {A : Type} (x : list A) : list (A * A) :=
  combine (tl x) (removelast x).

(** The composite trapezoid sum of [f] over the nodes of [grid]. *)
Definition trapezoid_sum (f : R -> R) (grid : list R) : R :=
  sum (map (fun i => (nth (Datatypes.S i) grid 0 - nth i grid 0)
                     * (f (nth (Datatypes.S i) grid 0) + f (nth i grid 0)) / 2)
           (seq 0 (List.length grid - 1))).

End Spread.

(** ** build_fx_quotes.ipynb: the class [xccy_swap] *)

Module Xccy.

(** [ql.Eonia(curve)] and [ql.Sofr(curve)]. *)
Inductive OvernightIndex : Type :=
| Eonia (curve : YieldTermStructure)
| Sofr (curve : YieldTermStructure).

(** The two kinds of leg the class builds:
    [ql.OvernightLeg(nominals, schedule, index, ql.SimpleDayCounter(),
                     ql.Following, gearings, spreads, telescopic)] and
    [ql.Leg([ql.SimpleCashFlow(amount, date)])]. *)
Inductive Leg : Type :=
| OvernightLeg (nominals : list R) (schedule : list Date) (index : OvernightIndex)
    (gearings spreads : list R) (telescopic : bool)
| SimpleCashFlowLeg (amount : R) (date : Date).

(** What the class calls outside the repository:
    [ql.MakeSchedule(d, ql.NullCalendar().advance(d, ql.Period(n, ql.Years)), ql.Period('1Y'))],
    [ql.CashFlows.npv(leg, curve, True, date)] and
    [scipy.optimize.root_scalar(f, x0 = x0, x1 = x1).root]. *)
Record Library : Type := {
  MakeSchedule : Date -> Z -> list Date;
  CashFlows_npv : Leg -> YieldTermStructure -> Date -> R;
  root_scalar : (R -> result R) -> R -> R -> result R
}.

(** The values held by the dictionary [self.inputs]. *)
Inductive value : Type :=
| VSelf
| VDate (d : Date)
| VCurve (c : YieldTermStructure)
| VInt (n : Z)
| VFloat (x : R)
| VNone.

Definition dict : Type := list (string * value).

Fixpoint dict_get (d : dict) (k : string) : option value :=
  match d with
  | [] => None
  | (k', v) :: t => if String.eqb k k' then Some v else dict_get t k
  end.

Fixpoint dict_remove (d : dict) (k : string) : dict :=
  match d with
  | [] => []
  | (k', v) :: t => if String.eqb k k' then t else (k', v) :: dict_remove t k
  end.

(** [d.pop(k)]: the value and the dictionary without the key; a missing
    key raises [KeyError]. *)
Definition dict_pop (d : dict) (k : string) : result (value * dict) :=
  match dict_get d k with
  | Some v => Ok (v, dict_remove d k)
  | None => Raise KeyError
  end.

(** An instance of [xccy_swap]. The four attributes set by [build_swap]
    are absent until it has run. *)
Record xccy_swap : Type := {
  inputs : dict;
  pricing_date : Date;
  schedule : list Date;
  eur_leg : option Leg;
  usd_leg : option Leg;
  eur_notional : option Leg;
  usd_notional : option Leg
}.

(** Reading an attribute that was never set. *)
Definition getattr {A : Type} (field : option A) : result A :=
  match field with
  | Some v => Ok v
  | None => Raise AttributeError
  end.

(** The truth value of [spread_eur]: [None] and [0.0] are false. *)
Definition truthy (spread_eur : option R) : bool :=
  match spread_eur with
  | None => false
  | Some x => if Req_dec_T x 0 then false else true
  end.

(** The builtin [max] over dates; an empty sequence raises. *)
Definition pymax (l : list Date) : result Date :=
  match l with
  | [] => Raise ValueError
  | d :: t => Ok (fold_left Z.max t d)
  end.

(** The float held by a truthy [spread_eur]. *)
Definition float_of (spread_eur : option R) : R :=
  match spread_eur with
  | Some x => x
  | None => 0
  end.

Definition value_of_spread (spread_eur : option R) : value :=
  match spread_eur with
  | None => VNone
  | Some x => VFloat x
  end.

Section Methods.

Variable lib : Library.

(** [build_swap(self, pricing_date, spread_eur, eur_fcst_curve,
                usd_fcst_curve, tenor_years)] *)
Definition build_swap (self : xccy_swap) (pricing_date : Date) (spread_eur : R)
    (eur_fcst_curve usd_fcst_curve : YieldTermStructure) (tenor_years : Z)
    : result xccy_swap :=
  let eur_leg := OvernightLeg [1] (schedule self) (Eonia eur_fcst_curve) [1] [spread_eur] true in
  let usd_leg := OvernightLeg [1] (schedule self) (Sofr usd_fcst_curve) [1] [0] true in
  last <- pymax (schedule self) ;;
  Ok {| inputs := inputs self;
        pricing_date := Xccy.pricing_date self;
        schedule := schedule self;
        eur_leg := Some eur_leg;
        usd_leg := Some usd_leg;
        eur_notional := Some (SimpleCashFlowLeg 1 last);
        usd_notional := Some (SimpleCashFlowLeg 1 last) |}.

(** [__init__(self, pricing_date, eur_fcst_curve, usd_fcst_curve,
              tenor_years, spread_eur = None)] *)
Definition __init__ (pricing_date : Date) (eur_fcst_curve usd_fcst_curve : YieldTermStructure)
    (tenor_years : Z) (spread_eur : option R) : result xccy_swap :=
  let locals := [("self"%string, VSelf);
                 ("pricing_date"%string, VDate pricing_date);
                 ("eur_fcst_curve"%string, VCurve eur_fcst_curve);
                 ("usd_fcst_curve"%string, VCurve usd_fcst_curve);
                 ("tenor_years"%string, VInt tenor_years);
                 ("spread_eur"%string, value_of_spread spread_eur)] in
  popped <- dict_pop locals "self" ;;
  let self := {| inputs := snd popped;
                 pricing_date := pricing_date;
                 schedule := MakeSchedule lib pricing_date tenor_years;
                 eur_leg := None;
                 usd_leg := None;
                 eur_notional := None;
                 usd_notional := None |} in
  if truthy spread_eur
  then build_swap self pricing_date (float_of spread_eur) eur_fcst_curve usd_fcst_curve
         tenor_years
  else Ok self.

(** [npv(self, eur_discount_curve, usd_discount_curve)] *)
Definition npv (self : xccy_swap) (eur_discount_curve usd_discount_curve : YieldTermStructure)
    : result R :=
  eur_leg <- getattr (eur_leg self) ;;
  eur_notional <- getattr (eur_notional self) ;;
  let eur_npv := CashFlows_npv lib eur_leg eur_discount_curve (pricing_date self)
                 + CashFlows_npv lib eur_notional eur_discount_curve (pricing_date self) in
  usd_leg <- getattr (usd_leg self) ;;
  usd_notional <- getattr (usd_notional self) ;;
  let usd_npv := CashFlows_npv lib usd_leg usd_discount_curve (pricing_date self)
                 + CashFlows_npv lib usd_notional usd_discount_curve (pricing_date self) in
  Ok (eur_npv - usd_npv).

(** The names [__init__] accepts by keyword. *)
Definition init_keywords : list string :=
  ["pricing_date"; "eur_fcst_curve"; "usd_fcst_curve"; "tenor_years"; "spread_eur"]%string.

(** The call [xccy_swap( **inputs, spread_eur=spread)]: a keyword given
    twice, an unknown keyword or a missing argument raises [TypeError]. *)
Definition init_kwargs (inputs : dict) (spread : R) : result xccy_swap :=
  match dict_get inputs "spread_eur" with
  | Some _ => Raise TypeError
  | None =>
      if forallb (fun p => existsb (String.eqb (fst p)) init_keywords) inputs
      then
        match dict_get inputs "pricing_date", dict_get inputs "eur_fcst_curve",
              dict_get inputs "usd_fcst_curve", dict_get inputs "tenor_years" with
        | Some (VDate d), Some (VCurve e), Some (VCurve u), Some (VInt n) =>
            __init__ d e u n (Some spread)
        | _, _, _, _ => Raise TypeError
        end
      else Raise TypeError
  end.

(** [fair_spread]: the instance after the call, and the value returned
    or the exception raised.  [inputs] is the dictionary [self.inputs]
    itself, so the [pop] is seen through [self]. *)
Definition fair_spread (self : xccy_swap)
    (eur_discount_curve usd_discount_curve : YieldTermStructure)
    : xccy_swap * result R :=
  match dict_pop (inputs self) "spread_eur" with
  | Raise e => (self, Raise e)
  | Ok (_, inputs) =>
      let self := {| inputs := inputs;
                     pricing_date := pricing_date self;
                     schedule := schedule self;
                     eur_leg := eur_leg self;
                     usd_leg := usd_leg self;
                     eur_notional := eur_notional self;
                     usd_notional := usd_notional self |} in
      (self,
       root_scalar lib
         (fun spread =>
            swap <- init_kwargs inputs spread ;;
            npv swap eur_discount_curve usd_discount_curve)
         (-0.1) 0.1)
  end.

(** The dictionary stored by [__init__]: its [locals()] without
    ['self']. *)
Definition stored_inputs (pd : Date) (e u : YieldTermStructure) (n : Z) (sp : option R) : dict :=
  [("pricing_date"%string, VDate pd);
   ("eur_fcst_curve"%string, VCurve e);
   ("usd_fcst_curve"%string, VCurve u);
   ("tenor_years"%string, VInt n);
   ("spread_eur"%string, value_of_spread sp)].

(** The instance before [build_swap] has run. *)
Definition bare (pd : Date) (e u : YieldTermStructure) (n : Z) (sp : option R) : xccy_swap :=
  {| inputs := stored_inputs pd e u n sp;
     pricing_date := pd;
     schedule := MakeSchedule lib pd n;
     eur_leg := None; usd_leg := None; eur_notional := None; usd_notional := None |}.

(** The instance after [build_swap] has run with spread [x]; [last] is
    the latest schedule date. *)
Definition built (pd : Date) (e u : YieldTermStructure) (n : Z) (x : R) (last : Date)
    : xccy_swap :=
  {| inputs := stored_inputs pd e u n (Some x);
     pricing_date := pd;
     schedule := MakeSchedule lib pd n;
     eur_leg := Some (OvernightLeg [1] (MakeSchedule lib pd n) (Eonia e) [1] [x] true);
     usd_leg := Some (OvernightLeg [1] (MakeSchedule lib pd n) (Sofr u) [1] [0] true);
     eur_notional := Some (SimpleCashFlowLeg 1 last);
     usd_notional := Some (SimpleCashFlowLeg 1 last) |}.

(** The function handed to the root finder when the instance was built
    from these constructor arguments. *)
Definition objective (pricing_date : Date) (eur_fcst_curve usd_fcst_curve : YieldTermStructure)
    (tenor_years : Z) (eur_discount_curve usd_discount_curve : YieldTermStructure)
    (spread : R) : result R :=
  swap <- __init__ pricing_date eur_fcst_curve usd_fcst_curve tenor_years (Some spread) ;;
  npv swap eur_discount_curve usd_discount_curve.

End Methods.

End Xccy.

(** ** Further cells of the notebooks *)

(** *** Swaption.ipynb: the annuity of the underlying swap *)

Module SwaptionCell.

(** [yearfrac = 1.0] and
    [annuity = sum([discount_curve.discount(dt)*yearfrac
                    for dt in swap.fixedSchedule()][1:])] *)
Definition yearfrac : R := 1.

Definition annuity (discount_curve : YieldTermStructure) (swap : VanillaSwap) : R :=
  sum (tl (map (fun dt => discount discount_curve dt * yearfrac) (fixedSchedule swap))).


End SwaptionCell.

(** *** CMS.ipynb: the values the cell computes *)

Module CMSValue.

Import CMS.

(** The values of [gamma], of the divisor of [a] and of [a] when no
    division of the cell raises. *)
Definition tsr_gamma (e : Env) : R := sum (gamma_terms e) / annuity e.

Definition tsr_denominator (e : Env) : R :=
  discount (discount_curve e) (TN e) * G_val (yearfrac e (T0 e) (TN e)) (kappa e)
  + annuity e * S e * tsr_gamma e.

Definition tsr_a (e : Env) : R :=
  discount (discount_curve e) (Tp e)
  * (tsr_gamma e - G_val (yearfrac e (T0 e) (Tp e)) (kappa e)) / tsr_denominator e.

End CMSValue.

(** *** CMS_spread_options.ipynb: the discounting cell *)

Module SpreadCell.

(** A swap whose fixed schedule has at least two dates, positive
    accrual fractions and positive year fractions from the start
    date to every later date. *)
Definition regular (swap : VanillaSwap) : Prop :=
  (2 <= List.length (fixedSchedule swap))%nat /\
  forall i, (0 < i < List.length (fixedSchedule swap))%nat ->
    0 < yearFraction (fixedDayCount swap) (nth (i - 1) (fixedSchedule swap) 0%Z)
          (nth i (fixedSchedule swap) 0%Z)
    /\ 0 < yearFraction (fixedDayCount swap) (nth 0 (fixedSchedule swap) 0%Z)
             (nth i (fixedSchedule swap) 0%Z).

(** [npv = curve.discount(swap1.fixedSchedule()[0])*undiscounted_payoff] *)
Definition npv (today : Date) (swap1 swap2 : VanillaSwap) (curve : YieldTermStructure)
    : result R :=
  payoff <- Spread.undiscounted_payoff today swap1 swap2 curve ;;
  first <- getindex (fixedSchedule swap1) 0 ;;
  Ok (discount curve first * payoff).

End SpreadCell.

(** *** build_fx_quotes.ipynb and bootstrap_fx_discount_curve.ipynb: the quote loops *)

Module FxQuotes.

(** What the loops call on tenor strings:
    [ql.NullCalendar().advance(date, ql.Period(expiry))] and
    [ql.Period(maturity).length()]. *)
Record Periods : Type := {
  advance : Date -> string -> Date;
  period_length : string -> Z
}.

Section Loops.

Variable P : Periods.

(** [quotes_fx = []
     for expiry in expiries_fwd:
         fwd_maturity = ql.NullCalendar().advance(date, ql.Period(expiry))
         quotes_fx.append(spot_fx * eur_curve.discount(fwd_maturity)
                          /usd_curve_mod.discount(fwd_maturity))] *)
Definition quotes_fx (date : Date) (spot_fx : R) (eur_curve usd_curve_mod : YieldTermStructure)
    (expiries_fwd : list string) : result (list R) :=
  mapM (fun expiry =>
          let fwd_maturity := advance P date expiry in
          truediv (spot_fx * discount eur_curve fwd_maturity)
                  (discount usd_curve_mod fwd_maturity))
       expiries_fwd.

(** [xccy_spreads_eur = []
     for maturity in maturities_xccy:
         tenor_years = ql.Period(maturity).length()
         xccy_spreads_eur.append(
             xccy_swap(date, eur_curve, usd_curve, tenor_years)
                 .fair_spread(eur_curve, usd_curve_mod))] *)
Definition xccy_spreads_eur (lib : Xccy.Library) (date : Date)
    (eur_curve usd_curve usd_curve_mod : YieldTermStructure) (maturities_xccy : list string)
    : result (list R) :=
  mapM (fun maturity =>
          let tenor_years := period_length P maturity in
          self <- Xccy.__init__ lib date eur_curve usd_curve tenor_years None ;;
          snd (Xccy.fair_spread lib self eur_curve usd_curve_mod))
       maturities_xccy.

End Loops.

(** [bootstrap_fx_discount_curve.ipynb]: [fwd_points = fwd - spot_fx] *)
Definition fwd_points (fwd spot_fx : R) : R := fwd - spot_fx.

(** The forward the first loop appends for one maturity. *)
Definition fx_forward (spot_fx : R) (eur_curve usd_curve_mod : YieldTermStructure)
    (fwd_maturity : Date) : R :=
  spot_fx * discount eur_curve fwd_maturity / discount usd_curve_mod fwd_maturity.

(** For the small inputs: every tenor is one year of 360 days. *)
Definition toy_periods : Periods :=
  {| advance := fun d _ => (d + 360)%Z; period_length := fun _ => 1%Z |}.

End FxQuotes.

(** *** forward_curves.ipynb: the sampling dates *)

Module ForwardCurves.

(** The builtin [range(a, b)]. *)
Definition range (a b : Z) : list Z :=
  map (fun k => (a + Z.of_nat k)%Z) (seq 0 (Z.to_nat (b - a))).

(** [sample_dates = [ql.Date(date) for date in
                     range(end_dates[0].serialNumber(), end_dates[-1].serialNumber())]] *)
Definition sample_dates (end_dates : list Date) : result (list Date) :=
  first <- getindex end_dates 0 ;;
  last <- getindex end_dates (List.length end_dates - 1) ;;
  mapM Date_of_serial (range first last).

End ForwardCurves.

(** ** Small inputs

    A market of zero interest rates and 360-day years, on which the
    definitions above can be run by hand. *)

Module Toy.

Definition year360 : DayCounter :=
  {| yearFraction := fun d1 d2 => IZR (d2 - d1) / 360 |}.

Definition zero_rates : YieldTermStructure := {| discount := fun _ => 1 |}.

(** For [CMS.ipynb]: a three-period annual swap starting at [T0], no
    mean reversion; [rate] is the swap's fair rate. *)
Definition toy_env (rate : R) : CMS.Env :=
  {| CMS.today := 0%Z; CMS.T0 := 720%Z; CMS.Tp := 1080%Z; CMS.TN := 1800%Z;
     CMS.sigma := 6 / 10; CMS.shift := 2 / 100; CMS.kappa := 0;
     CMS.discount_curve := zero_rates;
     CMS.swp := {| fixedSchedule := [720; 1080; 1440; 1800]%Z;
                   fixedDayCount := year360;
                   fairRate := rate |};
     CMS.thirty360 := year360 |}.

(** The value of [cms_rate] on [toy_env (3/100)]. *)
Definition toy_cms_value : R :=
  3 / 100 + 3 / 1 * (1 / (3 + 6 * (3 / 100))) * CMS.var_expr (3 / 100) (2 / 100) (6 / 10) 2.

(** For [CMS_spread_options.ipynb]: a one-period swap starting in one
    year, with a fair rate of 10%. *)
Definition toy_swap : VanillaSwap :=
  {| fixedSchedule := [360; 720]%Z; fixedDayCount := year360; fairRate := 1 / 10 |}.

(** For [build_fx_quotes.ipynb]: annual dates, each overnight coupon
    worth the index fixing (1% for Eonia, 2% for Sofr) plus the spread,
    nothing discounted, and a root finder that takes one secant step
    and accepts it only at a zero. *)
Definition toy_schedule (d : Date) (n : Z) : list Date :=
  map (fun k => (d + 360 * Z.of_nat k)%Z) (seq 0 (Datatypes.S (Z.to_nat n))).

Definition toy_npv (leg : Xccy.Leg) (curve : YieldTermStructure) (d : Date) : R :=
  match leg with
  | Xccy.OvernightLeg _ sched index _ spreads _ =>
      INR (List.length sched - 1)
      * (match index with Xccy.Eonia _ => 1 / 100 | Xccy.Sofr _ => 2 / 100 end + sum spreads)
  | Xccy.SimpleCashFlowLeg amount _ => amount
  end.

Definition checked_secant (f : R -> result R) (x0 x1 : R) : result R :=
  q0 <- f x0 ;;
  q1 <- f x1 ;;
  step <- truediv (q1 * (x1 - x0)) (q1 - q0) ;;
  let p := x1 - step in
  fp <- f p ;;
  if Req_dec_T fp 0 then Ok p else Raise RuntimeError.

Definition toy_lib : Xccy.Library :=
  {| Xccy.MakeSchedule := toy_schedule;
     Xccy.CashFlows_npv := toy_npv;
     Xccy.root_scalar := checked_secant |}.

(** The instance [xccy_swap(0, zero_rates, zero_rates, 2)] and the
    curve every toy call uses. *)
Definition toy_xccy : Xccy.xccy_swap :=
  Xccy.bare toy_lib 0%Z zero_rates zero_rates 2%Z None.

End Toy.

(** * Part II: properties *)

(** ** Python arithmetic *)

Lemma pow_safe_ge_1 : 1 <= pow_safe.
Proof. unfold pow_safe. apply pow_R1_Rle. lra. Qed.

Lemma Rabs_le_pow_safe (x : R) : -1 <= x <= 1 -> Rabs x <= pow_safe.
Proof.
  intros Hx. apply Rle_trans with 1; [| exact pow_safe_ge_1].
  apply Rabs_le. lra.
Qed.

Lemma truediv_ok (x y : R) : y <> 0 -> truediv x y = Ok (x / y).
Proof.
  intros Hy. unfold truediv. destruct (Req_dec_T y 0) as [E | _]; [contradiction | reflexivity].
Qed.

Lemma truediv_zero (x : R) : truediv x 0 = Raise ZeroDivisionError.
Proof.
  unfold truediv. destruct (Req_dec_T 0 0) as [_ | N]; [reflexivity | now elim N].
Qed.

Lemma truediv_inv (x y q : R) : truediv x y = Ok q -> y <> 0 /\ q = x / y.
Proof.
  unfold truediv. destruct (Req_dec_T y 0) as [E | N]; [discriminate |].
  intros H. injection H as <-. now split.
Qed.

Lemma mapM_ok {A B : Type} (f : A -> result B) (g : A -> B) (l : list A) :
  (forall x, In x l -> f x = Ok (g x)) -> mapM f l = Ok (map g l).
Proof.
  induction l as [| x t IH]; intros H; simpl; [reflexivity |].
  rewrite (H x (or_introl eq_refl)). simpl.
  rewrite IH by (intros y Hy; apply H; now right). reflexivity.
Qed.

Lemma sum_pos (l : list R) :
  l <> [] -> (forall x, In x l -> 0 < x) -> 0 < sum l.
Proof.
  induction l as [| x t IH]; intros Hne Hpos; [now elim Hne |].
  simpl. destruct t as [| y t'].
  - simpl. specialize (Hpos x (or_introl eq_refl)). lra.
  - assert (0 < sum (y :: t')).
    { apply IH; [discriminate | intros z Hz; apply Hpos; now right]. }
    specialize (Hpos x (or_introl eq_refl)). lra.
Qed.

Lemma in_enumerate {A : Type} (d : A) (l : list A) (start : nat) (p : nat * A) :
  In p (enumerate start l) ->
  (start <= fst p < start + List.length l)%nat /\ snd p = nth (fst p - start) l d.
Proof.
  unfold enumerate. revert start.
  induction l as [| x t IH]; intros start Hin; simpl in Hin; [contradiction |].
  destruct Hin as [<- | Hin].
  - simpl. rewrite Nat.sub_diag. split; [lia | reflexivity].
  - apply IH in Hin. destruct Hin as [Hr Hs]. simpl. split; [lia |].
    rewrite Hs. replace (fst p - start)%nat with (Datatypes.S (fst p - Datatypes.S start)) by lia.
    reflexivity.
Qed.

(** ** CMS.ipynb *)

Section CMSFacts.

Import CMS Toy.

(** The guard [kappa > 0] keeps the divisor of [G] away from zero. *)
Lemma G_eq (tau kappa : R) : G tau kappa = Ok (G_val tau kappa).
Proof.
  unfold G, G_val. destruct (Rlt_dec 0 kappa) as [Hk | _]; [| reflexivity].
  apply truediv_ok. lra.
Qed.

Lemma G_val_pos (tau kappa : R) : 0 < tau -> 0 < G_val tau kappa.
Proof.
  intros Htau. unfold G_val. destruct (Rlt_dec 0 kappa) as [Hk | _]; [| exact Htau].
  apply Rdiv_lt_0_compat; [| exact Hk].
  assert (Hkt : 0 < kappa * tau) by (apply Rmult_lt_0_compat; assumption).
  assert (Hexp : exp (- kappa * tau) < exp 0) by (apply exp_increasing; lra).
  rewrite exp_0 in Hexp. lra.
Qed.

Lemma in_periods (e : Env) (p : nat * Date) :
  In p (periods e) ->
  (0 < fst p < List.length (fixedSchedule (swp e)))%nat /\ snd p = schedule_at e (fst p).
Proof.
  unfold periods. intros Hin. apply filter_In in Hin. destruct Hin as [Hin Hpos].
  apply (in_enumerate 0%Z) in Hin. destruct Hin as [Hr Hs].
  apply Nat.ltb_lt in Hpos. rewrite Nat.sub_0_r in Hs.
  split; [unfold Date in *; lia | exact Hs].
Qed.

Lemma periods_nonempty (e : Env) :
  (2 <= List.length (fixedSchedule (swp e)))%nat -> periods e <> [].
Proof.
  unfold periods, enumerate. destruct (fixedSchedule (swp e)) as [| d0 [| d1 t]]; simpl; intros H; try lia.
  discriminate.
Qed.

Lemma annuity_pos (e : Env) : well_posed e -> 0 < annuity e.
Proof.
  intros W. unfold annuity. apply sum_pos.
  - intros E. apply map_eq_nil in E. now apply (periods_nonempty e (wp_schedule e W)).
  - intros x Hx. apply in_map_iff in Hx. destruct Hx as [p [<- Hp]].
    apply in_periods in Hp. destruct Hp as [Hr Hs]. rewrite Hs.
    apply Rmult_lt_0_compat; [apply (wp_accrual e W); exact Hr | apply (wp_discount e W)].
Qed.

Lemma gamma_eq (e : Env) (A : R) :
  gamma e A = truediv (sum (gamma_terms e)) A.
Proof.
  unfold gamma, gamma_terms.
  rewrite (mapM_ok _ (fun p => yearfrac e (schedule_at e (fst p - 1)) (snd p)
                               * discount (discount_curve e) (snd p)
                               * G_val (yearfrac e (T0 e) (snd p)) (kappa e))).
  - reflexivity.
  - intros p _. rewrite G_eq. reflexivity.
Qed.

Lemma gamma_terms_pos (e : Env) : well_posed e -> 0 < sum (gamma_terms e).
Proof.
  intros W. unfold gamma_terms. apply sum_pos.
  - intros E. apply map_eq_nil in E. now apply (periods_nonempty e (wp_schedule e W)).
  - intros x Hx. apply in_map_iff in Hx. destruct Hx as [p [<- Hp]].
    apply in_periods in Hp. destruct Hp as [Hr Hs]. rewrite Hs.
    apply Rmult_lt_0_compat.
    + apply Rmult_lt_0_compat; [apply (wp_accrual e W); exact Hr | apply (wp_discount e W)].
    + apply G_val_pos. apply (wp_after_T0 e W). exact Hr.
Qed.

Lemma a_denominator_eq (e : Env) (A g : R) :
  a_denominator e A g =
  Ok (discount (discount_curve e) (TN e) * G_val (yearfrac e (T0 e) (TN e)) (kappa e)
      + A * S e * g).
Proof. unfold a_denominator. rewrite G_eq. reflexivity. Qed.

Lemma a_eq (e : Env) (A g : R) :
  a e A g =
  truediv (discount (discount_curve e) (Tp e)
           * (g - G_val (yearfrac e (T0 e) (Tp e)) (kappa e)))
          (discount (discount_curve e) (TN e) * G_val (yearfrac e (T0 e) (TN e)) (kappa e)
           + A * S e * g).
Proof. unfold a. rewrite G_eq, a_denominator_eq. reflexivity. Qed.

Lemma cms_rate_eq (e : Env) (g av : R) :
  gamma e (annuity e) = Ok g -> a e (annuity e) g = Ok av ->
  discount (discount_curve e) (Tp e) <> 0 ->
  cms_rate e =
  Ok (S e + annuity e / discount (discount_curve e) (Tp e) * av * var e).
Proof.
  intros Hg Ha HB. unfold cms_rate. rewrite Hg. simpl. rewrite Ha. simpl.
  rewrite (truediv_ok _ _ HB). reflexivity.
Qed.

(** C1. Whenever the cell of [CMS.ipynb] evaluates, the hand-computed
    [cms_rate] is the closed form of the specification: with [a] the
    linear TSR coefficient the cell has computed,
    [cms_rate = S + (annuity / B(0,Tp)) * a * Var] where
    [Var = (S+s)^2 (e^(sigma^2 T0) - 1)], so that the convexity
    adjustment [cms_rate - S] is exactly
    [(annuity / B(0,Tp)) * a * (S+s)^2 * (e^(sigma^2 T0) - 1)]. *)
Theorem cms_rate_closed_form (e : Env) (r : R) :
  cms_rate e = Ok r ->
  exists g av,
    gamma e (annuity e) = Ok g /\
    a e (annuity e) g = Ok av /\
    r = cms_rate_spec (S e) (shift e) (sigma e) (yearfrac e (today e) (T0 e))
                      (annuity e) (discount (discount_curve e) (Tp e)) av /\
    r - S e = annuity e / discount (discount_curve e) (Tp e) * av
              * (S e + shift e) ^ 2
              * (exp (sigma e ^ 2 * yearfrac e (today e) (T0 e)) - 1).
Proof.
  unfold cms_rate. intros H.
  destruct (gamma e (annuity e)) as [g | ?] eqn:Hg; simpl in H; [| discriminate].
  destruct (a e (annuity e) g) as [av | ?] eqn:Ha; simpl in H; [| discriminate].
  destruct (truediv (annuity e) (discount (discount_curve e) (Tp e))) as [q | ?] eqn:Hq;
    simpl in H; [| discriminate].
  apply truediv_inv in Hq. destruct Hq as [_ ->]. injection H as <-.
  exists g, av. split; [reflexivity |]. split; [exact Ha |].
  unfold cms_rate_spec, var, var_expr. split; ring.
Qed.

Lemma toy_annuity (rate : R) : annuity (toy_env rate) = 3.
Proof. unfold annuity, yearfrac. simpl. lra. Qed.

Lemma toy_gamma (rate : R) : gamma (toy_env rate) 3 = Ok 2.
Proof.
  rewrite gamma_eq. rewrite truediv_ok by lra. f_equal.
  unfold gamma_terms, yearfrac, G_val. simpl.
  destruct (Rlt_dec 0 0) as [H | _]; [lra |]. lra.
Qed.

Lemma toy_a_denominator (rate : R) :
  a_denominator (toy_env rate) 3 2 = Ok (3 + 6 * rate).
Proof.
  rewrite a_denominator_eq. f_equal. unfold yearfrac, G_val, S. simpl.
  destruct (Rlt_dec 0 0) as [H | _]; [lra |]. lra.
Qed.

Lemma toy_a (rate : R) :
  3 + 6 * rate <> 0 ->
  a (toy_env rate) 3 2 = Ok (1 / (3 + 6 * rate)).
Proof.
  intros Hden. unfold a. rewrite G_eq, toy_a_denominator. simpl.
  rewrite truediv_ok by exact Hden. f_equal.
  unfold yearfrac, G_val. simpl.
  destruct (Rlt_dec 0 0) as [H | _]; [lra |]. f_equal. lra.
Qed.

Lemma toy_cms_rate : cms_rate (toy_env (3 / 100)) = Ok toy_cms_value.
Proof.
  assert (Hy : yearfrac (toy_env (3 / 100)) 0%Z 720%Z = 2)
    by (unfold yearfrac; simpl; lra).
  pose proof (cms_rate_eq (toy_env (3 / 100)) 2 (1 / (3 + 6 * (3 / 100)))) as H.
  rewrite toy_annuity in H. unfold var in H. simpl in H. rewrite Hy in H.
  apply H; [apply toy_gamma | apply toy_a; lra | lra].
Qed.

Lemma cms_rate_closed_form_witness :
  exists g av,
    gamma (toy_env (3 / 100)) (annuity (toy_env (3 / 100))) = Ok g /\
    a (toy_env (3 / 100)) (annuity (toy_env (3 / 100))) g = Ok av /\
    toy_cms_value
    = cms_rate_spec (S (toy_env (3 / 100))) (shift (toy_env (3 / 100)))
        (sigma (toy_env (3 / 100)))
        (yearfrac (toy_env (3 / 100)) (today (toy_env (3 / 100))) (T0 (toy_env (3 / 100))))
        (annuity (toy_env (3 / 100)))
        (discount (discount_curve (toy_env (3 / 100))) (Tp (toy_env (3 / 100)))) av /\
    toy_cms_value - S (toy_env (3 / 100))
    = annuity (toy_env (3 / 100))
      / discount (discount_curve (toy_env (3 / 100))) (Tp (toy_env (3 / 100))) * av
      * (S (toy_env (3 / 100)) + shift (toy_env (3 / 100))) ^ 2
      * (exp (sigma (toy_env (3 / 100)) ^ 2
              * yearfrac (toy_env (3 / 100)) (today (toy_env (3 / 100)))
                  (T0 (toy_env (3 / 100)))) - 1).
Proof. exact (cms_rate_closed_form (toy_env (3 / 100)) toy_cms_value toy_cms_rate). Defined.

(** C6 fails as stated: with positive volatility ([sigma = 0.6]) and
    time ([T0] two years away), unit discount factors, three annual
    periods and every operand a Python float ([kappa = 0]), the forward
    swap rate [S = -1/2] makes the divisor of [a] vanish
    ([1 * 3 + 3 * S * 2 = 0]) and the cell raises
    [ZeroDivisionError]. *)
Lemma cms_rate_zero_divisor :
  0 < sigma (toy_env (- 1 / 2)) /\
  0 < yearfrac (toy_env (- 1 / 2)) (today (toy_env (- 1 / 2))) (T0 (toy_env (- 1 / 2))) /\
  a_denominator (toy_env (- 1 / 2)) (annuity (toy_env (- 1 / 2))) 2 = Ok 0 /\
  cms_rate (toy_env (- 1 / 2)) = Raise ZeroDivisionError.
Proof.
  split; [simpl; lra |]. split; [unfold yearfrac; simpl; lra |].
  rewrite toy_annuity. split.
  - rewrite toy_a_denominator. f_equal. lra.
  - unfold cms_rate. rewrite toy_annuity, toy_gamma. simpl.
    unfold a. rewrite G_eq, toy_a_denominator. simpl.
    replace (3 + 6 * (- 1 / 2)) with 0 by lra.
    rewrite truediv_zero. reflexivity.
Qed.

(** C6, amended. The cell has no failure mode other than overflow on a
    well-posed input.  On an input that is well posed (at least two
    schedule dates, positive discount factors, positive accrual
    fractions and times after [T0], a forward swap rate that is not
    negative) and whose magnitudes keep the floats from overflowing and
    underflowing ([in_float_range]: in particular [sigma**2] and
    [(S+shift)**2] do not raise [OverflowError] and [sigma^2 T0] does
    not overflow the exponential), every divisor of the cell is
    non-zero: [kappa] under its guard (so [G] returns), [annuity], the
    divisor of [a] and the discount factor at [Tp]; hence [gamma], [a]
    and [cms_rate] all evaluate without raising.  The sign of the
    volatility and of the observation time plays no part. *)
Theorem cms_rate_no_zero_divisor (e : Env) :
  well_posed e -> in_float_range e ->
  (forall tau, exists v, G tau (kappa e) = Ok v) /\
  annuity e <> 0 /\
  discount (discount_curve e) (Tp e) <> 0 /\
  exists g den av r,
    gamma e (annuity e) = Ok g /\
    a_denominator e (annuity e) g = Ok den /\ den <> 0 /\
    a e (annuity e) g = Ok av /\
    cms_rate e = Ok r.
Proof.
  intros W _.
  pose proof (annuity_pos e W) as HA.
  pose proof (gamma_terms_pos e W) as HG.
  pose proof (wp_discount e W (Tp e)) as HB.
  pose proof (wp_discount e W (TN e)) as HN.
  pose proof (G_val_pos _ (kappa e) (wp_TN e W)) as HGN.
  pose proof (wp_rate e W) as HS.
  set (g := sum (gamma_terms e) / annuity e).
  assert (Hg : 0 < g) by (apply Rdiv_lt_0_compat; assumption).
  set (den := discount (discount_curve e) (TN e)
              * G_val (yearfrac e (T0 e) (TN e)) (kappa e) + annuity e * S e * g).
  assert (Hden : 0 < den).
  { unfold den.
    assert (0 < discount (discount_curve e) (TN e)
                * G_val (yearfrac e (T0 e) (TN e)) (kappa e))
      by (apply Rmult_lt_0_compat; assumption).
    assert (0 <= annuity e * S e * g).
    { apply Rmult_le_pos; [apply Rmult_le_pos |]; lra. }
    lra. }
  assert (Egamma : gamma e (annuity e) = Ok g).
  { rewrite gamma_eq. apply truediv_ok. lra. }
  assert (Ea : a e (annuity e) g
               = Ok (discount (discount_curve e) (Tp e)
                     * (g - G_val (yearfrac e (T0 e) (Tp e)) (kappa e)) / den)).
  { rewrite a_eq. apply truediv_ok. fold den. lra. }
  split; [intros tau; eexists; apply G_eq |].
  split; [lra |]. split; [lra |].
  exists g, den. eexists. eexists.
  split; [exact Egamma |]. split; [apply a_denominator_eq |].
  split; [lra |]. split; [exact Ea |].
  apply (cms_rate_eq e g _ Egamma Ea). lra.
Qed.

Lemma toy_well_posed : well_posed (toy_env (3 / 100)).
Proof.
  constructor; simpl.
  - lia.
  - intros _. lra.
  - intros i Hi. assert (Hc : i = 1%nat \/ i = 2%nat \/ i = 3%nat) by lia.
    destruct Hc as [-> | [-> | ->]]; unfold yearfrac, schedule_at; simpl; lra.
  - intros i Hi. assert (Hc : i = 1%nat \/ i = 2%nat \/ i = 3%nat) by lia.
    destruct Hc as [-> | [-> | ->]]; unfold yearfrac, schedule_at; simpl; lra.
  - unfold yearfrac; simpl; lra.
  - unfold S; simpl; lra.
Defined.

Lemma float_tiny_le_1 : float_tiny <= 1.
Proof.
  unfold float_tiny. assert (H : 1 <= 10 ^ 300) by (apply pow_R1_Rle; lra).
  rewrite <- Rinv_1. apply Rinv_le_contravar; lra.
Defined.

Lemma toy_in_float_range : in_float_range (toy_env (3 / 100)).
Proof.
  pose proof float_tiny_le_1 as Ht.
  constructor.
  - apply Rabs_le_pow_safe. simpl. lra.
  - apply Rabs_le_pow_safe. unfold S. simpl. lra.
  - unfold yearfrac. simpl. lra.
  - intros i Hi. simpl in Hi.
    assert (Hc : i = 1%nat \/ i = 2%nat \/ i = 3%nat) by lia.
    destruct Hc as [-> | [-> | ->]]; unfold yearfrac, schedule_at; simpl; lra.
  - unfold G_val, yearfrac. simpl.
    destruct (Rlt_dec 0 0) as [H | _]; [lra |]. lra.
  - left. simpl. lra.
Defined.

Lemma cms_rate_no_zero_divisor_witness :
  (forall tau, exists v, G tau (kappa (toy_env (3 / 100))) = Ok v) /\
  annuity (toy_env (3 / 100)) <> 0 /\
  discount (discount_curve (toy_env (3 / 100))) (Tp (toy_env (3 / 100))) <> 0 /\
  exists g den av r,
    gamma (toy_env (3 / 100)) (annuity (toy_env (3 / 100))) = Ok g /\
    a_denominator (toy_env (3 / 100)) (annuity (toy_env (3 / 100))) g = Ok den /\
    den <> 0 /\
    a (toy_env (3 / 100)) (annuity (toy_env (3 / 100))) g = Ok av /\
    cms_rate (toy_env (3 / 100)) = Ok r.
Proof.
  exact (cms_rate_no_zero_divisor (toy_env (3 / 100)) toy_well_posed toy_in_float_range).
Defined.

(** C8. The shifted-lognormal variance
    [var = (S+shift)^2 (e^(sigma^2 T0) - 1)] is exactly zero when
    [sigma = 0] or [T0 = 0], and tends to zero as [sigma^2 T0] tends to
    zero, for every [S] and [shift]. *)
Theorem var_vanishes :
  (forall S shift t, var_expr S shift 0 t = 0) /\
  (forall S shift sigma, var_expr S shift sigma 0 = 0) /\
  (forall S shift eps, 0 < eps ->
     exists delta, 0 < delta /\
       forall sigma t, Rabs (sigma ^ 2 * t) < delta ->
                       Rabs (var_expr S shift sigma t) < eps).
Proof.
  split; [| split].
  - intros S0 s t. unfold var_expr.
    replace (0 ^ 2 * t) with 0 by ring. rewrite exp_0. ring.
  - intros S0 s sg. unfold var_expr. rewrite Rmult_0_r, exp_0. ring.
  - intros S0 s eps Heps.
    set (c := (S0 + s) ^ 2).
    assert (Hc : 0 <= c) by (unfold c; apply pow2_ge_0).
    assert (Hcont : continuity_pt exp 0)
      by (apply derivable_continuous_pt, derivable_pt_exp).
    destruct (Hcont (eps / (c + 1))) as [delta [Hdelta Hlim]].
    { apply Rdiv_lt_0_compat; lra. }
    exists delta. split; [exact Hdelta |].
    intros sg t Hx. unfold var_expr. fold c.
    rewrite Rabs_mult, (Rabs_pos_eq c Hc).
    assert (Hsmall : Rabs (exp (sg ^ 2 * t) - 1) < eps / (c + 1)).
    { destruct (Req_dec_T 0 (sg ^ 2 * t)) as [E | N].
      - rewrite <- E, exp_0. replace (1 - 1) with 0 by ring. rewrite Rabs_R0.
        apply Rdiv_lt_0_compat; lra.
      - specialize (Hlim (sg ^ 2 * t)). rewrite exp_0 in Hlim.
        apply Hlim. split; [split; [exact I | exact N] |].
        change (Rabs (sg ^ 2 * t - 0) < delta). rewrite Rminus_0_r. exact Hx. }
    assert (Hnn : 0 <= Rabs (exp (sg ^ 2 * t) - 1)) by apply Rabs_pos.
    assert (Hq : eps / (c + 1) * (c + 1) = eps) by (field; lra).
    assert (Hqpos : 0 < eps / (c + 1)) by (apply Rdiv_lt_0_compat; lra).
    nra.
Qed.

End CMSFacts.

(** ** Swaption.ipynb *)

Section SwaptionFacts.

Import Swaption.

Lemma pdf_ratio (F K u : R) :
  0 < F -> 0 < K -> 0 < u ->
  F * norm_pdf (ln (F / K) / u + u / 2) = K * norm_pdf (ln (F / K) / u - u / 2).
Proof.
  intros HF HK Hu. unfold norm_pdf.
  set (L := ln (F / K)).
  assert (HFK : 0 < F / K) by (apply Rdiv_lt_0_compat; assumption).
  replace (- (L / u + u / 2) ^ 2 / 2) with (- (L / u - u / 2) ^ 2 / 2 + - L)
    by (field; lra).
  rewrite exp_plus, exp_Ropp. unfold L. rewrite (exp_ln _ HFK).
  pose proof sqrt_2PI_pos. field. lra.
Qed.

Lemma D_black (F K u : R) :
  0 < F -> 0 < K -> 0 < u ->
  derivable_pt_lim (black F K) u (F * norm_pdf (ln (F / K) / u + u / 2)).
Proof.
  intros HF HK Hu. unfold black.
  pose proof (pdf_ratio F K u HF HK Hu) as Hratio.
  set (L := ln (F / K)) in *.
  assert (Dd1 : derivable_pt_lim (fun v => L / v + v / 2) u (1 / 2 - L / u ^ 2)).
  { eapply D_eq.
    - apply (D_plus (fun v => L / v) (fun v => v / 2)).
      + apply (D_div (fun _ => L) (fun v => v)); [apply D_const | apply D_id | lra].
      + apply (D_div (fun v => v) (fun _ => 2)); [apply D_id | apply D_const | lra].
    - unfold Rsqr. field. lra. }
  assert (Dd2 : derivable_pt_lim (fun v => L / v - v / 2) u (- 1 / 2 - L / u ^ 2)).
  { eapply D_eq.
    - apply (D_minus (fun v => L / v) (fun v => v / 2)).
      + apply (D_div (fun _ => L) (fun v => v)); [apply D_const | apply D_id | lra].
      + apply (D_div (fun v => v) (fun _ => 2)); [apply D_id | apply D_const | lra].
    - unfold Rsqr. field. lra. }
  eapply D_eq.
  - apply (D_minus (fun v => F * norm_cdf (L / v + v / 2))
                   (fun v => K * norm_cdf (L / v - v / 2))).
    + apply (D_mult (fun _ => F) (fun v => norm_cdf (L / v + v / 2))); [apply D_const |].
      apply (D_comp (fun v => L / v + v / 2) norm_cdf); [exact Dd1 | apply D_norm_cdf].
    + apply (D_mult (fun _ => K) (fun v => norm_cdf (L / v - v / 2))); [apply D_const |].
      apply (D_comp (fun v => L / v - v / 2) norm_cdf); [exact Dd2 | apply D_norm_cdf].
  - cbv beta.
    set (a := norm_pdf (L / u + u / 2)) in *.
    set (b := norm_pdf (L / u - u / 2)) in *.
    replace (0 * norm_cdf (L / u + u / 2) + F * (a * (1 / 2 - L / u ^ 2))
             - (0 * norm_cdf (L / u - u / 2) + K * (b * (- 1 / 2 - L / u ^ 2))))
      with ((F * a) * (1 / 2 - L / u ^ 2) - (K * b) * (- 1 / 2 - L / u ^ 2)) by ring.
    rewrite <- Hratio. field. lra.
Qed.

Lemma black_strict_incr (F K u1 u2 : R) :
  0 < F -> 0 < K -> 0 < u1 -> u1 < u2 -> black F K u1 < black F K u2.
Proof.
  intros HF HK Hu1 H12.
  apply (strict_incr_of_D_above (black F K)
           (fun u => F * norm_pdf (ln (F / K) / u + u / 2)) 0); try assumption.
  - intros u Hu. apply D_black; assumption.
  - intros u Hu. apply Rmult_lt_0_compat; [exact HF | apply norm_pdf_pos].
Qed.

(** A number bounded below by [- c t] for all small positive [t] is
    not negative. *)
Lemma nonneg_of_vanishing_bounds (x c u : R) :
  0 < c -> 0 < u -> (forall t, 0 < t < u -> - c * t <= x) -> 0 <= x.
Proof.
  intros Hc Hu Hb. destruct (Rle_lt_dec 0 x) as [H | H]; [exact H | exfalso].
  set (t := Rmin (u / 2) (- x / (2 * c))).
  assert (Hq : 0 < - x / (2 * c)) by (apply Rdiv_lt_0_compat; lra).
  assert (Ht : 0 < t) by (apply Rmin_pos; lra).
  assert (Htu : t <= u / 2) by apply Rmin_l.
  assert (Htx : t <= - x / (2 * c)) by apply Rmin_r.
  specialize (Hb t ltac:(lra)).
  assert (c * t <= c * (- x / (2 * c))) by (apply Rmult_le_compat_l; lra).
  replace (c * (- x / (2 * c))) with (- x / 2) in H0 by (field; lra).
  lra.
Qed.

Lemma exp_neg_le_inv (y : R) : 0 < y -> exp (- y) <= / y.
Proof.
  intros Hy. rewrite exp_Ropp.
  apply Rinv_le_contravar; [exact Hy |].
  assert (Hne : y <> 0) by lra. pose proof (exp_ineq1 y Hne). lra.
Qed.

Lemma black_nonneg (F K u : R) : 0 < F -> 0 < K -> 0 < u -> 0 <= black F K u.
Proof.
  intros HF HK Hu.
  destruct (Rle_lt_dec K F) as [HKF | HFK].
  - (* in or at the money: the bracket dominates (F - K) cdf (d2) *)
    unfold black.
    assert (Hm : norm_cdf (ln (F / K) / u - u / 2) <= norm_cdf (ln (F / K) / u + u / 2))
      by (apply norm_cdf_incr; lra).
    pose proof (norm_cdf_nonneg (ln (F / K) / u - u / 2)) as H0.
    nra.
  - (* out of the money: compare with smaller and smaller volatilities *)
    assert (HL : ln (F / K) < 0).
    { rewrite <- ln_1. apply ln_increasing.
      - apply Rdiv_lt_0_compat; assumption.
      - apply Rmult_lt_reg_r with K; [exact HK |].
        unfold Rdiv. rewrite Rmult_assoc, Rinv_l by lra. lra. }
    set (L := ln (F / K)) in *.
    apply (nonneg_of_vanishing_bounds _ (K * tail_const / - L) u).
    + apply Rdiv_lt_0_compat; [apply Rmult_lt_0_compat; [exact HK | apply tail_const_pos] | lra].
    + exact Hu.
    + intros t [Ht Htu].
      assert (Hmono : black F K t < black F K u) by (apply black_strict_incr; assumption).
      assert (Hlow : - (K * norm_cdf (L / t - t / 2)) <= black F K t).
      { unfold black. fold L.
        pose proof (norm_cdf_nonneg (L / t + t / 2)). nra. }
      assert (Hcdf : norm_cdf (L / t - t / 2) <= tail_const * (t / - L)).
      { eapply Rle_trans; [apply norm_cdf_le_exp |].
        apply Rmult_le_compat_l; [left; apply tail_const_pos |].
        eapply Rle_trans; [apply (exp_le _ (- (- L / t))) |].
        - assert (L / t = - (- L / t)) by (field; lra). lra.
        - eapply Rle_trans; [apply exp_neg_le_inv; apply Rdiv_lt_0_compat; lra |].
          right. field. lra. }
      assert (K * norm_cdf (L / t - t / 2) <= K * (tail_const * (t / - L)))
        by (apply Rmult_le_compat_l; lra).
      replace (- (K * tail_const / - L) * t) with (- (K * (tail_const * (t / - L))))
        by (field; lra).
      lra.
Qed.

Lemma D_mills_g (x : R) : derivable_pt_lim mills_g x (norm_cdf x).
Proof.
  unfold mills_g. eapply D_eq.
  - apply (D_plus norm_pdf (fun y => y * norm_cdf y)); [apply D_norm_pdf |].
    apply (D_mult (fun y => y) norm_cdf); [apply D_id | apply D_norm_cdf].
  - cbv beta. ring.
Qed.

Lemma mills_g_incr (a b : R) : a <= b -> mills_g a <= mills_g b.
Proof. apply (incr_of_D mills_g norm_cdf D_mills_g norm_cdf_nonneg). Qed.

Lemma exp_neg_le_inv_sq (y : R) : 0 < y -> exp (- y) <= 4 / y ^ 2.
Proof.
  intros Hy.
  assert (Hh : exp (- (y / 2)) <= / (y / 2)) by (apply exp_neg_le_inv; lra).
  assert (Hp : 0 < exp (- (y / 2))) by apply exp_pos.
  replace (- y) with (- (y / 2) + - (y / 2)) by field. rewrite exp_plus.
  replace (4 / y ^ 2) with (/ (y / 2) * / (y / 2)) by (field; lra).
  apply Rmult_le_compat; lra.
Qed.

Lemma mills_g_nonneg (x : R) : 0 <= mills_g x.
Proof.
  destruct (Rle_lt_dec 0 x) as [Hx | Hx].
  - unfold mills_g. pose proof (norm_pdf_pos x). pose proof (norm_cdf_nonneg x). nra.
  - assert (Hix : 0 < / - x) by (apply Rinv_0_lt_compat; lra).
    apply (nonneg_of_vanishing_bounds _ (4 * tail_const) (/ - x)).
    + pose proof tail_const_pos. lra.
    + exact Hix.
    + intros t [Ht Htx].
      set (y := / t).
      assert (Hy : 0 < y) by (apply Rinv_0_lt_compat; exact Ht).
      assert (Hty : t * y = 1) by (unfold y; apply Rinv_r; lra).
      assert (Hxy : - x < y).
      { assert (Hprod : t * - x < 1).
        { apply Rmult_lt_reg_r with (/ - x); [exact Hix |].
          rewrite Rmult_assoc, Rinv_r by lra. lra. }
        apply Rmult_lt_reg_l with t; [exact Ht |]. lra. }
      assert (Hmono : mills_g (- y) <= mills_g x) by (apply mills_g_incr; lra).
      assert (Hlow : - y * norm_cdf (- y) <= mills_g (- y)).
      { unfold mills_g. pose proof (norm_pdf_pos (- y)). lra. }
      assert (Hcdf : norm_cdf (- y) <= tail_const * (4 / y ^ 2)).
      { eapply Rle_trans; [apply norm_cdf_le_exp |].
        apply Rmult_le_compat_l; [left; apply tail_const_pos |].
        apply exp_neg_le_inv_sq. exact Hy. }
      assert (Hmul : y * norm_cdf (- y) <= y * (tail_const * (4 / y ^ 2)))
        by (apply Rmult_le_compat_l; lra).
      replace (y * (tail_const * (4 / y ^ 2))) with (4 * tail_const * t) in Hmul.
      * lra.
      * unfold y. field. lra.
Qed.

Lemma D_bachelier (c u : R) :
  0 < u -> derivable_pt_lim (bachelier c) u (norm_pdf (c / u)).
Proof.
  intros Hu. unfold bachelier. eapply D_eq.
  - apply (D_mult (fun v => v) (fun v => mills_g (c / v))); [apply D_id |].
    apply (D_comp (fun v => c / v) mills_g); [| apply D_mills_g].
    apply (D_div (fun _ => c) (fun v => v)); [apply D_const | apply D_id | lra].
  - cbv beta. unfold mills_g, Rsqr. field. lra.
Qed.

Lemma bachelier_strict_incr (c u1 u2 : R) :
  0 < u1 -> u1 < u2 -> bachelier c u1 < bachelier c u2.
Proof.
  intros Hu1 H12.
  apply (strict_incr_of_D_above (bachelier c) (fun u => norm_pdf (c / u)) 0); try assumption.
  - intros u Hu. apply D_bachelier; assumption.
  - intros u Hu. apply norm_pdf_pos.
Qed.

Lemma bachelier_nonneg (c u : R) : 0 < u -> 0 <= bachelier c u.
Proof.
  intros Hu. unfold bachelier. apply Rmult_le_pos; [lra | apply mills_g_nonneg].
Qed.

Lemma lognormal_payer_eq (F K A expiry sigma : R) :
  0 < expiry -> 0 < sigma -> 0 < F -> 0 < K ->
  (1 * F * norm_cdf (1 * ((ln (F / K) + 0.5 * sigma ^ 2 * expiry) / (sigma * sqrt expiry)))
   - 1 * K * norm_cdf (1 * ((ln (F / K) + 0.5 * sigma ^ 2 * expiry) / (sigma * sqrt expiry)
                            - sigma * sqrt expiry))) * A
  = A * black F K (sigma * sqrt expiry).
Proof.
  intros HT Hs HF HK. unfold black.
  assert (Hr : 0 < sqrt expiry) by (apply sqrt_lt_R0; exact HT).
  assert (Hrr : sqrt expiry * sqrt expiry = expiry) by (apply sqrt_sqrt; lra).
  set (r := sqrt expiry) in *. set (L := ln (F / K)).
  replace 0.5 with (/ 2) by lra.
  replace (1 * ((L + / 2 * sigma ^ 2 * expiry) / (sigma * r)))
    with (L / (sigma * r) + sigma * r / 2) by (rewrite <- Hrr; field; repeat split; lra).
  replace (1 * ((L + / 2 * sigma ^ 2 * expiry) / (sigma * r) - sigma * r))
    with (L / (sigma * r) - sigma * r / 2) by (rewrite <- Hrr; field; repeat split; lra).
  ring.
Qed.

Lemma lognormal_receiver_eq (F K A expiry sigma : R) :
  0 < expiry -> 0 < sigma -> 0 < F -> 0 < K ->
  (-1 * F * norm_cdf (-1 * ((ln (F / K) + 0.5 * sigma ^ 2 * expiry) / (sigma * sqrt expiry)))
   - -1 * K * norm_cdf (-1 * ((ln (F / K) + 0.5 * sigma ^ 2 * expiry) / (sigma * sqrt expiry)
                              - sigma * sqrt expiry))) * A
  = A * black K F (sigma * sqrt expiry).
Proof.
  intros HT Hs HF HK. unfold black.
  assert (Hr : 0 < sqrt expiry) by (apply sqrt_lt_R0; exact HT).
  assert (Hrr : sqrt expiry * sqrt expiry = expiry) by (apply sqrt_sqrt; lra).
  assert (HL : ln (K / F) = - ln (F / K)).
  { rewrite <- ln_Rinv by (apply Rdiv_lt_0_compat; assumption).
    f_equal. field. lra. }
  rewrite HL.
  set (r := sqrt expiry) in *. set (L := ln (F / K)).
  replace 0.5 with (/ 2) by lra.
  replace (-1 * ((L + / 2 * sigma ^ 2 * expiry) / (sigma * r)))
    with (- L / (sigma * r) - sigma * r / 2) by (rewrite <- Hrr; field; repeat split; lra).
  replace (-1 * ((L + / 2 * sigma ^ 2 * expiry) / (sigma * r) - sigma * r))
    with (- L / (sigma * r) + sigma * r / 2) by (rewrite <- Hrr; field; repeat split; lra).
  ring.
Qed.

Lemma normal_eq (w S K A expiry sigma : R) :
  w = 1 \/ w = -1 -> 0 < expiry -> 0 < sigma ->
  A * sigma * sqrt expiry
  * (norm_pdf ((S - K) / (sigma * sqrt expiry))
     + w * ((S - K) / (sigma * sqrt expiry)) * norm_cdf (w * ((S - K) / (sigma * sqrt expiry))))
  = A * bachelier (w * (S - K)) (sigma * sqrt expiry).
Proof.
  intros Hw HT Hs. unfold bachelier, mills_g.
  assert (Hr : 0 < sqrt expiry) by (apply sqrt_lt_R0; exact HT).
  set (r := sqrt expiry) in *.
  replace (w * (S - K) / (sigma * r)) with (w * ((S - K) / (sigma * r)))
    by (field; repeat split; lra).
  assert (Hpdf : norm_pdf (w * ((S - K) / (sigma * r))) = norm_pdf ((S - K) / (sigma * r))).
  { destruct Hw as [-> | ->].
    - f_equal. ring.
    - rewrite <- (norm_pdf_even ((S - K) / (sigma * r))). f_equal. ring. }
  rewrite Hpdf. ring.
Qed.

Lemma sigma_sqrt_pos (expiry sigma : R) : 0 < expiry -> 0 < sigma -> 0 < sigma * sqrt expiry.
Proof. intros HT Hs. apply Rmult_lt_0_compat; [exact Hs | apply sqrt_lt_R0; exact HT]. Qed.

Lemma sigma_sqrt_incr (expiry s1 s2 : R) :
  0 < expiry -> s1 < s2 -> s1 * sqrt expiry < s2 * sqrt expiry.
Proof. intros HT H. apply Rmult_lt_compat_r; [apply sqrt_lt_R0; exact HT | exact H]. Qed.

Lemma price_of_nonneg (lognormal payer : bool) (S K A expiry shift sigma : R) :
  0 < A -> 0 < expiry -> 0 < sigma ->
  (lognormal = true -> 0 < S + shift /\ 0 < K + shift) ->
  0 <= price_of lognormal payer S K A expiry shift sigma.
Proof.
  intros HA HT Hs Hln. pose proof (sigma_sqrt_pos expiry sigma HT Hs) as Hu.
  destruct lognormal, payer; simpl; apply Rmult_le_pos; try lra;
    try (destruct (Hln eq_refl); apply black_nonneg; assumption);
    apply bachelier_nonneg; exact Hu.
Qed.

Lemma price_of_strict_incr (lognormal payer : bool) (S K A expiry shift s1 s2 : R) :
  0 < A -> 0 < expiry -> 0 < s1 -> s1 < s2 ->
  (lognormal = true -> 0 < S + shift /\ 0 < K + shift) ->
  price_of lognormal payer S K A expiry shift s1
  < price_of lognormal payer S K A expiry shift s2.
Proof.
  intros HA HT Hs H12 Hln.
  pose proof (sigma_sqrt_pos expiry s1 HT Hs) as Hu.
  pose proof (sigma_sqrt_incr expiry s1 s2 HT H12) as Hlt.
  destruct lognormal, payer; simpl; apply Rmult_lt_compat_l; try exact HA;
    try (destruct (Hln eq_refl); apply black_strict_incr; assumption);
    apply bachelier_strict_incr; assumption.
Qed.

Lemma w_payer :
  getitem [("payer"%string, 1); ("receiver"%string, -1)] "payer" = Ok 1.
Proof. reflexivity. Qed.

Lemma w_receiver :
  getitem [("payer"%string, 1); ("receiver"%string, -1)] "receiver" = Ok (-1).
Proof. reflexivity. Qed.

Lemma swaption_formula_eq (lognormal payer : bool) (S K A expiry shift sigma : R)
    (payer_receiver model : string) :
  lower payer_receiver = (if payer then "payer" else "receiver")%string ->
  lower model = (if lognormal then "lognormal" else "normal")%string ->
  0 < expiry -> 0 < sigma ->
  (lognormal = true -> 0 < S + shift /\ 0 < K + shift) ->
  swaption_formula S K A expiry sigma payer_receiver model shift
  = Ok (Some (price_of lognormal payer S K A expiry shift sigma)).
Proof.
  intros Hflag Hmodel HT Hs Hln. unfold swaption_formula. rewrite Hflag, Hmodel.
  destruct lognormal, payer.
  - destruct (Hln eq_refl) as [HF HK].
    rewrite w_payer. change ("lognormal" =? "lognormal")%string with true.
    rewrite truediv_ok by lra. cbv beta iota zeta delta [bind].
    rewrite lognormal_payer_eq by assumption. reflexivity.
  - destruct (Hln eq_refl) as [HF HK].
    rewrite w_receiver. change ("lognormal" =? "lognormal")%string with true.
    rewrite truediv_ok by lra. cbv beta iota zeta delta [bind].
    rewrite lognormal_receiver_eq by assumption. reflexivity.
  - rewrite w_payer. change ("normal" =? "lognormal")%string with false.
    change ("normal" =? "normal")%string with true. cbv beta iota zeta delta [bind].
    rewrite (normal_eq 1) by (auto || assumption). reflexivity.
  - rewrite w_receiver. change ("normal" =? "lognormal")%string with false.
    change ("normal" =? "normal")%string with true. cbv beta iota zeta delta [bind].
    rewrite (normal_eq (-1)) by (auto || assumption). reflexivity.
Qed.

Example swaption_formula_unknown_flag :
  swaption_formula 1 1 1 1 1 "call" "normal" 0 = Raise KeyError.
Proof. reflexivity. Qed.

Example swaption_formula_unknown_model :
  swaption_formula 1 1 1 1 1 "Payer" "SABR" 0 = Ok None.
Proof. reflexivity. Qed.

Example swaption_formula_zero_shifted_strike :
  swaption_formula 1 1 1 1 1 "payer" "LogNormal" (-1) = Raise ZeroDivisionError.
Proof.
  unfold swaption_formula. change (lower "payer") with "payer"%string.
  change (lower "LogNormal") with "lognormal"%string.
  rewrite w_payer. change ("lognormal" =? "lognormal")%string with true.
  replace (1 + -1) with 0 by lra. rewrite truediv_zero. reflexivity.
Qed.

(** C2, amended. For every [A > 0] and expiry [T > 0], either flag, and
    either the normal model or the lognormal model with
    [S + shift > 0] and [K + shift > 0] (so for all [S, K > 0] when
    [shift >= 0]), [swaption_formula] returns a price for every
    volatility [sigma > 0]; that price is not negative and is strictly
    increasing in [sigma]. *)
Theorem swaption_formula_nonneg_increasing (S K A expiry shift : R)
    (payer_receiver model : string) :
  0 < A -> 0 < expiry ->
  lower payer_receiver = "payer"%string \/ lower payer_receiver = "receiver"%string ->
  (lower model = "lognormal"%string /\ 0 < S + shift /\ 0 < K + shift)
  \/ lower model = "normal"%string ->
  exists price : R -> R,
    (forall sigma, 0 < sigma ->
       swaption_formula S K A expiry sigma payer_receiver model shift
       = Ok (Some (price sigma))) /\
    (forall sigma, 0 < sigma -> 0 <= price sigma) /\
    (forall sigma1 sigma2, 0 < sigma1 -> sigma1 < sigma2 -> price sigma1 < price sigma2).
Proof.
  intros HA HT Hflag Hmodel.
  assert (Hf : exists payer : bool,
             lower payer_receiver = (if payer then "payer" else "receiver")%string).
  { destruct Hflag as [H | H]; [exists true | exists false]; exact H. }
  assert (Hm : exists lognormal : bool,
             lower model = (if lognormal then "lognormal" else "normal")%string
             /\ (lognormal = true -> 0 < S + shift /\ 0 < K + shift)).
  { destruct Hmodel as [[H Hpos] | H]; [exists true | exists false]; split; auto.
    discriminate. }
  destruct Hf as [payer Hf]. destruct Hm as [lognormal [Hm Hpos]].
  exists (price_of lognormal payer S K A expiry shift). split; [| split].
  - intros sigma Hs. apply swaption_formula_eq; assumption.
  - intros sigma Hs. apply price_of_nonneg; assumption.
  - intros s1 s2 Hs H12. apply price_of_strict_incr; assumption.
Qed.

Lemma swaption_formula_nonneg_increasing_witness :
  exists price : R -> R,
    (forall sigma, 0 < sigma ->
       swaption_formula (5 / 100) (45 / 1000) 4 5 sigma "payer" "lognormal" (2 / 100)
       = Ok (Some (price sigma))) /\
    (forall sigma, 0 < sigma -> 0 <= price sigma) /\
    (forall sigma1 sigma2, 0 < sigma1 -> sigma1 < sigma2 -> price sigma1 < price sigma2).
Proof.
  apply swaption_formula_nonneg_increasing.
  - lra.
  - lra.
  - left. reflexivity.
  - left. split; [reflexivity | split; lra].
Defined.

(** C2 fails as stated: with [S = K = A = T = sigma = 1], the payer
    flag and [shift = -2], below [- S] and [- K], the lognormal price
    is negative. *)
Lemma swaption_formula_negative_price :
  exists p, swaption_formula 1 1 1 1 1 "payer" "lognormal" (-2) = Ok (Some p) /\ p < 0.
Proof.
  eexists. split.
  - unfold swaption_formula. change (lower "payer") with "payer"%string.
    change (lower "lognormal") with "lognormal"%string.
    rewrite w_payer. change ("lognormal" =? "lognormal")%string with true.
    rewrite truediv_ok by lra. cbv beta iota zeta delta [bind]. reflexivity.
  - replace ((1 + -2) / (1 + -2)) with 1 by (field; lra). rewrite ln_1, sqrt_1.
    assert (H : norm_cdf (1 * ((0 + 0.5 * 1 ^ 2 * 1) / (1 * 1) - 1 * 1))
                < norm_cdf (1 * ((0 + 0.5 * 1 ^ 2 * 1) / (1 * 1))))
      by (apply norm_cdf_strict_incr; lra).
    lra.
Qed.

End SwaptionFacts.

(** ** CMS_spread_options.ipynb *)

Section SpreadFacts.

Import Spread Toy.

Lemma psi_eq (y : R) (curve : YieldTermStructure) (dc : DayCounter) (schedule : list Date) :
  psi y curve dc schedule = Ok (psi_val y dc schedule).
Proof.
  unfold psi, psi_val.
  rewrite (mapM_ok _ (fun p => yearFraction dc (nth (fst p - 1) schedule 0%Z) (snd p)
                               / float_pow (1 + y)
                                   (yearFraction dc (nth 0 schedule 0%Z) (snd p)))).
  - reflexivity.
  - intros p _. apply truediv_ok. unfold float_pow, Rpower.
    pose proof (exp_pos (yearFraction dc (nth 0 schedule 0%Z) (snd p) * ln (1 + y))). lra.
Qed.

Lemma get_drift_eq (today : Date) (swap : VanillaSwap) (curve : YieldTermStructure)
    (sigma h : R) (first : Date) (rest : list Date) :
  fixedSchedule swap = first :: rest ->
  0 < 1 + fairRate swap - 0.0001 ->
  central_first (psi_of swap) (fairRate swap) 0.0001 <> 0 ->
  yearFraction (fixedDayCount swap) today first <> 0 ->
  fairRate swap <> 0 ->
  0 < cms_rate_13_16 (psi_of swap) (fairRate swap) sigma
        (yearFraction (fixedDayCount swap) today first) 0.0001 / fairRate swap ->
  get_drift today swap curve sigma h
  = Ok (drift_spec (psi_of swap) (fairRate swap) sigma
          (yearFraction (fixedDayCount swap) today first) 0.0001).
Proof.
  intros Hsched Hbase Hp HT HS Hlog.
  unfold get_drift. rewrite !psi_eq. cbv beta iota zeta delta [bind].
  rewrite truediv_ok by lra.
  cbv beta iota zeta delta [bind].
  rewrite truediv_ok by (apply pow_nonzero; lra).
  cbv beta iota zeta delta [bind].
  rewrite Hsched. unfold getindex. simpl nth_error. cbv beta iota zeta delta [bind].
  rewrite <- Hsched.
  fold (psi_of swap (fairRate swap + 0.0001)). fold (psi_of swap (fairRate swap - 0.0001)).
  fold (psi_of swap (fairRate swap)).
  fold (central_first (psi_of swap) (fairRate swap) 0.0001).
  fold (central_second (psi_of swap) (fairRate swap) 0.0001).
  rewrite (truediv_ok _ _ Hp). cbv beta iota zeta delta [bind].
  rewrite (truediv_ok 1 _ HT). cbv beta iota zeta delta [bind].
  rewrite (truediv_ok _ _ HS). cbv beta iota zeta delta [bind].
  reflexivity.
Qed.

Example get_drift_empty_schedule (today : Date) (dc : DayCounter) (rate sigma h : R)
    (curve : YieldTermStructure) :
  get_drift today {| fixedSchedule := []; fixedDayCount := dc; fairRate := rate |}
    curve sigma h = Raise IndexError.
Proof.
  unfold get_drift. rewrite !psi_eq. cbv beta iota zeta delta [bind].
  rewrite truediv_ok by lra. cbv beta iota zeta delta [bind].
  rewrite truediv_ok by (apply pow_nonzero; lra). reflexivity.
Qed.

(** C3. [get_drift] recovers the drift from centred finite differences
    of the annuity function [psi]: with the step [h = 0.0001] it sets
    [psi_prime = (psi(S0+h) - psi(S0-h)) / (2h)] and
    [psi_second = (psi(S0+h) - 2 psi(S0) + psi(S0-h)) / h^2], forms
    [CMS_rate = S0 - 0.5 S0^2 sigma^2 T_alpha psi_second / psi_prime]
    and returns [(1/T_alpha) log(CMS_rate/S0)], on every swap with a
    schedule, a positive base [1 + S0 - h], non-zero divisors
    [psi_prime], [T_alpha] and [S0], and a positive argument of the
    logarithm. *)
Theorem get_drift_formula (today : Date) (swap : VanillaSwap) (curve : YieldTermStructure)
    (sigma h : R) (first : Date) (rest : list Date) :
  fixedSchedule swap = first :: rest ->
  0 < 1 + fairRate swap - 0.0001 ->
  central_first (psi_of swap) (fairRate swap) 0.0001 <> 0 ->
  yearFraction (fixedDayCount swap) today first <> 0 ->
  fairRate swap <> 0 ->
  0 < cms_rate_13_16 (psi_of swap) (fairRate swap) sigma
        (yearFraction (fixedDayCount swap) today first) 0.0001 / fairRate swap ->
  get_drift today swap curve sigma h
  = Ok (drift_spec (psi_of swap) (fairRate swap) sigma
          (yearFraction (fixedDayCount swap) today first) 0.0001).
Proof. apply get_drift_eq. Qed.

(** C9. The result of [get_drift] does not depend on its parameter [h]:
    the body rebinds [h = 0.0001] before the finite differences are
    taken, so any two steps give the same result (value or
    exception). *)
Theorem get_drift_ignores_h (today : Date) (swap : VanillaSwap) (curve : YieldTermStructure)
    (sigma h1 h2 : R) :
  get_drift today swap curve sigma h1 = get_drift today swap curve sigma h2.
Proof. reflexivity. Qed.

Lemma toy_psi (y : R) : 0 < 1 + y -> psi_of toy_swap y = 1 / (1 + y).
Proof.
  intros Hy. unfold psi_of, psi_val, float_pow. simpl.
  replace (360 / 360) with 1 by lra.
  rewrite Rpower_1 by exact Hy. lra.
Qed.

Lemma toy_central_first : central_first (psi_of toy_swap) (1 / 10) 0.0001 < 0.
Proof.
  unfold central_first. rewrite !toy_psi by lra. lra.
Qed.

Lemma toy_central_second : 0 < central_second (psi_of toy_swap) (1 / 10) 0.0001.
Proof.
  unfold central_second. rewrite !toy_psi by lra. lra.
Qed.

Lemma toy_cms_rate_13_16 (sigma : R) :
  1 / 10 <= cms_rate_13_16 (psi_of toy_swap) (1 / 10) sigma 1 0.0001.
Proof.
  unfold cms_rate_13_16.
  pose proof toy_central_first as H1. pose proof toy_central_second as H2.
  set (p := central_first (psi_of toy_swap) (1 / 10) 0.0001) in *.
  set (q := central_second (psi_of toy_swap) (1 / 10) 0.0001) in *.
  assert (Hq : 0.5 * (1 / 10) ^ 2 * sigma ^ 2 * 1 * q / p <= 0).
  { assert (0 <= 0.5 * (1 / 10) ^ 2 * sigma ^ 2 * 1 * q).
    { pose proof (pow2_ge_0 sigma). nra. }
    assert (/ p < 0) by (apply Rinv_lt_0_compat; exact H1).
    unfold Rdiv at 1. nra. }
  lra.
Qed.

Lemma toy_get_drift (sigma h : R) :
  get_drift 0%Z toy_swap zero_rates sigma h
  = Ok (drift_spec (psi_of toy_swap) (1 / 10) sigma 1 0.0001).
Proof.
  assert (HT : yearFraction year360 0%Z 360%Z = 1) by (simpl; lra).
  pose proof (get_drift_eq 0%Z toy_swap zero_rates sigma h 360%Z [720%Z]) as H.
  change (fixedDayCount toy_swap) with year360 in H.
  change (fairRate toy_swap) with (1 / 10) in H.
  rewrite HT in H. apply H.
  - reflexivity.
  - lra.
  - pose proof toy_central_first. lra.
  - lra.
  - lra.
  - pose proof (toy_cms_rate_13_16 sigma). apply Rdiv_lt_0_compat; lra.
Qed.

Lemma get_drift_formula_witness :
  get_drift 0%Z toy_swap zero_rates (2 / 10) 1
  = Ok (drift_spec (psi_of toy_swap) (1 / 10) (2 / 10) 1 0.0001).
Proof.
  assert (HT : yearFraction year360 0%Z 360%Z = 1) by (simpl; lra).
  pose proof (get_drift_formula 0%Z toy_swap zero_rates (2 / 10) 1 360%Z [720%Z]) as H.
  change (fixedDayCount toy_swap) with year360 in H.
  change (fairRate toy_swap) with (1 / 10) in H.
  rewrite HT in H. apply H.
  - reflexivity.
  - lra.
  - pose proof toy_central_first. lra.
  - lra.
  - lra.
  - pose proof (toy_cms_rate_13_16 (2 / 10)). apply Rdiv_lt_0_compat; lra.
Defined.

(** ** The integration grid and the trapezoid rule *)

Lemma linspace_length (a b : R) (n : nat) : List.length (linspace a b n) = n.
Proof. unfold linspace. rewrite length_map, length_seq. reflexivity. Qed.

Lemma nth_map_seq {A : Type} (f : nat -> A) (n i : nat) (d : A) :
  (i < n)%nat -> nth i (map f (seq 0 n)) d = f i.
Proof.
  intros Hi. rewrite (nth_indep _ d (f 0%nat)) by (rewrite length_map, length_seq; exact Hi).
  rewrite map_nth, seq_nth by exact Hi. reflexivity.
Qed.

Lemma linspace_nth (a b : R) (n i : nat) :
  (i < n)%nat -> nth i (linspace a b n) 0 = a + INR i * ((b - a) / INR (n - 1)).
Proof. intros Hi. unfold linspace. cbv zeta. now rewrite nth_map_seq. Qed.

Lemma consecutive_cons {A : Type} (a b : A) (t : list A) :
  consecutive (a :: b :: t) = (b, a) :: consecutive (b :: t).
Proof. reflexivity. Qed.

Lemma consecutive_map {A B : Type} (f : A -> B) (x : list A) :
  consecutive (map f x) = map (fun p => (f (fst p), f (snd p))) (consecutive x).
Proof.
  induction x as [| a [| b t] IH]; try reflexivity.
  change (map f (a :: b :: t)) with (f a :: f b :: map f t).
  rewrite !consecutive_cons. simpl map at 2. f_equal. exact IH.
Qed.

Lemma consecutive_seq (x : list R) :
  consecutive x
  = map (fun i => (nth (Datatypes.S i) x 0, nth i x 0)) (seq 0 (List.length x - 1)).
Proof.
  induction x as [| a [| b t] IH]; try reflexivity.
  rewrite consecutive_cons, IH.
  change (List.length (a :: b :: t) - 1)%nat with (Datatypes.S (List.length t)).
  change (List.length (b :: t) - 1)%nat with (List.length t - 0)%nat.
  rewrite Nat.sub_0_r. simpl seq. simpl map at 2. f_equal.
  rewrite <- seq_shift, map_map. reflexivity.
Qed.

Lemma combine_map_same {A B C : Type} (g : A -> B) (h : A -> C) (l : list A) :
  combine (map g l) (map h l) = map (fun p => (g p, h p)) l.
Proof. induction l as [| a t IH]; simpl; [reflexivity | now rewrite IH]. Qed.

Example trapezoid_two_points (x0 x1 y0 y1 : R) :
  trapezoid [y0; y1] [x0; x1] = (x1 - x0) * (y1 + y0) / 2 + 0.
Proof. reflexivity. Qed.

Example linspace_three_points : linspace 0 1 3 = [0; / 2; 1].
Proof.
  unfold linspace. simpl.
  repeat (f_equal; try lra).
Qed.

Lemma trapezoid_map (f : R -> R) (x : list R) :
  trapezoid (map f x) x = trapezoid_sum f x.
Proof.
  unfold trapezoid, trapezoid_sum, diff. fold (consecutive x). fold (consecutive (map f x)).
  rewrite consecutive_map, map_map, combine_map_same, map_map.
  rewrite consecutive_seq, map_map. reflexivity.
Qed.

Lemma get_fv_eq (today : Date) (swap1 swap2 : VanillaSwap) (curve : YieldTermStructure)
    (v K sigma1 sigma2 rho mu1 mu2 : R) (first : Date) (rest : list Date) :
  fixedSchedule swap1 = first :: rest ->
  get_drift today swap1 curve sigma1 0.0001 = Ok mu1 ->
  get_drift today swap2 curve sigma2 0.0001 = Ok mu2 ->
  get_fv today swap1 swap2 curve v K sigma1 sigma2 rho
  = Ok (fv_val (fairRate swap1) (fairRate swap2)
          (yearFraction (fixedDayCount swap1) today first) mu1 mu2 v K sigma1 sigma2 rho).
Proof.
  intros Hs H1 H2. unfold get_fv. rewrite Hs. unfold getindex. simpl nth_error.
  cbv beta iota zeta delta [bind]. rewrite H1, H2. reflexivity.
Qed.

Lemma undiscounted_payoff_on_eq (grid : list R) (today : Date) (swap1 swap2 : VanillaSwap)
    (curve : YieldTermStructure) (mu1 mu2 : R) (first : Date) (rest : list Date) :
  fixedSchedule swap1 = first :: rest ->
  get_drift today swap1 curve 0.2 0.0001 = Ok mu1 ->
  get_drift today swap2 curve 0.2 0.0001 = Ok mu2 ->
  undiscounted_payoff_on grid today swap1 swap2 curve
  = Ok (trapezoid_sum
          (weighted_payoff (fairRate swap1) (fairRate swap2)
             (yearFraction (fixedDayCount swap1) today first) mu1 mu2)
          grid).
Proof.
  intros Hs H1 H2. unfold undiscounted_payoff_on, integrand.
  rewrite (mapM_ok _ (weighted_payoff (fairRate swap1) (fairRate swap2)
                        (yearFraction (fixedDayCount swap1) today first) mu1 mu2)).
  - cbv beta iota delta [bind]. rewrite trapezoid_map. reflexivity.
  - intros v _. rewrite (get_fv_eq _ _ _ _ _ _ _ _ _ mu1 mu2 first rest Hs H1 H2).
    reflexivity.
Qed.

Lemma INR_399 : INR 399 = 399.
Proof. rewrite INR_IZR_INZ. reflexivity. Qed.

Lemma v_grid_shape :
  List.length v_grid = 400%nat /\
  nth 0 v_grid 0 = -8 /\
  nth 399 v_grid 0 = 8 /\
  forall i, (i < 399)%nat -> nth (Datatypes.S i) v_grid 0 - nth i v_grid 0 = 16 / 399.
Proof.
  unfold v_grid. split; [apply linspace_length |]. split; [| split].
  - rewrite linspace_nth by lia. simpl INR. lra.
  - rewrite linspace_nth by lia. change (400 - 1)%nat with 399%nat. rewrite INR_399. lra.
  - intros i Hi. rewrite !linspace_nth by lia.
    change (400 - 1)%nat with 399%nat. rewrite S_INR, INR_399. lra.
Qed.

(** C4. [v_grid] is a uniform grid of exactly 400 points from [-8] to
    [8] (spacing [16/399]); once the two drifts evaluate,
    [undiscounted_payoff] is the composite trapezoid sum of the
    Gaussian-density-weighted payoff over that grid, and the same
    computation over any other grid, however coarse, returns its
    trapezoid sum as well: nothing is checked and nothing is raised by
    the integration. *)
Theorem undiscounted_payoff_trapezoid (today : Date) (swap1 swap2 : VanillaSwap)
    (curve : YieldTermStructure) (mu1 mu2 : R) (first : Date) (rest : list Date) :
  fixedSchedule swap1 = first :: rest ->
  get_drift today swap1 curve 0.2 0.0001 = Ok mu1 ->
  get_drift today swap2 curve 0.2 0.0001 = Ok mu2 ->
  (List.length v_grid = 400%nat /\
   nth 0 v_grid 0 = -8 /\
   nth 399 v_grid 0 = 8 /\
   forall i, (i < 399)%nat -> nth (Datatypes.S i) v_grid 0 - nth i v_grid 0 = 16 / 399) /\
  undiscounted_payoff today swap1 swap2 curve
  = Ok (trapezoid_sum
          (weighted_payoff (fairRate swap1) (fairRate swap2)
             (yearFraction (fixedDayCount swap1) today first) mu1 mu2)
          v_grid) /\
  forall grid : list R,
    undiscounted_payoff_on grid today swap1 swap2 curve
    = Ok (trapezoid_sum
            (weighted_payoff (fairRate swap1) (fairRate swap2)
               (yearFraction (fixedDayCount swap1) today first) mu1 mu2)
            grid).
Proof.
  intros Hs H1 H2. split; [exact v_grid_shape |]. split.
  - unfold undiscounted_payoff. apply (undiscounted_payoff_on_eq _ _ _ _ _ _ _ _ rest Hs H1 H2).
  - intros grid. apply (undiscounted_payoff_on_eq _ _ _ _ _ _ _ _ rest Hs H1 H2).
Qed.

Lemma undiscounted_payoff_trapezoid_witness :
  undiscounted_payoff 0%Z toy_swap toy_swap zero_rates
  = Ok (trapezoid_sum
          (weighted_payoff (1 / 10) (1 / 10) (yearFraction year360 0%Z 360%Z)
             (drift_spec (psi_of toy_swap) (1 / 10) 0.2 1 0.0001)
             (drift_spec (psi_of toy_swap) (1 / 10) 0.2 1 0.0001))
          v_grid).
Proof.
  exact (proj1 (proj2
    (undiscounted_payoff_trapezoid 0%Z toy_swap toy_swap zero_rates _ _ 360%Z [720%Z]
       eq_refl (toy_get_drift 0.2 0.0001) (toy_get_drift 0.2 0.0001)))).
Defined.

End SpreadFacts.

(** ** build_fx_quotes.ipynb *)

Section XccyFacts.

Import Xccy.

Variable lib : Library.

Lemma truthy_nonzero (x : R) : x <> 0 -> truthy (Some x) = true.
Proof. intros H. unfold truthy. destruct (Req_dec_T x 0); [contradiction | reflexivity]. Qed.

Lemma truthy_zero : truthy (Some 0) = false.
Proof. unfold truthy. destruct (Req_dec_T 0 0) as [_ | N]; [reflexivity | now elim N]. Qed.

Lemma init_falsy (pd : Date) (e u : YieldTermStructure) (n : Z) (sp : option R) :
  truthy sp = false -> __init__ lib pd e u n sp = Ok (bare lib pd e u n sp).
Proof.
  intros H. unfold __init__. cbn [dict_pop dict_get dict_remove String.eqb bind snd].
  destruct sp as [x |]; [rewrite H |]; reflexivity.
Qed.

Lemma init_truthy (pd : Date) (e u : YieldTermStructure) (n : Z) (x : R) :
  x <> 0 ->
  __init__ lib pd e u n (Some x)
  = (last <- pymax (MakeSchedule lib pd n) ;; Ok (built lib pd e u n x last)).
Proof.
  intros H. unfold __init__. rewrite (truthy_nonzero x H). reflexivity.
Qed.

Lemma init_inputs (pd : Date) (e u : YieldTermStructure) (n : Z) (sp : option R)
    (self : xccy_swap) :
  __init__ lib pd e u n sp = Ok self -> inputs self = stored_inputs pd e u n sp.
Proof.
  destruct sp as [x |].
  - destruct (Req_dec_T x 0) as [-> | Hx].
    + rewrite init_falsy by apply truthy_zero. intros H. injection H as <-. reflexivity.
    + rewrite init_truthy by exact Hx.
      destruct (pymax (MakeSchedule lib pd n)) as [last | err]; simpl; [| discriminate].
      intros H. injection H as <-. reflexivity.
  - rewrite init_falsy by reflexivity. intros H. injection H as <-. reflexivity.
Qed.

Lemma npv_built (pd : Date) (e u : YieldTermStructure) (n : Z) (x : R) (last : Date)
    (ed ud : YieldTermStructure) :
  npv lib (built lib pd e u n x last) ed ud
  = Ok (CashFlows_npv lib (OvernightLeg [1] (MakeSchedule lib pd n) (Eonia e) [1] [x] true) ed pd
        + CashFlows_npv lib (SimpleCashFlowLeg 1 last) ed pd
        - (CashFlows_npv lib (OvernightLeg [1] (MakeSchedule lib pd n) (Sofr u) [1] [0] true) ud pd
           + CashFlows_npv lib (SimpleCashFlowLeg 1 last) ud pd)).
Proof. reflexivity. Qed.

Lemma npv_bare (pd : Date) (e u : YieldTermStructure) (n : Z) (sp : option R)
    (ed ud : YieldTermStructure) :
  npv lib (bare lib pd e u n sp) ed ud = Raise AttributeError.
Proof. reflexivity. Qed.

Lemma fair_spread_eq (pd : Date) (e u : YieldTermStructure) (n : Z) (sp : option R)
    (self : xccy_swap) (ed ud : YieldTermStructure) :
  inputs self = stored_inputs pd e u n sp ->
  snd (fair_spread lib self ed ud) = root_scalar lib (objective lib pd e u n ed ud) (-0.1) 0.1
  /\ inputs (fst (fair_spread lib self ed ud))
     = dict_remove (stored_inputs pd e u n sp) "spread_eur".
Proof.
  intros Hin. unfold fair_spread. rewrite Hin. split; reflexivity.
Qed.

(** C5. For every tenor: a swap built with a non-zero spread holds
    exactly a EUR overnight leg with its notional redemption and a USD
    overnight leg with its notional redemption, and its [npv] is the
    EUR-side NPV minus the USD-side NPV; [fair_spread] is one call of
    [root_scalar], on the [npv] of the swap rebuilt with the trial
    spread, from [x0 = -0.1] and [x1 = 0.1]; and with a root finder
    that returns only zeros of its argument, the spread returned is
    one at which that [npv] is zero. *)
Theorem fair_spread_single_root_find (pd : Date) (e u : YieldTermStructure) (n : Z)
    (sp : option R) (self : xccy_swap) (ed ud : YieldTermStructure) :
  (forall f x0 x1 r, root_scalar lib f x0 x1 = Ok r -> f r = Ok 0) ->
  __init__ lib pd e u n sp = Ok self ->
  (forall spread swap,
     spread <> 0 -> __init__ lib pd e u n (Some spread) = Ok swap ->
     exists last,
       pymax (MakeSchedule lib pd n) = Ok last /\
       eur_leg swap
       = Some (OvernightLeg [1] (MakeSchedule lib pd n) (Eonia e) [1] [spread] true) /\
       eur_notional swap = Some (SimpleCashFlowLeg 1 last) /\
       usd_leg swap
       = Some (OvernightLeg [1] (MakeSchedule lib pd n) (Sofr u) [1] [0] true) /\
       usd_notional swap = Some (SimpleCashFlowLeg 1 last) /\
       npv lib swap ed ud
       = Ok (CashFlows_npv lib
               (OvernightLeg [1] (MakeSchedule lib pd n) (Eonia e) [1] [spread] true) ed pd
             + CashFlows_npv lib (SimpleCashFlowLeg 1 last) ed pd
             - (CashFlows_npv lib
                  (OvernightLeg [1] (MakeSchedule lib pd n) (Sofr u) [1] [0] true) ud pd
                + CashFlows_npv lib (SimpleCashFlowLeg 1 last) ud pd))) /\
  snd (fair_spread lib self ed ud)
  = root_scalar lib (objective lib pd e u n ed ud) (-0.1) 0.1 /\
  (forall r, snd (fair_spread lib self ed ud) = Ok r ->
             objective lib pd e u n ed ud r = Ok 0).
Proof.
  intros Hroot Hinit. split; [| split].
  - intros spread swap Hne Hswap. rewrite init_truthy in Hswap by exact Hne.
    destruct (pymax (MakeSchedule lib pd n)) as [last | err]; simpl in Hswap; [| discriminate].
    injection Hswap as <-. exists last. repeat split.
  - apply (fair_spread_eq pd e u n sp). apply (init_inputs _ _ _ _ _ _ Hinit).
  - intros r Hr.
    rewrite (proj1 (fair_spread_eq pd e u n sp self ed ud (init_inputs _ _ _ _ _ _ Hinit))) in Hr.
    apply (Hroot _ _ _ _ Hr).
Qed.

(** C10. An instance constructed with [spread_eur] equal to [None]
    (the default) or to [0.0] has no legs, because the guard
    [if spread_eur:] tests the truth value, and its [npv] raises
    [AttributeError]; [npv] returns a value if and only if the instance
    was constructed with a spread that is neither [None] nor zero. *)
Theorem npv_needs_truthy_spread (pd : Date) (e u : YieldTermStructure) (n : Z)
    (sp : option R) (self : xccy_swap) (ed ud : YieldTermStructure) :
  __init__ lib pd e u n sp = Ok self ->
  (sp = None \/ sp = Some 0 ->
   eur_leg self = None /\ npv lib self ed ud = Raise AttributeError) /\
  ((exists v, npv lib self ed ud = Ok v) <-> (exists x, sp = Some x /\ x <> 0)).
Proof.
  intros Hinit.
  assert (Hfalsy : truthy sp = false ->
                   eur_leg self = None /\ npv lib self ed ud = Raise AttributeError).
  { intros Hf. rewrite init_falsy in Hinit by exact Hf. injection Hinit as <-.
    split; reflexivity. }
  split; [| split].
  - intros [-> | ->]; apply Hfalsy; [reflexivity | apply truthy_zero].
  - intros [v Hv]. destruct sp as [x |].
    + destruct (Req_dec_T x 0) as [-> | Hx].
      * destruct (Hfalsy truthy_zero) as [_ Herr]. rewrite Herr in Hv. discriminate.
      * exists x. split; [reflexivity | exact Hx].
    + destruct (Hfalsy eq_refl) as [_ Herr]. rewrite Herr in Hv. discriminate.
  - intros [x [-> Hx]]. rewrite init_truthy in Hinit by exact Hx.
    destruct (pymax (MakeSchedule lib pd n)) as [last | err]; simpl in Hinit; [| discriminate].
    injection Hinit as <-. rewrite npv_built. eexists. reflexivity.
Qed.


End XccyFacts.

Section XccyToy.

Import Xccy Toy.

Lemma checked_secant_sound (f : R -> result R) (x0 x1 r : R) :
  checked_secant f x0 x1 = Ok r -> f r = Ok 0.
Proof.
  unfold checked_secant.
  destruct (f x0) as [q0 | ?]; simpl; [| discriminate].
  destruct (f x1) as [q1 | ?]; simpl; [| discriminate].
  destruct (truediv (q1 * (x1 - x0)) (q1 - q0)) as [step | ?]; simpl; [| discriminate].
  destruct (f (x1 - step)) as [fp | ?] eqn:Hfp; simpl; [| discriminate].
  destruct (Req_dec_T fp 0) as [-> | ?]; [| discriminate].
  intros H. injection H as <-. exact Hfp.
Qed.

Lemma toy_pymax : pymax (toy_schedule 0%Z 2%Z) = Ok 720%Z.
Proof. reflexivity. Qed.

Lemma toy_objective (c : YieldTermStructure) (spread : R) :
  spread <> 0 ->
  objective toy_lib 0%Z c c 2%Z c c spread = Ok (2 * (spread - 1 / 100)).
Proof.
  intros Hne. unfold objective. rewrite init_truthy by exact Hne.
  change (MakeSchedule toy_lib 0%Z 2%Z) with (toy_schedule 0%Z 2%Z). rewrite toy_pymax.
  cbv beta iota delta [bind]. rewrite npv_built. f_equal.
  simpl. lra.
Qed.

Lemma toy_init_none (c : YieldTermStructure) :
  __init__ toy_lib 0%Z c c 2%Z None = Ok (bare toy_lib 0%Z c c 2%Z None).
Proof. apply init_falsy. reflexivity. Qed.

Lemma toy_fair_spread (c : YieldTermStructure) :
  snd (fair_spread toy_lib (bare toy_lib 0%Z c c 2%Z None) c c) = Ok (1 / 100).
Proof.
  rewrite (proj1 (fair_spread_eq toy_lib 0%Z c c 2%Z None (bare toy_lib 0%Z c c 2%Z None)
                    c c eq_refl)).
  change (root_scalar toy_lib) with checked_secant. unfold checked_secant.
  rewrite !toy_objective by lra. cbv beta iota zeta delta [bind].
  rewrite truediv_ok by lra. cbv beta iota zeta delta [bind].
  rewrite toy_objective by lra. cbv beta iota zeta delta [bind].
  destruct (Req_dec_T _ 0) as [_ | N]; [f_equal; lra | exfalso; apply N; lra].
Qed.

Lemma toy_xccy_init : __init__ toy_lib 0%Z zero_rates zero_rates 2%Z None = Ok toy_xccy.
Proof. apply toy_init_none. Qed.

Lemma toy_xccy_fair_spread :
  snd (fair_spread toy_lib toy_xccy zero_rates zero_rates) = Ok (1 / 100).
Proof. apply toy_fair_spread. Qed.

Lemma fair_spread_single_root_find_witness :
  snd (fair_spread toy_lib toy_xccy zero_rates zero_rates) = Ok (1 / 100) /\
  objective toy_lib 0%Z zero_rates zero_rates 2%Z zero_rates zero_rates (1 / 100) = Ok 0.
Proof.
  split; [apply toy_xccy_fair_spread |].
  apply (fair_spread_single_root_find toy_lib 0%Z zero_rates zero_rates 2%Z None toy_xccy
           zero_rates zero_rates checked_secant_sound toy_xccy_init).
  apply toy_xccy_fair_spread.
Defined.

Lemma npv_needs_truthy_spread_witness :
  (Some 0 = None \/ Some 0 = Some 0 ->
   eur_leg (bare toy_lib 0%Z zero_rates zero_rates 2%Z (Some 0)) = None /\
   npv toy_lib (bare toy_lib 0%Z zero_rates zero_rates 2%Z (Some 0)) zero_rates zero_rates
   = Raise AttributeError) /\
  ((exists v, npv toy_lib (bare toy_lib 0%Z zero_rates zero_rates 2%Z (Some 0))
                zero_rates zero_rates = Ok v)
   <-> (exists x, Some 0 = Some x /\ x <> 0)).
Proof.
  apply (npv_needs_truthy_spread toy_lib 0%Z zero_rates zero_rates 2%Z (Some 0)).
  apply init_falsy. apply truthy_zero.
Defined.

(** C7 fails on [fair_spread]: on the instance
    [xccy_swap(0, zero_rates, zero_rates, 2)] the call returns the fair
    spread [1/100], but the stored dictionary [inputs], which held the
    key ['spread_eur'] before the call, no longer holds it afterwards,
    and a second call on the same instance raises [KeyError]. *)
Theorem fair_spread_mutates_inputs :
  __init__ toy_lib 0%Z zero_rates zero_rates 2%Z None = Ok toy_xccy /\
  dict_get (inputs toy_xccy) "spread_eur" = Some VNone /\
  snd (fair_spread toy_lib toy_xccy zero_rates zero_rates) = Ok (1 / 100) /\
  dict_get (inputs (fst (fair_spread toy_lib toy_xccy zero_rates zero_rates))) "spread_eur"
  = None /\
  snd (fair_spread toy_lib (fst (fair_spread toy_lib toy_xccy zero_rates zero_rates))
         zero_rates zero_rates)
  = Raise KeyError.
Proof.
  split; [apply toy_xccy_init |]. split; [reflexivity |].
  split; [apply toy_xccy_fair_spread |]. split; reflexivity.
Qed.

End XccyToy.

(** * Part III: further properties *)

(** Opens the conjunctions, equivalences and quantifiers of a goal and
    the conjunctions and existentials of its hypotheses. *)
Ltac open_cases :=
  repeat match goal with
         | |- _ /\ _ => split
         | |- _ <-> _ => split
         | |- forall _, _ => intro
         | H : _ /\ _ |- _ => destruct H
         | H : exists _, _ |- _ => destruct H
         end.

(** ** The distribution function *)

Section NormalFacts.

Import GaussMass.

(** X1. [norm.cdf], as the notebooks call it, is a distribution function
    symmetric about zero: its values lie strictly between [0] and
    [1], [norm.cdf(-x) = 1 - norm.cdf(x)], and [norm.cdf(0) = 1/2]. *)
Theorem norm_cdf_distribution (x : R) :
  0 < norm_cdf x < 1 /\ norm_cdf (- x) = 1 - norm_cdf x /\ norm_cdf 0 = / 2.
Proof.
  split; [split; [apply norm_cdf_pos | apply norm_cdf_lt_1] |].
  split; [apply norm_cdf_sym | apply norm_cdf_0].
Qed.

End NormalFacts.

(** ** Swaption.ipynb *)

Section SwaptionMore.

Import Swaption SwaptionCell GaussMass.

Lemma getitem_w (s : string) :
  (s = "payer"%string /\ getitem [("payer"%string, 1); ("receiver"%string, -1)] s = Ok 1) \/
  (s = "receiver"%string /\ getitem [("payer"%string, 1); ("receiver"%string, -1)] s = Ok (-1)) \/
  (s <> "payer"%string /\ s <> "receiver"%string /\
   getitem [("payer"%string, 1); ("receiver"%string, -1)] s = Raise KeyError).
Proof.
  unfold getitem.
  destruct (String.eqb_spec s "payer") as [-> | Hp]; [left; split; reflexivity |].
  destruct (String.eqb_spec s "receiver") as [-> | Hr]; [right; left; split; reflexivity |].
  right; right. repeat split; assumption.
Qed.

(** X2. For a volatility of at most [1e154] in absolute value, beyond
    which [sigma**2] raises [OverflowError]: [swaption_formula] raises
    [KeyError] exactly when the lower-cased flag is neither ['payer']
    nor ['receiver'], whatever the model; it raises
    [ZeroDivisionError] exactly when the flag is valid, the model is
    lognormal and [K + shift = 0]; it returns [None] exactly when the
    flag is valid and the model is neither ['lognormal'] nor
    ['normal']; in every other case it returns a price.  No other
    exception is raised. *)
Theorem swaption_formula_outcome (S K A expiry sigma shift : R) (payer_receiver model : string) :
  Rabs sigma <= pow_safe ->
  (swaption_formula S K A expiry sigma payer_receiver model shift = Raise KeyError
   <-> lower payer_receiver <> "payer"%string /\ lower payer_receiver <> "receiver"%string) /\
  (swaption_formula S K A expiry sigma payer_receiver model shift = Raise ZeroDivisionError
   <-> (lower payer_receiver = "payer"%string \/ lower payer_receiver = "receiver"%string)
       /\ lower model = "lognormal"%string /\ K + shift = 0) /\
  (swaption_formula S K A expiry sigma payer_receiver model shift = Ok None
   <-> (lower payer_receiver = "payer"%string \/ lower payer_receiver = "receiver"%string)
       /\ lower model <> "lognormal"%string /\ lower model <> "normal"%string) /\
  ((exists price, swaption_formula S K A expiry sigma payer_receiver model shift
                  = Ok (Some price))
   <-> (lower payer_receiver = "payer"%string \/ lower payer_receiver = "receiver"%string)
       /\ ((lower model = "lognormal"%string /\ K + shift <> 0)
           \/ lower model = "normal"%string)) /\
  (forall e, swaption_formula S K A expiry sigma payer_receiver model shift = Raise e ->
             e = KeyError \/ e = ZeroDivisionError).
Proof.
  intros _.
  assert (Hcases :
    (lower payer_receiver <> "payer"%string /\ lower payer_receiver <> "receiver"%string /\
     swaption_formula S K A expiry sigma payer_receiver model shift = Raise KeyError) \/
    ((lower payer_receiver = "payer"%string \/ lower payer_receiver = "receiver"%string) /\
     ((lower model = "lognormal"%string /\ K + shift = 0 /\
       swaption_formula S K A expiry sigma payer_receiver model shift
       = Raise ZeroDivisionError) \/
      (lower model = "lognormal"%string /\ K + shift <> 0 /\
       exists p, swaption_formula S K A expiry sigma payer_receiver model shift
                 = Ok (Some p)) \/
      (lower model <> "lognormal"%string /\ lower model = "normal"%string /\
       exists p, swaption_formula S K A expiry sigma payer_receiver model shift
                 = Ok (Some p)) \/
      (lower model <> "lognormal"%string /\ lower model <> "normal"%string /\
       swaption_formula S K A expiry sigma payer_receiver model shift = Ok None)))).
  { unfold swaption_formula.
    destruct (getitem_w (lower payer_receiver)) as [[Hf ->] | [[Hf ->] | [Hp [Hr ->]]]];
      cbv beta iota delta [bind]; [right | right | left; now repeat split].
    all: split; [auto |].
    all: destruct (String.eqb_spec (lower model) "lognormal") as [Hm | Hm].
    all: try (destruct (Req_dec_T (K + shift) 0) as [Hz | Hz];
              [ rewrite Hz, truediv_zero; left; now repeat split
              | rewrite (truediv_ok _ _ Hz); right; left; repeat split; auto;
                eexists; reflexivity ]).
    all: destruct (String.eqb_spec (lower model) "normal") as [Hn | Hn];
      [ right; right; left; repeat split; auto; eexists; reflexivity
      | right; right; right; now repeat split ]. }
  destruct Hcases as [[Hp [Hr ->]] | [Hf [[Hm [Hz ->]] | [[Hm [Hz [p ->]]] | [[Hm [Hn [p ->]]]
                                                                       | [Hm [Hn ->]]]]]]].
  all: open_cases; repeat match goal with H : _ \/ _ |- _ => destruct H end; open_cases;
         try discriminate; try contradiction; try congruence; auto;
         try (eexists; reflexivity); try (left; congruence); try (right; congruence).
Qed.

Lemma swaption_formula_outcome_witness :
  (swaption_formula (5 / 100) (- 2 / 100) 4 5 (2 / 10) "Payer" "LogNormal" (2 / 100)
   = Raise KeyError
   <-> lower "Payer" <> "payer"%string /\ lower "Payer" <> "receiver"%string) /\
  (swaption_formula (5 / 100) (- 2 / 100) 4 5 (2 / 10) "Payer" "LogNormal" (2 / 100)
   = Raise ZeroDivisionError
   <-> (lower "Payer" = "payer"%string \/ lower "Payer" = "receiver"%string)
       /\ lower "LogNormal" = "lognormal"%string /\ - 2 / 100 + 2 / 100 = 0) /\
  (swaption_formula (5 / 100) (- 2 / 100) 4 5 (2 / 10) "Payer" "LogNormal" (2 / 100)
   = Ok None
   <-> (lower "Payer" = "payer"%string \/ lower "Payer" = "receiver"%string)
       /\ lower "LogNormal" <> "lognormal"%string /\ lower "LogNormal" <> "normal"%string) /\
  ((exists price,
      swaption_formula (5 / 100) (- 2 / 100) 4 5 (2 / 10) "Payer" "LogNormal" (2 / 100)
      = Ok (Some price))
   <-> (lower "Payer" = "payer"%string \/ lower "Payer" = "receiver"%string)
       /\ ((lower "LogNormal" = "lognormal"%string /\ - 2 / 100 + 2 / 100 <> 0)
           \/ lower "LogNormal" = "normal"%string)) /\
  (forall e,
      swaption_formula (5 / 100) (- 2 / 100) 4 5 (2 / 10) "Payer" "LogNormal" (2 / 100)
      = Raise e ->
      e = KeyError \/ e = ZeroDivisionError).
Proof.
  apply swaption_formula_outcome. apply Rabs_le_pow_safe. lra.
Defined.

(** *** Put-call parity *)

Lemma ln_swap (F K : R) : 0 < F -> 0 < K -> ln (K / F) = - ln (F / K).
Proof.
  intros HF HK. rewrite <- ln_Rinv by (apply Rdiv_lt_0_compat; assumption).
  f_equal. field. lra.
Qed.

Lemma black_parity (F K u : R) :
  0 < F -> 0 < K -> 0 < u -> black F K u - black K F u = F - K.
Proof.
  intros HF HK Hu. unfold black. rewrite (ln_swap F K HF HK).
  set (L := ln (F / K)).
  replace (- L / u + u / 2) with (- (L / u - u / 2)) by (field; lra).
  replace (- L / u - u / 2) with (- (L / u + u / 2)) by (field; lra).
  rewrite !norm_cdf_sym. ring.
Qed.

Lemma bachelier_parity (c u : R) : 0 < u -> bachelier c u - bachelier (- c) u = c.
Proof.
  intros Hu. unfold bachelier, mills_g.
  replace (- c / u) with (- (c / u)) by (field; lra).
  rewrite norm_pdf_even, norm_cdf_sym. field. lra.
Qed.

Lemma price_of_parity (lognormal : bool) (S K A expiry shift sigma : R) :
  0 < expiry -> 0 < sigma ->
  (lognormal = true -> 0 < S + shift /\ 0 < K + shift) ->
  price_of lognormal true S K A expiry shift sigma
  - price_of lognormal false S K A expiry shift sigma = A * (S - K).
Proof.
  intros HT Hs Hln. pose proof (sigma_sqrt_pos expiry sigma HT Hs) as Hu.
  destruct lognormal; simpl.
  - destruct (Hln eq_refl) as [HF HK].
    pose proof (black_parity (S + shift) (K + shift) _ HF HK Hu). nra.
  - pose proof (bachelier_parity (1 * (S - K)) _ Hu) as H.
    replace (- (1 * (S - K))) with (-1 * (S - K)) in H by ring. nra.
Qed.

Lemma model_cases (S K shift : R) (model : string) :
  (lower model = "lognormal"%string /\ 0 < S + shift /\ 0 < K + shift)
  \/ lower model = "normal"%string ->
  exists lognormal : bool,
    lower model = (if lognormal then "lognormal" else "normal")%string
    /\ (lognormal = true -> 0 < S + shift /\ 0 < K + shift).
Proof.
  intros [[H Hpos] | H]; [exists true | exists false]; split; auto. discriminate.
Qed.

(** X3. Put-call parity: the payer price minus the receiver price is the
    value [A (S - K)] of the forward swap, in both models. *)
Theorem swaption_formula_parity (S K A expiry sigma shift : R) (model : string) :
  0 < expiry -> 0 < sigma ->
  (lower model = "lognormal"%string /\ 0 < S + shift /\ 0 < K + shift)
  \/ lower model = "normal"%string ->
  exists p r,
    swaption_formula S K A expiry sigma "payer" model shift = Ok (Some p) /\
    swaption_formula S K A expiry sigma "receiver" model shift = Ok (Some r) /\
    p - r = A * (S - K).
Proof.
  intros HT Hs Hmodel.
  destruct (model_cases S K shift model Hmodel) as [lognormal [Hm Hpos]].
  exists (price_of lognormal true S K A expiry shift sigma),
         (price_of lognormal false S K A expiry shift sigma).
  split; [| split].
  - apply swaption_formula_eq; auto.
  - apply swaption_formula_eq; auto.
  - apply price_of_parity; assumption.
Qed.

Lemma swaption_formula_parity_witness :
  exists p r,
    swaption_formula (5 / 100) (45 / 1000) 4 5 (2 / 10) "payer" "lognormal" (2 / 100)
    = Ok (Some p) /\
    swaption_formula (5 / 100) (45 / 1000) 4 5 (2 / 10) "receiver" "lognormal" (2 / 100)
    = Ok (Some r) /\
    p - r = 4 * (5 / 100 - 45 / 1000).
Proof.
  apply swaption_formula_parity.
  - lra.
  - lra.
  - left. split; [reflexivity | split; lra].
Defined.

(** *** Payer and receiver are mirror images *)

Lemma price_of_mirror (lognormal : bool) (S K A expiry shift sigma : R) :
  price_of lognormal false S K A expiry shift sigma
  = price_of lognormal true K S A expiry shift sigma.
Proof.
  destruct lognormal; simpl; [reflexivity |].
  f_equal. f_equal. ring.
Qed.

(** X4. A receiver swaption on [(S, K)] has the price of the payer
    swaption with rate and strike exchanged. *)
Theorem swaption_formula_receiver_mirror (S K A expiry sigma shift : R)
    (receiver payer model : string) :
  lower receiver = "receiver"%string -> lower payer = "payer"%string ->
  0 < expiry -> 0 < sigma ->
  (lower model = "lognormal"%string /\ 0 < S + shift /\ 0 < K + shift)
  \/ lower model = "normal"%string ->
  swaption_formula S K A expiry sigma receiver model shift
  = swaption_formula K S A expiry sigma payer model shift.
Proof.
  intros Hr Hp HT Hs Hmodel.
  destruct (model_cases S K shift model Hmodel) as [lognormal [Hm Hpos]].
  rewrite (swaption_formula_eq lognormal false S K A expiry shift sigma receiver model)
    by assumption.
  rewrite (swaption_formula_eq lognormal true K S A expiry shift sigma payer model);
    try assumption.
  - now rewrite price_of_mirror.
  - intros E. destruct (Hpos E). now split.
Qed.

Lemma swaption_formula_receiver_mirror_witness :
  swaption_formula (5 / 100) (45 / 1000) 4 5 (2 / 10) "Receiver" "normal" 0
  = swaption_formula (45 / 1000) (5 / 100) 4 5 (2 / 10) "Payer" "normal" 0.
Proof.
  apply swaption_formula_receiver_mirror.
  - reflexivity.
  - reflexivity.
  - lra.
  - lra.
  - right. reflexivity.
Defined.


(** *** Bounds *)








(** *** The sign of the delta *)








(** *** At the money *)





End SwaptionMore.

(** ** CMS.ipynb *)

Section CMSMore.

Import CMS CMSValue Toy.

(** *** The mean-reversion factor [G] *)

Lemma G_val_strict_incr (tau1 tau2 kappa : R) :
  tau1 < tau2 -> G_val tau1 kappa < G_val tau2 kappa.
Proof.
  intros H. unfold G_val. destruct (Rlt_dec 0 kappa) as [Hk | _]; [| exact H].
  apply Rmult_lt_compat_r; [apply Rinv_0_lt_compat; exact Hk |].
  assert (exp (- kappa * tau2) < exp (- kappa * tau1)) by (apply exp_increasing; nra). lra.
Qed.

Lemma G_val_incr (tau1 tau2 kappa : R) :
  tau1 <= tau2 -> G_val tau1 kappa <= G_val tau2 kappa.
Proof.
  intros [H | ->]; [left; now apply G_val_strict_incr | lra].
Qed.

(** *** Degenerate schedules *)

Lemma periods_short (e : Env) :
  (List.length (fixedSchedule (swp e)) < 2)%nat -> periods e = [].
Proof.
  unfold periods, enumerate.
  destruct (fixedSchedule (swp e)) as [| d0 [| d1 t]]; simpl; intros H; try reflexivity; lia.
Qed.

(** X9. With fewer than two schedule dates the annuity is an empty sum and
    the cell stops at the division by it. *)
Theorem cms_rate_short_schedule (e : Env) :
  (List.length (fixedSchedule (swp e)) < 2)%nat ->
  annuity e = 0 /\ cms_rate e = Raise ZeroDivisionError.
Proof.
  intros Hlen.
  assert (HA : annuity e = 0) by (unfold annuity; now rewrite (periods_short e Hlen)).
  split; [exact HA |].
  unfold cms_rate. rewrite HA, gamma_eq. unfold gamma_terms.
  rewrite (periods_short e Hlen). simpl. rewrite truediv_zero. reflexivity.
Qed.

Lemma cms_rate_short_schedule_witness :
  annuity {| today := 0%Z; T0 := 0%Z; Tp := 0%Z; TN := 0%Z; sigma := 1; shift := 0;
             kappa := 0; discount_curve := zero_rates;
             swp := {| fixedSchedule := [360%Z]; fixedDayCount := year360; fairRate := 1 |};
             thirty360 := year360 |} = 0 /\
  cms_rate {| today := 0%Z; T0 := 0%Z; Tp := 0%Z; TN := 0%Z; sigma := 1; shift := 0;
              kappa := 0; discount_curve := zero_rates;
              swp := {| fixedSchedule := [360%Z]; fixedDayCount := year360; fairRate := 1 |};
              thirty360 := year360 |} = Raise ZeroDivisionError.
Proof. apply cms_rate_short_schedule. simpl. lia. Defined.

(** *** The value on a well-posed input *)

Lemma cms_rate_well_posed (e : Env) :
  well_posed e ->
  0 < annuity e /\ 0 < discount (discount_curve e) (Tp e) /\ 0 < tsr_denominator e /\
  cms_rate e
  = Ok (S e + annuity e / discount (discount_curve e) (Tp e) * tsr_a e * var e).
Proof.
  intros W.
  pose proof (annuity_pos e W) as HA.
  pose proof (gamma_terms_pos e W) as HG.
  pose proof (wp_discount e W (Tp e)) as HB.
  pose proof (wp_discount e W (TN e)) as HN.
  pose proof (G_val_pos _ (kappa e) (wp_TN e W)) as HGN.
  pose proof (wp_rate e W) as HS.
  assert (Hg : 0 < tsr_gamma e) by (apply Rdiv_lt_0_compat; assumption).
  assert (Hden : 0 < tsr_denominator e).
  { unfold tsr_denominator.
    assert (0 < discount (discount_curve e) (TN e)
                * G_val (yearfrac e (T0 e) (TN e)) (kappa e))
      by (apply Rmult_lt_0_compat; assumption).
    assert (0 <= annuity e * S e * tsr_gamma e).
    { apply Rmult_le_pos; [apply Rmult_le_pos |]; lra. }
    lra. }
  repeat split; try assumption.
  apply (cms_rate_eq e (tsr_gamma e)).
  - rewrite gamma_eq. apply truediv_ok. lra.
  - rewrite a_eq. apply truediv_ok. fold (tsr_denominator e). lra.
  - lra.
Qed.

Lemma var_expr_nonneg (S0 s sg t : R) : 0 <= t -> 0 <= var_expr S0 s sg t.
Proof.
  intros Ht. unfold var_expr. apply Rmult_le_pos; [apply pow2_ge_0 |].
  assert (exp 0 <= exp (sg ^ 2 * t)).
  { apply exp_le. apply Rmult_le_pos; [apply pow2_ge_0 | exact Ht]. }
  rewrite exp_0 in H. lra.
Qed.

(** A weighted sum with non-negative weights is bounded by the bounds
    of its values times the total weight. *)
Lemma sum_weighted_ge {A : Type} (w v : A -> R) (lo : R) (l : list A) :
  (forall p, In p l -> 0 <= w p /\ lo <= v p) ->
  lo * sum (map w l) <= sum (map (fun p => w p * v p) l).
Proof.
  induction l as [| p t IH]; intros H; simpl; [lra |].
  destruct (H p (or_introl eq_refl)) as [Hw Hv].
  assert (IH' := IH (fun q Hq => H q (or_intror Hq))). nra.
Qed.

Lemma sum_weighted_le {A : Type} (w v : A -> R) (hi : R) (l : list A) :
  (forall p, In p l -> 0 <= w p /\ v p <= hi) ->
  sum (map (fun p => w p * v p) l) <= hi * sum (map w l).
Proof.
  induction l as [| p t IH]; intros H; simpl; [lra |].
  destruct (H p (or_introl eq_refl)) as [Hw Hv].
  assert (IH' := IH (fun q Hq => H q (or_intror Hq))). nra.
Qed.

Lemma period_weight_pos (e : Env) (p : nat * Date) :
  well_posed e -> In p (periods e) ->
  0 <= yearfrac e (schedule_at e (fst p - 1)) (snd p) * discount (discount_curve e) (snd p).
Proof.
  intros W Hp. apply in_periods in Hp. destruct Hp as [Hr Hs]. rewrite Hs.
  left. apply Rmult_lt_0_compat; [apply (wp_accrual e W); exact Hr | apply (wp_discount e W)].
Qed.

Lemma tsr_gamma_ge (e : Env) (lo : R) :
  well_posed e ->
  (forall i, (0 < i < List.length (fixedSchedule (swp e)))%nat ->
             lo <= G_val (yearfrac e (T0 e) (schedule_at e i)) (kappa e)) ->
  lo <= tsr_gamma e.
Proof.
  intros W Hb. pose proof (annuity_pos e W) as HA.
  pose proof (sum_weighted_ge
                (fun p => yearfrac e (schedule_at e (fst p - 1)) (snd p)
                          * discount (discount_curve e) (snd p))
                (fun p => G_val (yearfrac e (T0 e) (snd p)) (kappa e)) lo (periods e)) as H.
  cbv beta in H. fold (annuity e) in H. fold (gamma_terms e) in H.
  assert (H1 := H (fun p Hp => conj (period_weight_pos e p W Hp)
                     (eq_ind_r (fun d => lo <= G_val (yearfrac e (T0 e) d) (kappa e))
                        (Hb _ (proj1 (in_periods e p Hp))) (proj2 (in_periods e p Hp))))).
  unfold tsr_gamma.
  set (A := annuity e) in *. set (N := sum (gamma_terms e)) in *.
  apply Rmult_le_reg_r with A; [exact HA |].
  replace (N / A * A) with N by (field; lra). lra.
Qed.

Lemma tsr_gamma_le (e : Env) (hi : R) :
  well_posed e ->
  (forall i, (0 < i < List.length (fixedSchedule (swp e)))%nat ->
             G_val (yearfrac e (T0 e) (schedule_at e i)) (kappa e) <= hi) ->
  tsr_gamma e <= hi.
Proof.
  intros W Hb. pose proof (annuity_pos e W) as HA.
  pose proof (sum_weighted_le
                (fun p => yearfrac e (schedule_at e (fst p - 1)) (snd p)
                          * discount (discount_curve e) (snd p))
                (fun p => G_val (yearfrac e (T0 e) (snd p)) (kappa e)) hi (periods e)) as H.
  cbv beta in H. fold (annuity e) in H. fold (gamma_terms e) in H.
  assert (H1 := H (fun p Hp => conj (period_weight_pos e p W Hp)
                     (eq_ind_r (fun d => G_val (yearfrac e (T0 e) d) (kappa e) <= hi)
                        (Hb _ (proj1 (in_periods e p Hp))) (proj2 (in_periods e p Hp))))).
  unfold tsr_gamma.
  set (A := annuity e) in *. set (N := sum (gamma_terms e)) in *.
  apply Rmult_le_reg_r with A; [exact HA |].
  replace (N / A * A) with N by (field; lra). lra.
Qed.

Lemma tsr_gamma_bounds (e : Env) (lo hi : R) :
  well_posed e ->
  (forall i, (0 < i < List.length (fixedSchedule (swp e)))%nat ->
             lo <= G_val (yearfrac e (T0 e) (schedule_at e i)) (kappa e) <= hi) ->
  lo <= tsr_gamma e <= hi.
Proof.
  intros W Hb. split.
  - apply tsr_gamma_ge; [exact W | intros i Hi; apply (Hb i Hi)].
  - apply tsr_gamma_le; [exact W | intros i Hi; apply (Hb i Hi)].
Qed.

(** X10. [gamma] is a weighted average of the values
    [G(yearfrac(T0, T_i), kappa)] over the payment dates. *)
Theorem gamma_weighted_average (e : Env) (lo hi : R) :
  well_posed e ->
  (forall i, (0 < i < List.length (fixedSchedule (swp e)))%nat ->
             lo <= G_val (yearfrac e (T0 e) (schedule_at e i)) (kappa e) <= hi) ->
  exists g, gamma e (annuity e) = Ok g /\ lo <= g <= hi.
Proof.
  intros W Hb. exists (tsr_gamma e). split.
  - rewrite gamma_eq. apply truediv_ok. pose proof (annuity_pos e W). lra.
  - apply tsr_gamma_bounds; assumption.
Qed.

Lemma gamma_weighted_average_witness :
  exists g, gamma (toy_env (3 / 100)) (annuity (toy_env (3 / 100))) = Ok g /\ 1 <= g <= 3.
Proof.
  apply (gamma_weighted_average (toy_env (3 / 100)) 1 3 toy_well_posed).
  intros i Hi. simpl in Hi.
  assert (Hc : i = 1%nat \/ i = 2%nat \/ i = 3%nat) by lia.
  destruct Hc as [-> | [-> | ->]]; unfold G_val, yearfrac, schedule_at; simpl;
    destruct (Rlt_dec 0 0); lra.
Defined.


(** *** The sign of the convexity adjustment *)

Lemma tsr_a_sign (e : Env) :
  well_posed e ->
  (G_val (yearfrac e (T0 e) (Tp e)) (kappa e) <= tsr_gamma e -> 0 <= tsr_a e) /\
  (tsr_gamma e <= G_val (yearfrac e (T0 e) (Tp e)) (kappa e) -> tsr_a e <= 0).
Proof.
  intros W. destruct (cms_rate_well_posed e W) as [HA [HB [Hden _]]].
  unfold tsr_a.
  assert (Hi : 0 < / tsr_denominator e) by (apply Rinv_0_lt_compat; exact Hden).
  set (d := tsr_gamma e - G_val (yearfrac e (T0 e) (Tp e)) (kappa e)).
  split; intros H.
  - assert (0 <= d) by (unfold d; lra).
    apply Rmult_le_pos; [apply Rmult_le_pos |]; lra.
  - assert (Hd : d <= 0) by (unfold d; lra).
    assert (0 <= discount (discount_curve e) (Tp e) * - d) by (apply Rmult_le_pos; lra).
    unfold Rdiv. nra.
Qed.

(** X11. On a well-posed input observed no later than [T0], the CMS rate
    is at least the forward swap rate when the payment date [Tp] is no
    later (in year fraction from [T0]) than every coupon date of the
    swap, and at most the forward swap rate when it is no earlier than
    every coupon date. *)
Theorem cms_rate_adjustment_sign (e : Env) :
  well_posed e -> 0 <= yearfrac e (today e) (T0 e) ->
  exists r,
    cms_rate e = Ok r /\
    ((forall i, (0 < i < List.length (fixedSchedule (swp e)))%nat ->
                yearfrac e (T0 e) (Tp e) <= yearfrac e (T0 e) (schedule_at e i)) ->
     S e <= r) /\
    ((forall i, (0 < i < List.length (fixedSchedule (swp e)))%nat ->
                yearfrac e (T0 e) (schedule_at e i) <= yearfrac e (T0 e) (Tp e)) ->
     r <= S e).
Proof.
  intros W Ht. destruct (cms_rate_well_posed e W) as [HA [HB [Hden Hr]]].
  destruct (tsr_a_sign e W) as [Hpos Hneg].
  pose proof (var_expr_nonneg (S e) (shift e) (sigma e) _ Ht) as Hv. fold (var e) in Hv.
  assert (Hq : 0 < annuity e / discount (discount_curve e) (Tp e))
    by (apply Rdiv_lt_0_compat; assumption).
  eexists. split; [exact Hr |]. split; intros Hc.
  - assert (Ha : 0 <= tsr_a e).
    { apply Hpos. apply (tsr_gamma_ge e _ W).
      intros i Hi. apply G_val_incr, Hc. exact Hi. }
    assert (0 <= annuity e / discount (discount_curve e) (Tp e) * tsr_a e)
      by (apply Rmult_le_pos; lra).
    nra.
  - assert (Ha : tsr_a e <= 0).
    { apply Hneg. apply (tsr_gamma_le e _ W).
      intros i Hi. apply G_val_incr, Hc. exact Hi. }
    assert (0 <= annuity e / discount (discount_curve e) (Tp e) * - tsr_a e)
      by (apply Rmult_le_pos; lra).
    nra.
Qed.

Lemma cms_rate_adjustment_sign_witness :
  exists r,
    cms_rate (toy_env (3 / 100)) = Ok r /\
    ((forall i, (0 < i < List.length (fixedSchedule (swp (toy_env (3 / 100)))))%nat ->
                yearfrac (toy_env (3 / 100)) (T0 (toy_env (3 / 100))) (Tp (toy_env (3 / 100)))
                <= yearfrac (toy_env (3 / 100)) (T0 (toy_env (3 / 100)))
                     (schedule_at (toy_env (3 / 100)) i)) ->
     S (toy_env (3 / 100)) <= r) /\
    ((forall i, (0 < i < List.length (fixedSchedule (swp (toy_env (3 / 100)))))%nat ->
                yearfrac (toy_env (3 / 100)) (T0 (toy_env (3 / 100)))
                  (schedule_at (toy_env (3 / 100)) i)
                <= yearfrac (toy_env (3 / 100)) (T0 (toy_env (3 / 100)))
                     (Tp (toy_env (3 / 100)))) ->
     r <= S (toy_env (3 / 100))).
Proof.
  apply (cms_rate_adjustment_sign (toy_env (3 / 100)) toy_well_posed).
  unfold yearfrac. simpl. lra.
Defined.

(** *** No adjustment without variance *)

(** X12. On a well-posed input with zero volatility, zero time to [T0] or
    a zero shifted rate, the cell returns the forward swap rate. *)
Theorem cms_rate_no_adjustment (e : Env) :
  well_posed e ->
  sigma e = 0 \/ yearfrac e (today e) (T0 e) = 0 \/ S e + shift e = 0 ->
  cms_rate e = Ok (S e).
Proof.
  intros W Hz. destruct (cms_rate_well_posed e W) as [_ [_ [_ ->]]].
  assert (Hv : var e = 0).
  { unfold var, var_expr. destruct Hz as [-> | [-> | ->]].
    - replace (0 ^ 2 * yearfrac e (today e) (T0 e)) with 0 by ring. rewrite exp_0. ring.
    - rewrite Rmult_0_r, exp_0. ring.
    - ring. }
  rewrite Hv. f_equal. ring.
Qed.

Lemma cms_rate_no_adjustment_witness :
  cms_rate {| today := 720%Z; T0 := 720%Z; Tp := 1080%Z; TN := 1800%Z;
              sigma := 6 / 10; shift := 2 / 100; kappa := 0;
              discount_curve := zero_rates;
              swp := {| fixedSchedule := [720; 1080; 1440; 1800]%Z;
                        fixedDayCount := year360; fairRate := 3 / 100 |};
              thirty360 := year360 |} = Ok (3 / 100).
Proof.
  apply (cms_rate_no_adjustment
           {| today := 720%Z; T0 := 720%Z; Tp := 1080%Z; TN := 1800%Z;
              sigma := 6 / 10; shift := 2 / 100; kappa := 0;
              discount_curve := zero_rates;
              swp := {| fixedSchedule := [720; 1080; 1440; 1800]%Z;
                        fixedDayCount := year360; fairRate := 3 / 100 |};
              thirty360 := year360 |}).
  - constructor; simpl.
    + lia.
    + intros _. lra.
    + intros i Hi. assert (Hc : i = 1%nat \/ i = 2%nat \/ i = 3%nat) by lia.
      destruct Hc as [-> | [-> | ->]]; unfold yearfrac, schedule_at; simpl; lra.
    + intros i Hi. assert (Hc : i = 1%nat \/ i = 2%nat \/ i = 3%nat) by lia.
      destruct Hc as [-> | [-> | ->]]; unfold yearfrac, schedule_at; simpl; lra.
    + unfold yearfrac; simpl; lra.
    + unfold S; simpl; lra.
  - right. left. unfold yearfrac. simpl. lra.
Defined.

(** *** The annuity of [Swaption.ipynb] *)

Lemma enumerate_from_one {A : Type} (k : nat) (t : list A) :
  (1 <= k)%nat ->
  filter (fun p : nat * A => (0 <? fst p)%nat) (combine (seq k (List.length t)) t)
  = combine (seq k (List.length t)) t
  /\ map snd (combine (seq k (List.length t)) t) = t.
Proof.
  revert k. induction t as [| d t IH]; intros k Hk; simpl; [now split |].
  destruct (IH (Datatypes.S k)) as [IH1 IH2]; [lia |].
  destruct k as [| k']; [lia |]. simpl. rewrite IH1, IH2. now split.
Qed.

Lemma periods_dates (e : Env) : map snd (periods e) = tl (fixedSchedule (swp e)).
Proof.
  unfold periods, enumerate.
  destruct (fixedSchedule (swp e)) as [| d0 t]; [reflexivity |].
  simpl. destruct (enumerate_from_one 1 t (le_n 1)) as [H1 H2].
  rewrite H1. exact H2.
Qed.

(** X13. With accrual fractions all equal to one year, the annuity of
    [CMS.ipynb] is the annuity of [Swaption.ipynb]: the sum of the
    discount factors at the schedule dates after the first. *)
Theorem annuity_cells_agree (e : Env) :
  (forall i, (0 < i < List.length (fixedSchedule (swp e)))%nat ->
             yearfrac e (schedule_at e (i - 1)) (schedule_at e i) = 1) ->
  annuity e = SwaptionCell.annuity (discount_curve e) (swp e)
  /\ annuity e = sum (map (discount (discount_curve e)) (tl (fixedSchedule (swp e)))).
Proof.
  intros H1.
  assert (E : annuity e = sum (map (discount (discount_curve e)) (tl (fixedSchedule (swp e))))).
  { unfold annuity. rewrite <- periods_dates, map_map. f_equal.
    apply map_ext_in. intros p Hp.
    destruct (in_periods e p Hp) as [Hr Hs]. rewrite Hs at 1. rewrite Hs at 1.
    rewrite (H1 _ Hr). rewrite <- Hs. ring. }
  split; [| exact E]. rewrite E. unfold SwaptionCell.annuity, SwaptionCell.yearfrac.
  destruct (fixedSchedule (swp e)) as [| d0 t]; [reflexivity |].
  simpl. f_equal. apply map_ext. intros d. ring.
Qed.

Lemma annuity_cells_agree_witness :
  annuity (toy_env (3 / 100))
  = SwaptionCell.annuity (discount_curve (toy_env (3 / 100))) (swp (toy_env (3 / 100)))
  /\ annuity (toy_env (3 / 100))
     = sum (map (discount (discount_curve (toy_env (3 / 100))))
              (tl (fixedSchedule (swp (toy_env (3 / 100)))))).
Proof.
  apply annuity_cells_agree.
  intros i Hi. simpl in Hi. assert (Hc : i = 1%nat \/ i = 2%nat \/ i = 3%nat) by lia.
  destruct Hc as [-> | [-> | ->]]; unfold yearfrac, schedule_at; simpl; lra.
Defined.

End CMSMore.

(** ** CMS_spread_options.ipynb *)

Section SpreadMore.

Import Spread Toy SpreadCell.

(** *** The annuity function [psi] *)

Lemma sum_lt {A : Type} (f g : A -> R) (l : list A) :
  l <> [] -> (forall p, In p l -> f p < g p) -> sum (map f l) < sum (map g l).
Proof.
  induction l as [| p t IH]; intros Hne H; [now elim Hne |].
  simpl. pose proof (H p (or_introl eq_refl)) as Hp.
  destruct t as [| q t'].
  - simpl. lra.
  - assert (sum (map f (q :: t')) < sum (map g (q :: t'))).
    { apply IH; [discriminate | intros r Hr; apply H; now right]. }
    lra.
Qed.

Lemma in_psi_terms (swap : VanillaSwap) (p : nat * Date) :
  regular swap -> In p (enumerate 1 (tl (fixedSchedule swap))) ->
  0 < yearFraction (fixedDayCount swap) (nth (fst p - 1) (fixedSchedule swap) 0%Z) (snd p)
  /\ 0 < yearFraction (fixedDayCount swap) (nth 0 (fixedSchedule swap) 0%Z) (snd p).
Proof.
  intros [Hlen Hreg] Hin. apply (in_enumerate (0%Z : Date)) in Hin. destruct Hin as [Hr Hs].
  assert (Hi : (0 < fst p < List.length (fixedSchedule swap))%nat).
  { destruct (fixedSchedule swap) as [| d0 t]; simpl in *; unfold Date in *; lia. }
  assert (Hn : snd p = nth (fst p) (fixedSchedule swap) 0%Z).
  { rewrite Hs. destruct (fixedSchedule swap) as [| d0 t]; simpl in *; [lia |].
    destruct (fst p) as [| k]; [lia |]. simpl. now rewrite Nat.sub_0_r. }
  rewrite Hn. apply Hreg. exact Hi.
Qed.

Lemma psi_terms_nonempty (swap : VanillaSwap) :
  regular swap -> enumerate 1 (tl (fixedSchedule swap)) <> [].
Proof.
  intros [Hlen _]. unfold enumerate.
  destruct (fixedSchedule swap) as [| d0 [| d1 t]]; simpl in *; try lia. discriminate.
Qed.

Lemma Rpower_pos (x y : R) : 0 < Rpower x y.
Proof. unfold Rpower. apply exp_pos. Qed.

Lemma psi_of_pos (swap : VanillaSwap) (y : R) : regular swap -> 0 < psi_of swap y.
Proof.
  intros Hreg. unfold psi_of, psi_val. apply sum_pos.
  - intros E. apply map_eq_nil in E. now apply (psi_terms_nonempty swap Hreg).
  - intros x Hx. apply in_map_iff in Hx. destruct Hx as [p [<- Hp]].
    destruct (in_psi_terms swap p Hreg Hp) as [Hc _].
    apply Rdiv_lt_0_compat; [exact Hc | apply Rpower_pos].
Qed.

Lemma psi_of_decr (swap : VanillaSwap) (y1 y2 : R) :
  regular swap -> 0 < 1 + y1 -> y1 < y2 -> psi_of swap y2 < psi_of swap y1.
Proof.
  intros Hreg Hb H12. unfold psi_of, psi_val.
  apply sum_lt; [apply (psi_terms_nonempty swap Hreg) |].
  intros p Hp. destruct (in_psi_terms swap p Hreg Hp) as [Hc Ht].
  unfold float_pow. unfold Rdiv. apply Rmult_lt_compat_l; [exact Hc |].
  apply Rinv_lt_contravar.
  - apply Rmult_lt_0_compat; apply Rpower_pos.
  - apply Rlt_Rpower_l; [exact Ht | lra].
Qed.

(** Each term of [psi] is strictly convex in the yield. *)
Lemma inv_Rpower_convex (b h t : R) :
  0 < t -> 0 < h -> 0 < b - h ->
  2 * / Rpower b t < / Rpower (b + h) t + / Rpower (b - h) t.
Proof.
  intros Ht Hh Hb.
  set (m := Rpower b t). set (p := Rpower (b + h) t). set (q := Rpower (b - h) t).
  assert (Hm : 0 < m) by apply Rpower_pos.
  assert (Hp : 0 < p) by apply Rpower_pos.
  assert (Hq : 0 < q) by apply Rpower_pos.
  assert (Hpq : p * q < m * m).
  { unfold p, q, m. rewrite !Rpower_mult_distr by lra.
    apply Rlt_Rpower_l; [exact Ht |]. split; [apply Rmult_lt_0_compat; lra | nra]. }
  assert (Hs : 2 * (p * q) < m * (p + q)).
  { destruct (Rlt_le_dec (2 * (p * q)) (m * (p + q))) as [H | H]; [exact H | exfalso].
    assert (H1 : (m * (p + q)) * (m * (p + q)) <= (2 * (p * q)) * (2 * (p * q))).
    { apply Rmult_le_compat; nra. }
    assert (H2 : 4 * (p * q) <= (p + q) * (p + q)).
    { pose proof (pow2_ge_0 (p - q)). nra. }
    assert (H3 : 0 < p * q) by (apply Rmult_lt_0_compat; assumption).
    assert (H4 : (p * q) * (4 * (p * q)) < (m * m) * ((p + q) * (p + q))).
    { apply Rle_lt_trans with ((p * q) * ((p + q) * (p + q))).
      - apply Rmult_le_compat_l; lra.
      - apply Rmult_lt_compat_r; [nra | exact Hpq]. }
    nra. }
  apply Rmult_lt_reg_r with (m * (p * q)).
  - apply Rmult_lt_0_compat; [exact Hm | apply Rmult_lt_0_compat; assumption].
  - replace (2 * / m * (m * (p * q))) with (2 * (p * q)) by (field; lra).
    replace ((/ p + / q) * (m * (p * q))) with (m * (p + q)) by (field; lra).
    exact Hs.
Qed.

Lemma psi_of_convex (swap : VanillaSwap) (y h : R) :
  regular swap -> 0 < h -> 0 < 1 + y - h ->
  2 * psi_of swap y < psi_of swap (y + h) + psi_of swap (y - h).
Proof.
  intros Hreg Hh Hb. unfold psi_of, psi_val.
  assert (Hsum : forall (f g : nat * Date -> R) (l : list (nat * Date)),
             sum (map f l) + sum (map g l) = sum (map (fun p => f p + g p) l)).
  { intros f g l0. induction l0 as [| p t0 IH]; simpl; [lra | rewrite <- IH; lra]. }
  assert (Hscal : forall (f : nat * Date -> R) (l : list (nat * Date)),
             2 * sum (map f l) = sum (map (fun p => 2 * f p) l)).
  { intros f l0. induction l0 as [| p t0 IH]; simpl; [lra | rewrite <- IH; lra]. }
  rewrite Hsum, Hscal.
  apply sum_lt; [apply (psi_terms_nonempty swap Hreg) |].
  intros p Hp. destruct (in_psi_terms swap p Hreg Hp) as [Hc Ht].
  unfold float_pow.
  set (c := yearFraction (fixedDayCount swap) (nth (fst p - 1) (fixedSchedule swap) 0%Z)
              (snd p)) in *.
  set (t := yearFraction (fixedDayCount swap) (nth 0 (fixedSchedule swap) 0%Z) (snd p)) in *.
  pose proof (inv_Rpower_convex (1 + y) h t Ht Hh Hb) as Hcv.
  replace (1 + (y + h)) with (1 + y + h) by ring.
  replace (1 + (y - h)) with (1 + y - h) by ring.
  set (im := / Rpower (1 + y) t) in *. set (ip := / Rpower (1 + y + h) t) in *.
  set (iq := / Rpower (1 + y - h) t) in *.
  unfold Rdiv. fold im ip iq. nra.
Qed.

(** X14. On a regular swap, [psi] returns a positive value that is
    strictly decreasing in the yield, wherever the base [1 + y] is
    positive. *)
Theorem psi_positive_decreasing (swap : VanillaSwap) (curve : YieldTermStructure) (y1 y2 : R) :
  regular swap -> 0 < 1 + y1 -> y1 < y2 ->
  exists v1 v2,
    psi y1 curve (fixedDayCount swap) (fixedSchedule swap) = Ok v1 /\
    psi y2 curve (fixedDayCount swap) (fixedSchedule swap) = Ok v2 /\
    0 < v2 < v1.
Proof.
  intros Hreg Hb H12. exists (psi_of swap y1), (psi_of swap y2).
  split; [apply psi_eq |]. split; [apply psi_eq |]. split.
  - apply psi_of_pos. exact Hreg.
  - apply psi_of_decr; assumption.
Qed.

Lemma toy_regular : regular toy_swap.
Proof.
  split; [simpl; lia |]. intros i Hi. simpl in Hi.
  assert (i = 1%nat) as -> by lia. simpl. lra.
Defined.

Lemma psi_positive_decreasing_witness :
  exists v1 v2,
    psi (1 / 100) zero_rates (fixedDayCount toy_swap) (fixedSchedule toy_swap) = Ok v1 /\
    psi (2 / 100) zero_rates (fixedDayCount toy_swap) (fixedSchedule toy_swap) = Ok v2 /\
    0 < v2 < v1.
Proof. apply (psi_positive_decreasing toy_swap); [exact toy_regular | lra | lra]. Defined.


(** *** The outcomes of [get_drift] *)

Lemma get_drift_steps (today : Date) (swap : VanillaSwap) (curve : YieldTermStructure)
    (sigma h : R) :
  get_drift today swap curve sigma h
  = (first <- getindex (fixedSchedule swap) 0 ;;
     q <- truediv (0.5 * fairRate swap ^ 2 * sigma ^ 2
                   * yearFraction (fixedDayCount swap) today first
                   * central_second (psi_of swap) (fairRate swap) 0.0001)
                  (central_first (psi_of swap) (fairRate swap) 0.0001) ;;
     inv <- truediv 1 (yearFraction (fixedDayCount swap) today first) ;;
     ratio <- truediv (fairRate swap - q) (fairRate swap) ;;
     Ok (inv * ln ratio)).
Proof.
  unfold get_drift. rewrite !psi_eq. cbv beta iota zeta delta [bind].
  rewrite truediv_ok by lra. cbv beta iota zeta delta [bind].
  rewrite truediv_ok by (apply pow_nonzero; lra). reflexivity.
Qed.

Lemma get_drift_cases (today : Date) (swap : VanillaSwap) (curve : YieldTermStructure)
    (sigma h : R) :
  (fixedSchedule swap = [] /\ get_drift today swap curve sigma h = Raise IndexError) \/
  (fixedSchedule swap <> [] /\
   ((central_first (psi_of swap) (fairRate swap) 0.0001 = 0
     \/ yearFraction (fixedDayCount swap) today (nth 0 (fixedSchedule swap) 0%Z) = 0
     \/ fairRate swap = 0) /\
    get_drift today swap curve sigma h = Raise ZeroDivisionError
    \/
    (central_first (psi_of swap) (fairRate swap) 0.0001 <> 0
     /\ yearFraction (fixedDayCount swap) today (nth 0 (fixedSchedule swap) 0%Z) <> 0
     /\ fairRate swap <> 0) /\
    exists mu, get_drift today swap curve sigma h = Ok mu)).
Proof.
  rewrite get_drift_steps.
  destruct (fixedSchedule swap) as [| first rest] eqn:Hs; [left; now split | right].
  split; [discriminate |].
  unfold getindex. simpl nth_error. simpl nth. cbv beta iota zeta delta [bind].
  destruct (Req_dec_T (central_first (psi_of swap) (fairRate swap) 0.0001) 0) as [Hc | Hc].
  { left. split; [now left |]. rewrite Hc, truediv_zero. reflexivity. }
  rewrite (truediv_ok _ _ Hc). cbv beta iota zeta delta [bind].
  destruct (Req_dec_T (yearFraction (fixedDayCount swap) today first) 0) as [Ht | Ht].
  { left. split; [right; now left |]. rewrite Ht, truediv_zero. reflexivity. }
  rewrite (truediv_ok _ _ Ht). cbv beta iota zeta delta [bind].
  destruct (Req_dec_T (fairRate swap) 0) as [Hr | Hr].
  { left. split; [right; now right |]. unfold truediv at 1.
    destruct (Req_dec_T (fairRate swap) 0) as [_ | N]; [reflexivity | contradiction]. }
  rewrite (truediv_ok _ _ Hr). cbv beta iota zeta delta [bind].
  right. split; [now repeat split |]. eexists. reflexivity.
Qed.

Lemma psi_of_single_date (swap : VanillaSwap) (d : Date) (y : R) :
  fixedSchedule swap = [d] -> psi_of swap y = 0.
Proof.
  intros Hs. unfold psi_of, psi_val. rewrite Hs. reflexivity.
Qed.

(** X15. On a schedule too short to hold a period [get_drift] fails.  It
    raises [IndexError] on an empty schedule, and on no other.  On a
    schedule of a single date [psi] sums nothing, [psi_prime] is zero
    and the division by it raises [ZeroDivisionError].  [S0] and
    [sigma] are taken of at most [1e154] in absolute value: their
    squares are computed before that division, and raise
    [OverflowError] beyond the range of the floats. *)
Theorem get_drift_short_schedule (today : Date) (swap : VanillaSwap)
    (curve : YieldTermStructure) (sigma h : R) :
  Rabs (fairRate swap) <= pow_safe -> Rabs sigma <= pow_safe ->
  (get_drift today swap curve sigma h = Raise IndexError <-> fixedSchedule swap = []) /\
  (forall d, fixedSchedule swap = [d] ->
             get_drift today swap curve sigma h = Raise ZeroDivisionError).
Proof.
  intros _ _. split.
  - destruct (get_drift_cases today swap curve sigma h)
      as [[Hs ->] | [Hs [[Hz ->] | [_ [mu ->]]]]].
    + split; intros _; [exact Hs | reflexivity].
    + split; [discriminate | contradiction].
    + split; [discriminate | contradiction].
  - intros d Hs.
    destruct (get_drift_cases today swap curve sigma h)
      as [[Hs' _] | [_ [[_ E] | [[Hc _] _]]]].
    + rewrite Hs in Hs'. discriminate.
    + exact E.
    + exfalso. apply Hc. unfold central_first.
      rewrite !(psi_of_single_date swap d _ Hs). lra.
Qed.

Lemma get_drift_short_schedule_witness :
  (get_drift 0%Z {| fixedSchedule := [360%Z]; fixedDayCount := year360; fairRate := 1 / 10 |}
     zero_rates (2 / 10) 1 = Raise IndexError
   <-> fixedSchedule {| fixedSchedule := [360%Z]; fixedDayCount := year360;
                        fairRate := 1 / 10 |} = []) /\
  (forall d,
      fixedSchedule {| fixedSchedule := [360%Z]; fixedDayCount := year360;
                       fairRate := 1 / 10 |} = [d] ->
      get_drift 0%Z {| fixedSchedule := [360%Z]; fixedDayCount := year360; fairRate := 1 / 10 |}
        zero_rates (2 / 10) 1 = Raise ZeroDivisionError).
Proof.
  apply get_drift_short_schedule; apply Rabs_le_pow_safe; simpl; lra.
Defined.

(** *** The sign of the drift *)

Lemma regular_differences (swap : VanillaSwap) :
  regular swap -> 0 < fairRate swap ->
  central_first (psi_of swap) (fairRate swap) 0.0001 < 0
  /\ 0 < central_second (psi_of swap) (fairRate swap) 0.0001.
Proof.
  intros Hreg HS. unfold central_first, central_second.
  assert (Hd : psi_of swap (fairRate swap + 0.0001) < psi_of swap (fairRate swap - 0.0001))
    by (apply psi_of_decr; [exact Hreg | lra | lra]).
  assert (Hc : 2 * psi_of swap (fairRate swap)
               < psi_of swap (fairRate swap + 0.0001) + psi_of swap (fairRate swap - 0.0001))
    by (apply psi_of_convex; [exact Hreg | lra | lra]).
  split.
  - assert (Hi : 0 < / (2 * 0.0001)) by (apply Rinv_0_lt_compat; lra).
    unfold Rdiv. nra.
  - apply Rdiv_lt_0_compat; [lra |]. apply pow_lt. lra.
Qed.

Lemma regular_cms_rate (swap : VanillaSwap) (sigma Talpha : R) :
  regular swap -> 0 < fairRate swap -> 0 < Talpha ->
  fairRate swap <= cms_rate_13_16 (psi_of swap) (fairRate swap) sigma Talpha 0.0001
  /\ (sigma <> 0 ->
      fairRate swap < cms_rate_13_16 (psi_of swap) (fairRate swap) sigma Talpha 0.0001).
Proof.
  intros Hreg HS HT. destruct (regular_differences swap Hreg HS) as [H1 H2].
  unfold cms_rate_13_16.
  set (p := central_first (psi_of swap) (fairRate swap) 0.0001) in *.
  set (q := central_second (psi_of swap) (fairRate swap) 0.0001) in *.
  assert (Hip : / p < 0) by (apply Rinv_lt_0_compat; exact H1).
  assert (Hc : 0 < 0.5 * fairRate swap ^ 2 * Talpha * q).
  { apply Rmult_lt_0_compat; [| exact H2]. apply Rmult_lt_0_compat; [| exact HT].
    apply Rmult_lt_0_compat; [lra | apply pow_lt; exact HS]. }
  replace (0.5 * fairRate swap ^ 2 * sigma ^ 2 * Talpha * q / p)
    with (sigma ^ 2 * ((0.5 * fairRate swap ^ 2 * Talpha * q) * / p)) by (unfold Rdiv; ring).
  set (c := 0.5 * fairRate swap ^ 2 * Talpha * q) in *.
  assert (Hcp : c * / p < 0) by nra.
  split.
  - pose proof (pow2_ge_0 sigma). nra.
  - intros Hs. assert (0 < sigma ^ 2).
    { replace (sigma ^ 2) with (Rsqr sigma) by (unfold Rsqr; ring).
      apply Rsqr_pos_lt. exact Hs. }
    nra.
Qed.

(** X16. On a regular swap with a positive fair rate, observed before its
    start date, [get_drift] returns a drift that is not negative, and
    positive when the volatility is not zero: the convexity-adjusted
    rate of formula (13.16) is at least the forward swap rate. *)
Theorem get_drift_nonneg (today : Date) (swap : VanillaSwap) (curve : YieldTermStructure)
    (sigma h : R) :
  regular swap -> 0 < fairRate swap ->
  0 < yearFraction (fixedDayCount swap) today (nth 0 (fixedSchedule swap) 0%Z) ->
  exists mu,
    get_drift today swap curve sigma h = Ok mu /\ 0 <= mu /\ (sigma <> 0 -> 0 < mu).
Proof.
  intros Hreg HS HT.
  destruct (fixedSchedule swap) as [| first rest] eqn:Hs.
  { destruct Hreg as [Hlen _]. rewrite Hs in Hlen. simpl in Hlen. lia. }
  simpl nth in HT.
  destruct (regular_differences swap Hreg HS) as [H1 H2].
  destruct (regular_cms_rate swap sigma _ Hreg HS HT) as [Hge Hgt].
  set (T := yearFraction (fixedDayCount swap) today first) in *.
  set (c := cms_rate_13_16 (psi_of swap) (fairRate swap) sigma T 0.0001) in *.
  assert (Hratio : 1 <= c / fairRate swap).
  { apply Rmult_le_reg_r with (fairRate swap); [exact HS |].
    replace (c / fairRate swap * fairRate swap) with c by (field; lra). lra. }
  exists (drift_spec (psi_of swap) (fairRate swap) sigma T 0.0001).
  split; [| split].
  - apply (get_drift_eq today swap curve sigma h first rest Hs); fold T; fold c; lra.
  - unfold drift_spec. fold c.
    assert (0 <= ln (c / fairRate swap)).
    { rewrite <- ln_1. destruct Hratio as [Hlt | <-]; [left; apply ln_increasing; lra | lra]. }
    apply Rmult_le_pos; [left; apply Rdiv_lt_0_compat; lra | assumption].
  - intros Hsig. specialize (Hgt Hsig). unfold drift_spec. fold c.
    assert (Hr : 1 < c / fairRate swap).
    { apply Rmult_lt_reg_r with (fairRate swap); [exact HS |].
      replace (c / fairRate swap * fairRate swap) with c by (field; lra). lra. }
    apply Rmult_lt_0_compat; [apply Rdiv_lt_0_compat; lra |].
    rewrite <- ln_1. apply ln_increasing; lra.
Qed.

Lemma get_drift_nonneg_witness :
  exists mu,
    get_drift 0%Z toy_swap zero_rates (2 / 10) 1 = Ok mu /\ 0 <= mu /\ (2 / 10 <> 0 -> 0 < mu).
Proof.
  apply (get_drift_nonneg 0%Z toy_swap zero_rates (2 / 10) 1 toy_regular).
  - simpl. lra.
  - simpl. lra.
Defined.


(** *** [np.linspace] *)

(** X17. [linspace start stop num] has [num] points; a single point is
    [start]; from two points on, the first is [start], the last is
    [stop] and neighbours are [(stop - start) / (num - 1)] apart. *)
Theorem linspace_shape (start stop : R) (num : nat) :
  List.length (linspace start stop num) = num /\
  (num = 1%nat -> linspace start stop num = [start]) /\
  ((2 <= num)%nat ->
   nth 0 (linspace start stop num) 0 = start /\
   nth (num - 1) (linspace start stop num) 0 = stop /\
   forall i, (Datatypes.S i < num)%nat ->
             nth (Datatypes.S i) (linspace start stop num) 0 - nth i (linspace start stop num) 0
             = (stop - start) / INR (num - 1)).
Proof.
  split; [apply linspace_length |]. split.
  - intros ->. unfold linspace. simpl. f_equal. ring.
  - intros Hn.
    assert (Hpos : 0 < INR (num - 1)) by (apply lt_0_INR; lia).
    split; [| split].
    + rewrite linspace_nth by lia. simpl INR. ring.
    + rewrite linspace_nth by lia. field. lra.
    + intros i Hi. rewrite !linspace_nth by lia. rewrite S_INR. field. lra.
Qed.

(** *** The trapezoid rule *)

Lemma trapezoid_consecutive (f : R -> R) (x : list R) :
  trapezoid (map f x) x
  = sum (map (fun p => (fst p - snd p) * (f (fst p) + f (snd p)) / 2) (consecutive x)).
Proof.
  unfold trapezoid, diff. fold (consecutive x). fold (consecutive (map f x)).
  rewrite consecutive_map, map_map, combine_map_same, map_map. reflexivity.
Qed.

Lemma last_cons {A : Type} (b d : A) (t : list A) : last (b :: t) d = last t b.
Proof.
  revert b d. induction t as [| r t IH]; intros b d; [reflexivity |].
  change (last (b :: r :: t) d) with (last (r :: t) d). now rewrite (IH r d), (IH r b).
Qed.

Lemma last_as_nth {A : Type} (d : A) (l : list A) :
  last l d = nth (List.length l - 1) l d.
Proof.
  induction l as [| a [| b t] IH]; try reflexivity.
  change (last (a :: b :: t) d) with (last (b :: t) d). rewrite IH.
  replace (List.length (a :: b :: t) - 1)%nat with (Datatypes.S (List.length (b :: t) - 1))
    by (simpl; lia).
  reflexivity.
Qed.

Lemma trapezoid_affine_from (alpha beta a : R) (t : list R) :
  trapezoid (map (fun v => alpha + beta * v) (a :: t)) (a :: t)
  = alpha * (last t a - a) + beta * ((last t a) ^ 2 - a ^ 2) / 2.
Proof.
  rewrite trapezoid_consecutive. revert a.
  induction t as [| b t IH]; intros a;
    [cbv [consecutive tl removelast combine map sum fold_right last]; field |].
  rewrite consecutive_cons. simpl map. unfold sum at 1. simpl fold_right.
  change (fold_right Rplus 0) with sum. rewrite IH.
  rewrite (last_cons b a t). field.
Qed.

(** X18. The rule is exact on affine integrands, on any grid: the result
    is the integral of [alpha + beta v] from the first node to the
    last; fewer than two nodes give zero; over [v_grid] a constant
    [c] integrates to [16 c]. *)
Theorem trapezoid_affine (alpha beta : R) (x : list R) :
  trapezoid (map (fun v => alpha + beta * v) x) x
  = alpha * (last x 0 - hd 0 x) + beta * ((last x 0) ^ 2 - (hd 0 x) ^ 2) / 2
  /\ (forall (f : R -> R) (a : R), trapezoid (map f []) [] = 0 /\ trapezoid (map f [a]) [a] = 0)
  /\ (forall c, trapezoid (map (fun _ => c) v_grid) v_grid = 16 * c).
Proof.
  assert (Hgen : forall a b (l : list R),
             trapezoid (map (fun v => a + b * v) l) l
             = a * (last l 0 - hd 0 l) + b * ((last l 0) ^ 2 - (hd 0 l) ^ 2) / 2).
  { intros a b [| y t]; [unfold trapezoid; simpl; field |].
    rewrite trapezoid_affine_from, (last_cons y 0 t). reflexivity. }
  split; [apply Hgen |]. split.
  - intros f a. split; reflexivity.
  - intros c.
    assert (E : map (fun _ : R => c) v_grid = map (fun v => c + 0 * v) v_grid).
    { apply map_ext. intros v. ring. }
    rewrite E, Hgen.
    assert (Hl : last v_grid 0 = 8).
    { destruct v_grid_shape as [Hlen [_ [H399 _]]].
      rewrite <- H399, last_as_nth, Hlen. reflexivity. }
    assert (Hh : hd 0 v_grid = -8).
    { destruct v_grid_shape as [_ [H0 _]]. rewrite <- H0.
      unfold v_grid, linspace. reflexivity. }
    rewrite Hl, Hh. field.
Qed.


(** *** How failures travel through the integration cells *)

Lemma get_fv_raises (today : Date) (swap1 swap2 : VanillaSwap) (curve : YieldTermStructure)
    (v K sigma1 sigma2 rho : R) :
  (fixedSchedule swap1 = [] ->
   get_fv today swap1 swap2 curve v K sigma1 sigma2 rho = Raise IndexError) /\
  (forall e, fixedSchedule swap1 <> [] ->
             get_drift today swap1 curve sigma1 0.0001 = Raise e ->
             get_fv today swap1 swap2 curve v K sigma1 sigma2 rho = Raise e) /\
  (forall mu1 e, fixedSchedule swap1 <> [] ->
                 get_drift today swap1 curve sigma1 0.0001 = Ok mu1 ->
                 get_drift today swap2 curve sigma2 0.0001 = Raise e ->
                 get_fv today swap1 swap2 curve v K sigma1 sigma2 rho = Raise e).
Proof.
  unfold get_fv. destruct (fixedSchedule swap1) as [| first rest].
  - split; [reflexivity |]. split; intros; congruence.
  - unfold getindex. simpl nth_error. cbv beta iota zeta delta [bind].
    split; [discriminate |]. split.
    + intros e _ ->. reflexivity.
    + intros mu1 e _ -> ->. reflexivity.
Qed.

Lemma undiscounted_payoff_on_raises (today : Date) (swap1 swap2 : VanillaSwap)
    (curve : YieldTermStructure) (v : R) (grid : list R) (e : exn) :
  get_fv today swap1 swap2 curve v 0.01 0.2 0.2 (-0.9) = Raise e ->
  undiscounted_payoff_on (v :: grid) today swap1 swap2 curve = Raise e.
Proof.
  intros H. unfold undiscounted_payoff_on, integrand. simpl mapM. rewrite H. reflexivity.
Qed.

(** X19. The integration cell evaluates [get_fv] at every node in turn, so
    over a grid with at least one node it raises what [get_fv] raises:
    [IndexError] when the first swap has no schedule, else the
    exception of the first swap's drift, else that of the second
    swap's drift.  Over an empty grid nothing is evaluated and the
    result is [0]. *)
Theorem undiscounted_payoff_failures (today : Date) (swap1 swap2 : VanillaSwap)
    (curve : YieldTermStructure) (v : R) (grid : list R) :
  undiscounted_payoff_on [] today swap1 swap2 curve = Ok 0 /\
  (fixedSchedule swap1 = [] ->
   undiscounted_payoff_on (v :: grid) today swap1 swap2 curve = Raise IndexError) /\
  (forall e, fixedSchedule swap1 <> [] ->
             get_drift today swap1 curve 0.2 0.0001 = Raise e ->
             undiscounted_payoff_on (v :: grid) today swap1 swap2 curve = Raise e) /\
  (forall mu1 e, fixedSchedule swap1 <> [] ->
                 get_drift today swap1 curve 0.2 0.0001 = Ok mu1 ->
                 get_drift today swap2 curve 0.2 0.0001 = Raise e ->
                 undiscounted_payoff_on (v :: grid) today swap1 swap2 curve = Raise e).
Proof.
  destruct (get_fv_raises today swap1 swap2 curve v 0.01 0.2 0.2 (-0.9)) as [H1 [H2 H3]].
  split; [reflexivity |]. split; [| split].
  - intros Hs. apply undiscounted_payoff_on_raises. apply H1. exact Hs.
  - intros e Hs Hd. apply undiscounted_payoff_on_raises. apply (H2 e Hs Hd).
  - intros mu1 e Hs Hd1 Hd2. apply undiscounted_payoff_on_raises. apply (H3 mu1 e Hs Hd1 Hd2).
Qed.

(** *** The discounting cell *)

Lemma v_grid_cons : exists v rest, v_grid = v :: rest.
Proof.
  unfold v_grid, linspace. change (seq 0 400) with (0%nat :: seq 1 399).
  cbv zeta. rewrite map_cons. eexists. eexists. reflexivity.
Qed.

Lemma undiscounted_payoff_schedule (today : Date) (swap1 swap2 : VanillaSwap)
    (curve : YieldTermStructure) (u : R) :
  undiscounted_payoff today swap1 swap2 curve = Ok u ->
  exists first rest, fixedSchedule swap1 = first :: rest.
Proof.
  intros H. destruct (fixedSchedule swap1) as [| first rest] eqn:Hs;
    [exfalso | now exists first, rest].
  unfold undiscounted_payoff in H. destruct v_grid_cons as [v [rest E]]. rewrite E in H.
  rewrite (undiscounted_payoff_on_raises _ _ _ _ v rest IndexError) in H; [discriminate |].
  apply (proj1 (get_fv_raises today swap1 swap2 curve v 0.01 0.2 0.2 (-0.9))). exact Hs.
Qed.

(** X20. The last cell multiplies the integral by the discount factor at
    the first schedule date.  It raises exactly when the integration
    did, with the same exception: once the integral has been
    computed, the schedule is known to have a first date. *)
Theorem npv_follows_payoff (today : Date) (swap1 swap2 : VanillaSwap)
    (curve : YieldTermStructure) :
  (forall e, undiscounted_payoff today swap1 swap2 curve = Raise e ->
             npv today swap1 swap2 curve = Raise e) /\
  (forall u, undiscounted_payoff today swap1 swap2 curve = Ok u ->
             exists first rest,
               fixedSchedule swap1 = first :: rest /\
               npv today swap1 swap2 curve = Ok (discount curve first * u)).
Proof.
  split.
  - intros e H. unfold npv. rewrite H. reflexivity.
  - intros u H. destruct (undiscounted_payoff_schedule _ _ _ _ _ H) as [first [rest Hs]].
    exists first, rest. split; [exact Hs |].
    unfold npv. rewrite H, Hs. reflexivity.
Qed.

End SpreadMore.

(** ** build_fx_quotes.ipynb: the forward quotes *)

Section FxMore.

Import FxQuotes Toy.

Variable P : Periods.

Lemma mapM_raises {A B : Type} (f : A -> result B) (l : list A) (e : exn) :
  mapM f l = Raise e -> exists x, In x l /\ f x = Raise e.
Proof.
  induction l as [| x t IH]; simpl; [discriminate |].
  destruct (f x) as [y | e'] eqn:Hx; simpl.
  - destruct (mapM f t) as [ys | e''] eqn:Ht; simpl; [discriminate |].
    intros H. injection H as ->. destruct (IH eq_refl) as [z [Hz Hfz]].
    exists z. split; [now right | exact Hfz].
  - intros H. injection H as ->. exists x. split; [now left | exact Hx].
Qed.

Lemma mapM_raises_one {A B : Type} (f : A -> result B) (l : list A) (x : A) (e : exn) :
  In x l -> f x = Raise e -> (forall y e', f y = Raise e' -> e' = e) -> mapM f l = Raise e.
Proof.
  intros Hx Hf Hall. induction l as [| y t IH]; [destruct Hx |].
  simpl. destruct (f y) as [v | e'] eqn:Hy; simpl.
  - destruct Hx as [-> | Hx]; [congruence |]. rewrite (IH Hx). reflexivity.
  - now rewrite (Hall y e' Hy).
Qed.

Lemma mapM_ext {A B : Type} (f g : A -> result B) (l : list A) :
  (forall x, f x = g x) -> mapM f l = mapM g l.
Proof.
  intros E. induction l as [| x t IH]; [reflexivity |]. simpl. now rewrite E, IH.
Qed.

Lemma mapM_length {A B : Type} (f : A -> result B) (l : list A) (r : list B) :
  mapM f l = Ok r -> List.length r = List.length l.
Proof.
  revert r. induction l as [| x t IH]; simpl; intros r H.
  - injection H as <-. reflexivity.
  - destruct (f x) as [y | e]; simpl in H; [| discriminate].
    destruct (mapM f t) as [ys | e]; simpl in H; [| discriminate].
    injection H as <-. simpl. f_equal. now apply IH.
Qed.

(** X21. Where [ql.Period] accepts every expiry, so that each date
    [fwd_maturity] is computed: the loop returns one forward
    [spot * dEUR / dUSD] per expiry, in order, exactly when no modified
    USD discount factor at these dates is zero, and raises
    [ZeroDivisionError] exactly when one is. *)
Theorem quotes_fx_outcome (date : Date) (spot_fx : R)
    (eur_curve usd_curve_mod : YieldTermStructure) (expiries_fwd : list string) :
  ((forall expiry, In expiry expiries_fwd ->
                   discount usd_curve_mod (advance P date expiry) <> 0)
   <-> quotes_fx P date spot_fx eur_curve usd_curve_mod expiries_fwd
       = Ok (map (fun expiry => fx_forward spot_fx eur_curve usd_curve_mod
                                  (advance P date expiry))
               expiries_fwd)) /\
  ((exists expiry, In expiry expiries_fwd
                   /\ discount usd_curve_mod (advance P date expiry) = 0)
   <-> quotes_fx P date spot_fx eur_curve usd_curve_mod expiries_fwd
       = Raise ZeroDivisionError) /\
  (forall l, quotes_fx P date spot_fx eur_curve usd_curve_mod expiries_fwd = Ok l ->
             List.length l = List.length expiries_fwd).
Proof.
  assert (Hraise : forall e,
             quotes_fx P date spot_fx eur_curve usd_curve_mod expiries_fwd = Raise e ->
             e = ZeroDivisionError
             /\ exists expiry, In expiry expiries_fwd
                               /\ discount usd_curve_mod (advance P date expiry) = 0).
  { intros e H. apply mapM_raises in H. destruct H as [x [Hx Hf]]. cbv zeta in Hf.
    unfold truediv in Hf.
    destruct (Req_dec_T (discount usd_curve_mod (advance P date x)) 0) as [Hz | Hz];
      [| discriminate].
    injection Hf as <-. split; [reflexivity | now exists x]. }
  assert (Hok : (forall expiry, In expiry expiries_fwd ->
                                discount usd_curve_mod (advance P date expiry) <> 0) ->
                quotes_fx P date spot_fx eur_curve usd_curve_mod expiries_fwd
                = Ok (map (fun expiry => fx_forward spot_fx eur_curve usd_curve_mod
                                           (advance P date expiry))
                        expiries_fwd)).
  { intros H. unfold quotes_fx. apply mapM_ok. intros x Hx. cbv zeta.
    apply truediv_ok. apply H. exact Hx. }
  assert (Hzero : (exists expiry, In expiry expiries_fwd
                                  /\ discount usd_curve_mod (advance P date expiry) = 0) ->
                  quotes_fx P date spot_fx eur_curve usd_curve_mod expiries_fwd
                  = Raise ZeroDivisionError).
  { intros [x [Hx Hz]]. unfold quotes_fx.
    apply (mapM_raises_one _ _ x); [exact Hx | |].
    - cbv zeta. rewrite Hz. apply truediv_zero.
    - intros y e'. cbv zeta. unfold truediv.
      destruct (Req_dec_T _ 0); [| discriminate]. intros H. now injection H as <-. }
  split; [| split].
  - split; [exact Hok |]. intros H expiry Hin Hz.
    rewrite Hzero in H by (exists expiry; now split). discriminate.
  - split; [exact Hzero |]. intros H. apply (Hraise _ H).
  - intros l H. apply (mapM_length _ _ _ H).
Qed.

(** X22. The forward points handed to the FX swap helpers have the sign of
    the difference of the two discount factors: the forward is above
    spot exactly when the EUR discount factor exceeds the modified USD
    one, and equal to spot exactly when the two agree. *)
Theorem fwd_points_sign (date : Date) (spot_fx : R)
    (eur_curve usd_curve_mod : YieldTermStructure) (expiry : string) :
  0 < spot_fx -> 0 < discount usd_curve_mod (advance P date expiry) ->
  exists fwd,
    quotes_fx P date spot_fx eur_curve usd_curve_mod [expiry] = Ok [fwd] /\
    (0 < fwd_points fwd spot_fx
     <-> discount usd_curve_mod (advance P date expiry)
         < discount eur_curve (advance P date expiry)) /\
    (fwd_points fwd spot_fx = 0
     <-> discount eur_curve (advance P date expiry)
         = discount usd_curve_mod (advance P date expiry)) /\
    (fwd_points fwd spot_fx < 0
     <-> discount eur_curve (advance P date expiry)
         < discount usd_curve_mod (advance P date expiry)).
Proof.
  intros Hs Hu.
  exists (fx_forward spot_fx eur_curve usd_curve_mod (advance P date expiry)).
  split.
  { unfold quotes_fx. simpl. rewrite truediv_ok by lra. reflexivity. }
  unfold fwd_points, fx_forward.
  set (de := discount eur_curve (advance P date expiry)) in *.
  set (du := discount usd_curve_mod (advance P date expiry)) in *.
  assert (E : spot_fx * de / du - spot_fx = spot_fx * (de - du) / du) by (field; lra).
  rewrite E.
  assert (Hi : 0 < / du) by (apply Rinv_0_lt_compat; exact Hu).
  assert (Hq : 0 < spot_fx / du) by (apply Rdiv_lt_0_compat; assumption).
  replace (spot_fx * (de - du) / du) with (spot_fx / du * (de - du)) by (field; lra).
  repeat split; intros H; nra.
Qed.

End FxMore.

Lemma fwd_points_sign_witness :
  exists fwd,
    FxQuotes.quotes_fx FxQuotes.toy_periods 0%Z (12 / 10) Toy.zero_rates Toy.zero_rates ["1Y"%string]
    = Ok [fwd] /\
    (0 < FxQuotes.fwd_points fwd (12 / 10)
     <-> discount Toy.zero_rates (FxQuotes.advance FxQuotes.toy_periods 0%Z "1Y")
         < discount Toy.zero_rates (FxQuotes.advance FxQuotes.toy_periods 0%Z "1Y")) /\
    (FxQuotes.fwd_points fwd (12 / 10) = 0
     <-> discount Toy.zero_rates (FxQuotes.advance FxQuotes.toy_periods 0%Z "1Y")
         = discount Toy.zero_rates (FxQuotes.advance FxQuotes.toy_periods 0%Z "1Y")) /\
    (FxQuotes.fwd_points fwd (12 / 10) < 0
     <-> discount Toy.zero_rates (FxQuotes.advance FxQuotes.toy_periods 0%Z "1Y")
         < discount Toy.zero_rates (FxQuotes.advance FxQuotes.toy_periods 0%Z "1Y")).
Proof.
  apply (fwd_points_sign FxQuotes.toy_periods 0%Z (12 / 10) Toy.zero_rates Toy.zero_rates "1Y").
  - lra.
  - simpl. lra.
Defined.

(** ** build_fx_quotes.ipynb: the class and the spread loop *)

Section XccyMore.

Import Xccy FxQuotes Toy.

Variable lib : Library.

(** *** One instance, one call *)

Lemma fair_spread_after (self : xccy_swap) (ed ud : YieldTermStructure) :
  pricing_date (fst (fair_spread lib self ed ud)) = pricing_date self /\
  schedule (fst (fair_spread lib self ed ud)) = schedule self /\
  eur_leg (fst (fair_spread lib self ed ud)) = eur_leg self /\
  usd_leg (fst (fair_spread lib self ed ud)) = usd_leg self /\
  eur_notional (fst (fair_spread lib self ed ud)) = eur_notional self /\
  usd_notional (fst (fair_spread lib self ed ud)) = usd_notional self.
Proof.
  unfold fair_spread. destruct (dict_pop (inputs self) "spread_eur") as [[v d] | e];
    repeat split; reflexivity.
Qed.

(** X23. Every constructed instance can compute its fair spread once: the
    call removes ['spread_eur'] from the stored inputs and leaves the
    schedule and the legs as they were; any later call on the same
    instance raises [KeyError], without reaching the root finder, and
    changes nothing more. *)
Theorem fair_spread_single_use (pd : Date) (e u : YieldTermStructure) (n : Z)
    (sp : option R) (self : xccy_swap) (ed ud ed' ud' : YieldTermStructure) :
  __init__ lib pd e u n sp = Ok self ->
  dict_get (inputs self) "spread_eur" = Some (value_of_spread sp) /\
  dict_get (inputs (fst (fair_spread lib self ed ud))) "spread_eur" = None /\
  schedule (fst (fair_spread lib self ed ud)) = schedule self /\
  eur_leg (fst (fair_spread lib self ed ud)) = eur_leg self /\
  usd_leg (fst (fair_spread lib self ed ud)) = usd_leg self /\
  fair_spread lib (fst (fair_spread lib self ed ud)) ed' ud'
  = (fst (fair_spread lib self ed ud), Raise KeyError).
Proof.
  intros Hinit. pose proof (init_inputs lib _ _ _ _ _ _ Hinit) as Hin.
  destruct (fair_spread_eq lib pd e u n sp self ed ud Hin) as [_ Hafter].
  destruct (fair_spread_after self ed ud) as [_ [Hs [He [Hu _]]]].
  split; [rewrite Hin; reflexivity |].
  split; [rewrite Hafter; reflexivity |].
  split; [exact Hs |]. split; [exact He |]. split; [exact Hu |].
  unfold fair_spread at 1. rewrite Hafter. reflexivity.
Qed.



(** *** What the result depends on *)

(** X24. The fair spread does not depend on the spread the instance was
    constructed with: the stored value is discarded before the search. *)
Theorem fair_spread_ignores_initial_spread (pd : Date) (e u : YieldTermStructure) (n : Z)
    (sp1 sp2 : option R) (self1 self2 : xccy_swap) (ed ud : YieldTermStructure) :
  __init__ lib pd e u n sp1 = Ok self1 ->
  __init__ lib pd e u n sp2 = Ok self2 ->
  snd (fair_spread lib self1 ed ud) = snd (fair_spread lib self2 ed ud).
Proof.
  intros H1 H2.
  rewrite (proj1 (fair_spread_eq lib pd e u n sp1 self1 ed ud (init_inputs lib _ _ _ _ _ _ H1))).
  rewrite (proj1 (fair_spread_eq lib pd e u n sp2 self2 ed ud (init_inputs lib _ _ _ _ _ _ H2))).
  reflexivity.
Qed.

Lemma objective_zero (pd : Date) (e u : YieldTermStructure) (n : Z)
    (ed ud : YieldTermStructure) :
  objective lib pd e u n ed ud 0 = Raise AttributeError.
Proof.
  unfold objective. rewrite init_falsy by apply truthy_zero. reflexivity.
Qed.

(** X25. The function handed to the root finder cannot be evaluated at a
    zero spread: the swap rebuilt with [spread_eur = 0.0] has no legs
    and its [npv] raises [AttributeError].  With a root finder that
    returns only zeros of its argument, [fair_spread] therefore never
    returns [0]. *)
Theorem fair_spread_never_zero (pd : Date) (e u : YieldTermStructure) (n : Z)
    (sp : option R) (self : xccy_swap) (ed ud : YieldTermStructure) :
  (forall f x0 x1 r, root_scalar lib f x0 x1 = Ok r -> f r = Ok 0) ->
  __init__ lib pd e u n sp = Ok self ->
  objective lib pd e u n ed ud 0 = Raise AttributeError /\
  (forall r, snd (fair_spread lib self ed ud) = Ok r -> r <> 0).
Proof.
  intros Hroot Hinit. split; [apply objective_zero |].
  intros r Hr ->.
  rewrite (proj1 (fair_spread_eq lib pd e u n sp self ed ud (init_inputs lib _ _ _ _ _ _ Hinit)))
    in Hr.
  apply Hroot in Hr. rewrite objective_zero in Hr. discriminate.
Qed.

(** *** [build_swap] *)

(** X27. [build_swap] called on an instance without legs gives it legs for
    any spread, zero included: the instance then prices, which the
    instance the constructor returns for a zero spread does not. *)
Theorem build_swap_enables_npv (pd : Date) (e u : YieldTermStructure) (n : Z)
    (x : R) (last : Date) (ed ud : YieldTermStructure) :
  pymax (MakeSchedule lib pd n) = Ok last ->
  __init__ lib pd e u n (Some 0) = Ok (bare lib pd e u n (Some 0)) /\
  npv lib (bare lib pd e u n (Some 0)) ed ud = Raise AttributeError /\
  exists swap : xccy_swap,
    build_swap (bare lib pd e u n (Some 0)) pd x e u n = Ok swap /\
    npv lib swap ed ud
    = Ok (CashFlows_npv lib (OvernightLeg [1] (MakeSchedule lib pd n) (Eonia e) [1] [x] true) ed pd
          + CashFlows_npv lib (SimpleCashFlowLeg 1 last) ed pd
          - (CashFlows_npv lib (OvernightLeg [1] (MakeSchedule lib pd n) (Sofr u) [1] [0] true)
               ud pd
             + CashFlows_npv lib (SimpleCashFlowLeg 1 last) ud pd)).
Proof.
  intros Hmax. split; [apply init_falsy, truthy_zero |]. split; [reflexivity |].
  unfold build_swap. simpl schedule. rewrite Hmax. cbv beta iota delta [bind].
  eexists. split; reflexivity.
Qed.

(** *** The loop over the maturities *)

Variable P : Periods.

(** X28. The loop builds a fresh instance for every maturity and calls
    [fair_spread] on it once.  It completes with the list [l] exactly
    when the root search on the objective of every maturity's own
    tenor returns, with [l] the results of these searches in order:
    one entry per maturity, none depending on another maturity. *)
Theorem xccy_spreads_eur_entries (date : Date)
    (eur_curve usd_curve usd_curve_mod : YieldTermStructure) (maturities_xccy : list string) :
  (forall l,
      xccy_spreads_eur P lib date eur_curve usd_curve usd_curve_mod maturities_xccy = Ok l
      <-> mapM (fun maturity =>
                  root_scalar lib
                    (objective lib date eur_curve usd_curve (period_length P maturity)
                       eur_curve usd_curve_mod)
                    (-0.1) 0.1)
               maturities_xccy = Ok l)
  /\ (forall l, xccy_spreads_eur P lib date eur_curve usd_curve usd_curve_mod maturities_xccy
                = Ok l -> List.length l = List.length maturities_xccy).
Proof.
  split.
  - intros l. unfold xccy_spreads_eur.
    rewrite (mapM_ext _ (fun maturity =>
                           root_scalar lib
                             (objective lib date eur_curve usd_curve (period_length P maturity)
                                eur_curve usd_curve_mod)
                             (-0.1) 0.1));
      [reflexivity |].
    intros m. cbv zeta. rewrite init_falsy by reflexivity. cbv beta iota delta [bind].
    apply (fair_spread_eq lib date eur_curve usd_curve (period_length P m) None). reflexivity.
  - intros l H. apply (mapM_length _ _ _ H).
Qed.

End XccyMore.

Section XccyMoreToy.

Import Xccy Toy.

Lemma toy_init_spread :
  __init__ toy_lib 0%Z zero_rates zero_rates 2%Z (Some (5 / 100))
  = Ok (built toy_lib 0%Z zero_rates zero_rates 2%Z (5 / 100) 720%Z).
Proof.
  rewrite init_truthy by lra.
  change (MakeSchedule toy_lib 0%Z 2%Z) with (toy_schedule 0%Z 2%Z). rewrite toy_pymax.
  reflexivity.
Qed.

Lemma fair_spread_ignores_initial_spread_witness :
  snd (fair_spread toy_lib toy_xccy zero_rates zero_rates)
  = snd (fair_spread toy_lib (built toy_lib 0%Z zero_rates zero_rates 2%Z (5 / 100) 720%Z)
           zero_rates zero_rates).
Proof.
  apply (fair_spread_ignores_initial_spread toy_lib 0%Z zero_rates zero_rates 2%Z
           None (Some (5 / 100))).
  - apply toy_xccy_init.
  - apply toy_init_spread.
Defined.

Lemma fair_spread_never_zero_witness :
  objective toy_lib 0%Z zero_rates zero_rates 2%Z zero_rates zero_rates 0
  = Raise AttributeError /\
  (forall r, snd (fair_spread toy_lib toy_xccy zero_rates zero_rates) = Ok r -> r <> 0).
Proof.
  apply (fair_spread_never_zero toy_lib 0%Z zero_rates zero_rates 2%Z None toy_xccy
           zero_rates zero_rates checked_secant_sound toy_xccy_init).
Defined.

Lemma build_swap_enables_npv_witness :
  __init__ toy_lib 0%Z zero_rates zero_rates 2%Z (Some 0)
  = Ok (bare toy_lib 0%Z zero_rates zero_rates 2%Z (Some 0)) /\
  npv toy_lib (bare toy_lib 0%Z zero_rates zero_rates 2%Z (Some 0)) zero_rates zero_rates
  = Raise AttributeError /\
  exists swap : xccy_swap,
    build_swap (bare toy_lib 0%Z zero_rates zero_rates 2%Z (Some 0)) 0%Z 0
      zero_rates zero_rates 2%Z = Ok swap /\
    npv toy_lib swap zero_rates zero_rates
    = Ok (CashFlows_npv toy_lib
            (OvernightLeg [1] (MakeSchedule toy_lib 0%Z 2%Z) (Eonia zero_rates) [1] [0] true)
            zero_rates 0%Z
          + CashFlows_npv toy_lib (SimpleCashFlowLeg 1 720%Z) zero_rates 0%Z
          - (CashFlows_npv toy_lib
               (OvernightLeg [1] (MakeSchedule toy_lib 0%Z 2%Z) (Sofr zero_rates) [1] [0] true)
               zero_rates 0%Z
             + CashFlows_npv toy_lib (SimpleCashFlowLeg 1 720%Z) zero_rates 0%Z)).
Proof.
  apply (build_swap_enables_npv toy_lib 0%Z zero_rates zero_rates 2%Z 0 720%Z).
  apply toy_pymax.
Defined.

Lemma fair_spread_single_use_witness :
  Xccy.dict_get (Xccy.inputs Toy.toy_xccy) "spread_eur" = Some (Xccy.value_of_spread None) /\
  Xccy.dict_get
    (Xccy.inputs (fst (Xccy.fair_spread Toy.toy_lib Toy.toy_xccy Toy.zero_rates Toy.zero_rates)))
    "spread_eur" = None /\
  Xccy.schedule (fst (Xccy.fair_spread Toy.toy_lib Toy.toy_xccy Toy.zero_rates Toy.zero_rates))
  = Xccy.schedule Toy.toy_xccy /\
  Xccy.eur_leg (fst (Xccy.fair_spread Toy.toy_lib Toy.toy_xccy Toy.zero_rates Toy.zero_rates))
  = Xccy.eur_leg Toy.toy_xccy /\
  Xccy.usd_leg (fst (Xccy.fair_spread Toy.toy_lib Toy.toy_xccy Toy.zero_rates Toy.zero_rates))
  = Xccy.usd_leg Toy.toy_xccy /\
  Xccy.fair_spread Toy.toy_lib
    (fst (Xccy.fair_spread Toy.toy_lib Toy.toy_xccy Toy.zero_rates Toy.zero_rates))
    Toy.zero_rates Toy.zero_rates
  = (fst (Xccy.fair_spread Toy.toy_lib Toy.toy_xccy Toy.zero_rates Toy.zero_rates),
     Raise KeyError).
Proof.
  apply (fair_spread_single_use Toy.toy_lib 0%Z Toy.zero_rates Toy.zero_rates 2%Z None).
  apply toy_xccy_init.
Defined.

End XccyMoreToy.

(** ** forward_curves.ipynb *)

Section ForwardCurvesFacts.

Import ForwardCurves.

Lemma in_range (a b d : Z) : In d (range a b) <-> (a <= d < b)%Z.
Proof.
  unfold range. rewrite in_map_iff. split.
  - intros [k [<- Hk]]. apply in_seq in Hk. lia.
  - intros H. exists (Z.to_nat (d - a)). split; [lia |]. apply in_seq. lia.
Qed.

Lemma range_length (a b : Z) : List.length (range a b) = Z.to_nat (b - a).
Proof. unfold range. now rewrite length_map, length_seq. Qed.

Lemma Date_of_serial_ok (serial : Z) :
  (367 <= serial <= 109574)%Z -> Date_of_serial serial = Ok serial.
Proof.
  intros H. unfold Date_of_serial.
  replace (367 <=? serial)%Z with true by (symmetry; apply Z.leb_le; lia).
  replace (serial <=? 109574)%Z with true by (symmetry; apply Z.leb_le; lia).
  reflexivity.
Qed.

Lemma Date_of_serial_raises (serial : Z) :
  (serial < 367 \/ 109574 < serial)%Z -> Date_of_serial serial = Raise RuntimeError.
Proof.
  intros H. unfold Date_of_serial.
  destruct (367 <=? serial)%Z eqn:E1; [| reflexivity].
  destruct (serial <=? 109574)%Z eqn:E2; [| reflexivity].
  apply Z.leb_le in E1. apply Z.leb_le in E2. lia.
Qed.

Lemma Date_of_serial_error (serial : Z) (e : exn) :
  Date_of_serial serial = Raise e -> e = RuntimeError /\ (serial < 367 \/ 109574 < serial)%Z.
Proof.
  unfold Date_of_serial.
  destruct (367 <=? serial)%Z eqn:E1; [destruct (serial <=? 109574)%Z eqn:E2 |]; simpl;
    intros H; try discriminate; injection H as <-; (split; [reflexivity |]).
  - apply Z.leb_gt in E2. lia.
  - apply Z.leb_gt in E1. lia.
Qed.

Lemma sample_dates_cons (first : Date) (rest : list Date) :
  sample_dates (first :: rest) = mapM Date_of_serial (range first (last rest first)).
Proof.
  unfold sample_dates, getindex. simpl nth_error at 1. cbv beta iota delta [bind].
  assert (Hlast : nth_error (first :: rest) (List.length (first :: rest) - 1)
                  = Some (last rest first)).
  { rewrite <- (last_cons first first rest), (last_as_nth first (first :: rest)).
    apply nth_error_nth'. simpl. lia. }
  rewrite Hlast. reflexivity.
Qed.

(** X29. [sample_dates] raises [IndexError] exactly on an empty list of end
    dates.  Otherwise it walks the serial numbers from the first end
    date up to, and without, the last one.  It raises [RuntimeError]
    exactly when one of them is a serial number QuantLib does not
    hold, which the serial number of the null date is.  When there is
    none, as between two dates QuantLib holds, it is the list of all
    these dates: the last end date is never sampled, and a single end
    date gives no sample at all. *)
Theorem sample_dates_spec (end_dates : list Date) :
  (sample_dates end_dates = Raise IndexError <-> end_dates = []) /\
  (forall first rest, end_dates = first :: rest ->
     (sample_dates end_dates = Raise RuntimeError
      <-> (first < last rest first /\ (first < 367 \/ 109575 < last rest first))%Z) /\
     ((last rest first <= first \/ (367 <= first /\ last rest first <= 109575))%Z ->
      sample_dates end_dates = Ok (range first (last rest first)) /\
      List.length (range first (last rest first)) = Z.to_nat (last rest first - first) /\
      (forall d, In d (range first (last rest first)) <-> (first <= d < last rest first)%Z)) /\
     (rest = [] -> sample_dates end_dates = Ok [])).
Proof.
  assert (Hok : forall (first : Date) (rest : list Date),
             (last rest first <= first \/ (367 <= first /\ last rest first <= 109575))%Z ->
             sample_dates (first :: rest) = Ok (range first (last rest first))).
  { intros first rest H. rewrite sample_dates_cons.
    transitivity (Ok (map (fun d : Date => d) (range first (last rest first))));
      [| now rewrite map_id].
    apply mapM_ok. intros d Hd. apply in_range in Hd.
    apply Date_of_serial_ok. unfold Date in *. lia. }
  assert (Hbad : forall (first : Date) (rest : list Date),
             (first < last rest first /\ (first < 367 \/ 109575 < last rest first))%Z ->
             sample_dates (first :: rest) = Raise RuntimeError).
  { intros first rest [Hlt Hout]. rewrite sample_dates_cons.
    assert (Hx : exists d, (first <= d < last rest first)%Z /\ (d < 367 \/ 109574 < d)%Z).
    { destruct Hout as [H | H].
      - exists first. unfold Date in *. lia.
      - exists (last rest first - 1)%Z. unfold Date in *. lia. }
    destruct Hx as [d [Hd Hinv]].
    apply (mapM_raises_one _ _ d).
    - apply in_range. exact Hd.
    - apply Date_of_serial_raises. exact Hinv.
    - intros y e' Hy. apply (Date_of_serial_error _ _ Hy). }
  split.
  - destruct end_dates as [| first rest]; [split; reflexivity |].
    split; [| discriminate]. rewrite sample_dates_cons. intros H.
    apply mapM_raises in H. destruct H as [d [_ Hd]].
    apply Date_of_serial_error in Hd. destruct Hd as [Hd _]. discriminate Hd.
  - intros first rest ->. split; [| split].
    + split; [| apply Hbad]. intros H.
      assert (Hc : (last rest first <= first \/ (367 <= first /\ last rest first <= 109575))%Z
                   \/ (first < last rest first
                       /\ (first < 367 \/ 109575 < last rest first))%Z)
        by (unfold Date in *; lia).
      destruct Hc as [Hc | Hc]; [| exact Hc].
      rewrite (Hok first rest Hc) in H. discriminate.
    + intros H. split; [apply (Hok first rest H) |].
      split; [apply range_length | intros d; apply in_range].
    + intros ->. rewrite (Hok first []) by (simpl; left; unfold Date in *; lia).
      simpl. unfold range. rewrite Z.sub_diag. reflexivity.
Qed.

End ForwardCurvesFacts.
